(** * bilby.gw.conversion: parameter conversions for compact binaries

    A shallow embedding of [bilby/gw/conversion.py].

    - Floats are exact reals.  Where numpy would produce [inf] or [nan]
      (a negative base under a fractional exponent, a column entry divided
      by zero) the embedding keeps the totalised value of the real
      operation; every statement below that depends on a value stays
      inside the domain where the float operation is finite.  Where a
      statement is about the rounding of the program,
      [symmetric_mass_ratio_to_mass_ratio] is also given in binary64.
    - A sample is a Python [dict] or a pandas [DataFrame].  Both live in a
      store of objects addressed by reference, so that [sample.copy()],
      aliasing and in-place assignment [sample[key] = value] are what the
      source does.
    - The likelihood, the cosmology, the equation of state and the
      lalsimulation frame transform are collaborators of the module; they
      are taken as records of functions. *)

From Stdlib Require Import Floats.
From Stdlib Require Import Reals Lra Lia List String Ascii Bool Arith.
Import ListNotations.

Open Scope R_scope.

(** ** Numeric primitives *)

(** Python's [x ** y] on floats.  For a positive base this is the real
    power; [0.0 ** y] is 0 for positive [y] and 1 for [y = 0].  A negative
    base with a fractional exponent has no real value (numpy gives nan). *)
Definition float_pow (x y : R) : R :=
  if Rlt_dec 0 x then Rpower x y
  else if Req_dec_T x 0 then (if Req_dec_T y 0 then 1 else 0)
  else 0.

Infix "**" := float_pow (at level 29, right associativity) : R_scope.

(** [np.cbrt]: the real cube root, odd in its argument. *)
Definition cbrt (x : R) : R :=
  if Rlt_dec 0 x then Rpower x (1 / 3)
  else if Rlt_dec x 0 then - Rpower (- x) (1 / 3)
  else 0.

(** [np.sign]. *)
Definition sign (x : R) : R :=
  if Rlt_dec 0 x then 1 else if Rlt_dec x 0 then -1 else 0.

Definition floor (x : R) : R := IZR (Int_part x).

(** [np.mod(x, m)]: the remainder has the sign of [m]. *)
Definition float_mod (x m : R) : R := x - m * floor (x / m).

(** [np.fmod(x, m)]: the remainder has the sign of [x]. *)
Definition float_fmod (x m : R) : R :=
  if Rle_dec 0 (x / m) then x - m * floor (x / m)
  else x + m * floor (- (x / m)).

(** [np.arctan2(y, x)]. *)
Definition arctan2 (y x : R) : R :=
  if Rlt_dec 0 x then atan (y / x)
  else if Rlt_dec x 0 then
    (if Rle_dec 0 y then atan (y / x) + PI else atan (y / x) - PI)
  else if Rlt_dec 0 y then PI / 2
  else if Rlt_dec y 0 then - (PI / 2)
  else 0.

Definition Reqb (x y : R) : bool := if Req_dec_T x y then true else false.
Definition Rleb (x y : R) : bool := if Rle_dec x y then true else false.

(** ** Mass parameterisation *)

Definition total_mass_and_mass_ratio_to_component_masses
    (mass_ratio total_mass : R) : R * R :=
  let mass_1 := total_mass / (1 + mass_ratio) in
  let mass_2 := mass_1 * mass_ratio in
  (mass_1, mass_2).

Definition chirp_mass_and_mass_ratio_to_total_mass
    (chirp_mass mass_ratio : R) : R :=
  chirp_mass * (1 + mass_ratio) ** 1.2 / mass_ratio ** 0.6.

Definition chirp_mass_and_mass_ratio_to_component_masses
    (chirp_mass mass_ratio : R) : R * R :=
  let total_mass :=
    chirp_mass_and_mass_ratio_to_total_mass chirp_mass mass_ratio in
  total_mass_and_mass_ratio_to_component_masses mass_ratio total_mass.

Definition symmetric_mass_ratio_to_mass_ratio (symmetric_mass_ratio : R) : R :=
  let temp := 1 / symmetric_mass_ratio / 2 - 1 in
  temp - (temp ^ 2 - 1) ** 0.5.

(** The same two lines in binary64, the arithmetic in which the program
    evaluates them.  numpy computes [** 2] as a product and [** 0.5] as a
    square root; between Python floats both are C's [pow], which returns
    the same number wherever the exact result is a binary64 number. *)
Definition symmetric_mass_ratio_to_mass_ratio_binary64
    (symmetric_mass_ratio : float) : float :=
  let temp := (1 / symmetric_mass_ratio / 2 - 1)%float in
  (temp - PrimFloat.sqrt (temp * temp - 1))%float.

Definition chirp_mass_and_total_mass_to_symmetric_mass_ratio
    (chirp_mass total_mass : R) : R :=
  (chirp_mass / total_mass) ** (5 / 3).

Definition chirp_mass_and_primary_mass_to_mass_ratio
    (chirp_mass mass_1 : R) : R :=
  let a := (chirp_mass / mass_1) ^ 5 in
  let t0 := cbrt (9 * a + sqrt 3 * sqrt (27 * a ^ 2 - 4 * a ^ 3)) in
  let t1 := cbrt 2 * 3 ** (2 / 3) in
  let t2 := cbrt (2 / 3) * a in
  t2 / t0 + t0 / t1.

Definition component_masses_to_chirp_mass (mass_1 mass_2 : R) : R :=
  (mass_1 * mass_2) ** 0.6 / (mass_1 + mass_2) ** 0.2.

Definition component_masses_to_total_mass (mass_1 mass_2 : R) : R :=
  mass_1 + mass_2.

Definition component_masses_to_symmetric_mass_ratio (mass_1 mass_2 : R) : R :=
  Rmin ((mass_1 * mass_2) / (mass_1 + mass_2) ^ 2) (1 / 4).

Definition component_masses_to_mass_ratio (mass_1 mass_2 : R) : R :=
  mass_2 / mass_1.

Definition mass_1_and_chirp_mass_to_mass_ratio (mass_1 chirp_mass : R) : R :=
  let temp := (chirp_mass / mass_1) ^ 5 in
  let mass_ratio :=
    (2 / 3 / (3 ** 0.5 * (27 * temp ^ 2 - 4 * temp ^ 3) ** 0.5 + 9 * temp))
      ** (1 / 3) * temp
    + ((3 ** 0.5 * (27 * temp ^ 2 - 4 * temp ^ 3) ** 0.5 + 9 * temp)
         / (2 * 3 ^ 2)) ** (1 / 3) in
  mass_ratio.

(** Passing [mass_2], the expression above returns [1/q], because the chirp
    mass is invariant under the exchange of the two masses. *)
Definition mass_2_and_chirp_mass_to_mass_ratio (mass_2 chirp_mass : R) : R :=
  1 / mass_1_and_chirp_mass_to_mass_ratio mass_2 chirp_mass.

(** ** Tidal parameterisation *)

Definition lambda_1_lambda_2_to_lambda_tilde
    (lambda_1 lambda_2 mass_1 mass_2 : R) : R :=
  let eta := component_masses_to_symmetric_mass_ratio mass_1 mass_2 in
  let lambda_plus := lambda_1 + lambda_2 in
  let lambda_minus := lambda_1 - lambda_2 in
  8 / 13 * ((1 + 7 * eta - 31 * eta ^ 2) * lambda_plus
            + (1 - 4 * eta) ** 0.5 * (1 + 9 * eta - 11 * eta ^ 2)
              * lambda_minus).

Definition lambda_1_lambda_2_to_delta_lambda_tilde
    (lambda_1 lambda_2 mass_1 mass_2 : R) : R :=
  let eta := component_masses_to_symmetric_mass_ratio mass_1 mass_2 in
  let lambda_plus := lambda_1 + lambda_2 in
  let lambda_minus := lambda_1 - lambda_2 in
  1 / 2 * ((1 - 4 * eta) ** 0.5
           * (1 - 13272 / 1319 * eta + 8944 / 1319 * eta ^ 2) * lambda_plus
           + (1 - 15910 / 1319 * eta + 32850 / 1319 * eta ^ 2
              + 3380 / 1319 * eta ^ 3) * lambda_minus).

Definition lambda_tilde_delta_lambda_tilde_to_lambda_1_lambda_2
    (lambda_tilde delta_lambda_tilde mass_1 mass_2 : R) : R * R :=
  let eta := component_masses_to_symmetric_mass_ratio mass_1 mass_2 in
  let coefficient_1 := 1 + 7 * eta - 31 * eta ^ 2 in
  let coefficient_2 := (1 - 4 * eta) ** 0.5 * (1 + 9 * eta - 11 * eta ^ 2) in
  let coefficient_3 :=
    (1 - 4 * eta) ** 0.5 * (1 - 13272 / 1319 * eta + 8944 / 1319 * eta ^ 2) in
  let coefficient_4 :=
    1 - 15910 / 1319 * eta + 32850 / 1319 * eta ^ 2 + 3380 / 1319 * eta ^ 3 in
  let lambda_1 :=
    (13 * lambda_tilde / 8 * (coefficient_3 - coefficient_4)
     - 2 * delta_lambda_tilde * (coefficient_1 - coefficient_2))
    / ((coefficient_1 + coefficient_2) * (coefficient_3 - coefficient_4)
       - (coefficient_1 - coefficient_2) * (coefficient_3 + coefficient_4)) in
  let lambda_2 :=
    (13 * lambda_tilde / 8 * (coefficient_3 + coefficient_4)
     - 2 * delta_lambda_tilde * (coefficient_1 + coefficient_2))
    / ((coefficient_1 - coefficient_2) * (coefficient_3 + coefficient_4)
       - (coefficient_1 + coefficient_2) * (coefficient_3 - coefficient_4)) in
  (lambda_1, lambda_2).

Definition lambda_tilde_to_lambda_1_lambda_2
    (lambda_tilde mass_1 mass_2 : R) : R * R :=
  let eta := component_masses_to_symmetric_mass_ratio mass_1 mass_2 in
  let q := mass_2 / mass_1 in
  let lambda_1 :=
    13 / 8 * lambda_tilde
    / ((1 + 7 * eta - 31 * eta ^ 2) * (1 + powerRZ q (-5))
       + (1 - 4 * eta) ** 0.5 * (1 + 9 * eta - 11 * eta ^ 2)
         * (1 - powerRZ q (-5))) in
  let lambda_2 := lambda_1 / q ^ 5 in
  (lambda_1, lambda_2).


(** ** Samples

    A sample maps parameter names to values, in insertion order.  A value
    is a scalar, or a column holding one scalar per row of a table. *)

Inductive scalar : Type :=
| Float (x : R)
| Complex (re im : R)
| Str (s : string)
| Bool (b : bool)
| NoneVal.

Inductive value : Type :=
| Scalar (s : scalar)
| Column (c : list scalar).

Definition dict : Type := list (string * value).

Fixpoint dict_get (d : dict) (k : string) : option value :=
  match d with
  | [] => None
  | (k', v) :: d' => if String.eqb k' k then Some v else dict_get d' k
  end.

Definition dict_mem (d : dict) (k : string) : bool :=
  match dict_get d k with Some _ => true | None => false end.

(** [d[k] = v]: an existing key keeps its position, a new key goes last. *)
Fixpoint dict_set (d : dict) (k : string) (v : value) : dict :=
  match d with
  | [] => [(k, v)]
  | (k', v') :: d' =>
      if String.eqb k' k then (k', v) :: d' else (k', v') :: dict_set d' k v
  end.

Definition dict_keys (d : dict) : list string := map fst d.

(** [d.update(other)]. *)
Definition dict_update (d other : dict) : dict :=
  fold_left (fun acc kv => dict_set acc (fst kv) (snd kv)) other d.

(** The container of a sample: a [dict], a [DataFrame] with its number of
    rows, or an object of any other type. *)
Inductive container : Type :=
| DictC
| FrameC (nrows : nat)
| OtherC.

Record object : Type := mkObject { shape : container; items : dict }.

(** What [sample[key] = v] stores: a [DataFrame] broadcasts a scalar over
    its rows and refuses a column of another length. *)
Definition stored (c : container) (v : value) : option value :=
  match c, v with
  | DictC, _ => Some v
  | FrameC n, Scalar s => Some (Column (repeat s n))
  | FrameC n, Column col =>
      if Nat.eqb (List.length col) n then Some v else None
  | OtherC, _ => None
  end.

(** [len(sample)]. *)
Definition object_len (o : object) : nat :=
  match shape o with
  | FrameC n => n
  | _ => List.length (items o)
  end.

(** Row [i] of a table, as [dict(row)] of [DataFrame.iterrows()] gives it. *)
Definition row_of (o : object) (i : nat) : dict :=
  map (fun kv =>
         (fst kv,
          match snd kv with
          | Column c => Scalar (nth i c NoneVal)
          | Scalar s => Scalar s
          end)) (items o).

Definition scalar_eqb (a b : scalar) : bool :=
  match a, b with
  | Float x, Float y => Reqb x y
  | Complex x1 y1, Complex x2 y2 => Reqb x1 x2 && Reqb y1 y2
  | Str s, Str t => String.eqb s t
  | Bool p, Bool q => Bool.eqb p q
  | NoneVal, NoneVal => true
  | _, _ => false
  end.

Fixpoint list_eqb {A : Type} (eqb : A -> A -> bool) (l1 l2 : list A) : bool :=
  match l1, l2 with
  | [], [] => true
  | a :: l1', b :: l2' => eqb a b && list_eqb eqb l1' l2'
  | _, _ => false
  end.

Definition value_eqb (v w : value) : bool :=
  match v, w with
  | Scalar a, Scalar b => scalar_eqb a b
  | Column c, Column d => list_eqb scalar_eqb c d
  | _, _ => false
  end.

Definition container_eqb (c d : container) : bool :=
  match c, d with
  | DictC, DictC => true
  | FrameC n, FrameC m => Nat.eqb n m
  | OtherC, OtherC => true
  | _, _ => false
  end.

(** [DataFrame.equals]: same shape, same labels in the same order, same
    cells. *)
Definition object_equals (o1 o2 : object) : bool :=
  container_eqb (shape o1) (shape o2)
  && list_eqb (fun kv1 kv2 =>
                 String.eqb (fst kv1) (fst kv2)
                 && value_eqb (snd kv1) (snd kv2))
       (items o1) (items o2).

(** ** Exceptions *)

Inductive exn_class : Type :=
| KeyError
| ValueError
| TypeError
| AttributeError
| IndexError
| ZeroDivisionError
| FloatingPointError
| EOFError
| MarginalizedLikelihoodReconstructionError
| DanglingReference   (* a reference outside the store: never a Python error *)
| Diverges.           (* the loop of the source does not terminate *)

Definition exn_class_eqb (a b : exn_class) : bool :=
  match a, b with
  | KeyError, KeyError | ValueError, ValueError | TypeError, TypeError
  | AttributeError, AttributeError | IndexError, IndexError
  | ZeroDivisionError, ZeroDivisionError
  | FloatingPointError, FloatingPointError | EOFError, EOFError
  | MarginalizedLikelihoodReconstructionError,
    MarginalizedLikelihoodReconstructionError
  | DanglingReference, DanglingReference | Diverges, Diverges => true
  | _, _ => false
  end.

Inductive exn : Type := Exn (c : exn_class) (msg : string).

Definition exn_kind (e : exn) : exn_class := let 'Exn c _ := e in c.

Inductive result (A : Type) : Type :=
| Ok (a : A)
| Err (e : exn).

Arguments Ok {A} a.
Arguments Err {A} e.

(** ** Value arithmetic: numpy broadcasting of a real function *)

Definition float_of (s : scalar) : option R :=
  match s with Float x => Some x | _ => None end.

Fixpoint floats_of (c : list scalar) : option (list R) :=
  match c with
  | [] => Some []
  | s :: c' =>
      match float_of s, floats_of c' with
      | Some x, Some xs => Some (x :: xs)
      | _, _ => None
      end
  end.

Definition of_floats (xs : list R) : value := Column (map Float xs).

Fixpoint map2 {A B C : Type} (f : A -> B -> C) (l1 : list A) (l2 : list B)
  : list C :=
  match l1, l2 with
  | a :: l1', b :: l2' => f a b :: map2 f l1' l2'
  | _, _ => []
  end.

Definition type_error {A : Type} : result A :=
  Err (Exn TypeError "unsupported operand type").

Definition lift1 (f : R -> R) (v : value) : result value :=
  match v with
  | Scalar s =>
      match float_of s with
      | Some x => Ok (Scalar (Float (f x)))
      | None => type_error
      end
  | Column c =>
      match floats_of c with
      | Some xs => Ok (of_floats (map f xs))
      | None => type_error
      end
  end.

Definition lift2 (f : R -> R -> R) (v w : value) : result value :=
  match v, w with
  | Scalar a, Scalar b =>
      match float_of a, float_of b with
      | Some x, Some y => Ok (Scalar (Float (f x y)))
      | _, _ => type_error
      end
  | Scalar a, Column d =>
      match float_of a, floats_of d with
      | Some x, Some ys => Ok (of_floats (map (f x) ys))
      | _, _ => type_error
      end
  | Column c, Scalar b =>
      match floats_of c, float_of b with
      | Some xs, Some y => Ok (of_floats (map (fun x => f x y) xs))
      | _, _ => type_error
      end
  | Column c, Column d =>
      match floats_of c, floats_of d with
      | Some xs, Some ys =>
          if Nat.eqb (List.length xs) (List.length ys)
          then Ok (of_floats (map2 f xs ys))
          else Err (Exn ValueError "operands could not be broadcast together")
      | _, _ => type_error
      end
  end.

(** Is some divisor zero (and, with [only_invalid], its dividend too)? *)
Definition zero_division (only_invalid : bool) (v w : value) : bool :=
  let bad x y := Reqb y 0 && (negb only_invalid || Reqb x 0) in
  match v, w with
  | Scalar (Float x), Scalar (Float y) => bad x y
  | Scalar (Float x), Column d =>
      match floats_of d with Some ys => existsb (bad x) ys | None => false end
  | Column c, Scalar (Float y) =>
      match floats_of c with
      | Some xs => existsb (fun x => bad x y) xs
      | None => false
      end
  | Column c, Column d =>
      match floats_of c, floats_of d with
      | Some xs, Some ys => existsb (fun b => b) (map2 bad xs ys)
      | _, _ => false
      end
  | _, _ => false
  end.

(** [v / w].  Between Python floats a zero divisor raises
    [ZeroDivisionError].  Between columns numpy divides element-wise; under
    [np.errstate(invalid="raise")] a [0/0] entry raises
    [FloatingPointError]. *)
Definition value_div (invalid_raise : bool) (v w : value) : result value :=
  match v, w with
  | Scalar _, Scalar _ =>
      if zero_division false v w
      then Err (Exn ZeroDivisionError "float division by zero")
      else lift2 Rdiv v w
  | _, _ =>
      if invalid_raise && zero_division true v w
      then Err (Exn FloatingPointError "invalid value encountered in divide")
      else lift2 Rdiv v w
  end.

(** ** Collaborators *)

(** What [likelihood.calculate_snrs] returns for one interferometer; a
    complex number is its real and imaginary part. *)
Record snr_record : Type := mkSnr {
  complex_matched_filter_snr : R * R;
  optimal_snr_squared : R * R
}.

Inductive prior : Type :=
| DeltaFunction (peak : value)
| OtherPrior (name : string).

(** The likelihood.  Its mutable [parameters] are part of the world below;
    a method is a function of the parameters it finds there.  A method that
    updates the parameters returns the new ones as well. *)
Record Likelihood : Type := mkLikelihood {
  strain : Type;
  (* names of [likelihood.interferometers] *)
  interferometers : list string;
  (* [likelihood._marginalized_parameters], when the attribute exists *)
  marginalized_parameters : option (list string);
  (* [likelihood.outdir] and [likelihood.label], when they exist *)
  outdir_label : option (string * string);
  (* [likelihood.waveform_generator.waveform_arguments] *)
  waveform_arguments : option dict;
  frequency_domain_strain : dict -> strain;
  calculate_snrs : dict -> strain -> string -> snr_record;
  (* [callable(likelihood.compute_per_detector_log_likelihood)] *)
  per_detector_callable : bool;
  (* returned mapping, parameters afterwards *)
  compute_per_detector_log_likelihood : dict -> dict * dict;
  generate_posterior_sample_from_marginalized_likelihood :
    dict -> result dict * dict;
  get_sky_frame_parameters : dict -> dict;
  reference_frame : option string;
  time_reference : option string;
  (* [getattr(likelihood, name + "_marginalization", False)] *)
  marginalization_flag : string -> bool;
  likelihood_priors : list (string * prior)
}.

(** The reconstruction cache: the source table under ["_samples"] and the
    reconstructed rows of each block under the index of its first row, in
    insertion order. *)
Record cache : Type := mkCache {
  cached_samples : object;
  cached_blocks : list (nat * list (list value))
}.

Inductive file : Type :=
| EmptyFile
| Pickled (c : cache).

(** Calls that leave the module, in the order they happen. *)
Inductive event : Type :=
| FrameTransform (args : list R)
| SnrCall (row : option nat)
| PerDetectorCall (row : option nat)
| PosteriorDraw (row : nat)
| FileDump (name : string).

(** ** The world: the object store and what else the module mutates *)

Definition ref : Type := nat.
Bind Scope nat_scope with ref.

Record world : Type := mkWorld {
  heap : list object;
  lik_parameters : dict;      (* [likelihood.parameters] *)
  convenience_likelihood : option Likelihood;
                              (* [_sampling_convenience_dump.likelihood] *)
  files : list (string * file);
  clean : bool;               (* [command_line_args.clean] *)
  prior_writes : list (string * prior);
                              (* assignments made to the caller's priors *)
  trace : list event
}.

Definition set_heap (h : list object) (w : world) : world :=
  mkWorld h (lik_parameters w) (convenience_likelihood w) (files w) (clean w)
    (prior_writes w) (trace w).

Definition set_lik_parameters (d : dict) (w : world) : world :=
  mkWorld (heap w) d (convenience_likelihood w) (files w) (clean w)
    (prior_writes w) (trace w).

Definition set_convenience_likelihood (l : option Likelihood) (w : world)
  : world :=
  mkWorld (heap w) (lik_parameters w) l (files w) (clean w) (prior_writes w)
    (trace w).

Definition set_files (f : list (string * file)) (w : world) : world :=
  mkWorld (heap w) (lik_parameters w) (convenience_likelihood w) f (clean w)
    (prior_writes w) (trace w).

Definition set_prior_writes (p : list (string * prior)) (w : world) : world :=
  mkWorld (heap w) (lik_parameters w) (convenience_likelihood w) (files w)
    (clean w) p (trace w).

Definition set_trace (t : list event) (w : world) : world :=
  mkWorld (heap w) (lik_parameters w) (convenience_likelihood w) (files w)
    (clean w) (prior_writes w) t.

(** ** The monad of the module: state, and exceptions that keep it *)

Definition M (A : Type) : Type := world -> result A * world.

Definition ret {A : Type} (a : A) : M A := fun w => (Ok a, w).

Definition bind {A B : Type} (m : M A) (f : A -> M B) : M B :=
  fun w =>
    match m w with
    | (Ok a, w') => f a w'
    | (Err e, w') => (Err e, w')
    end.

Definition raise {A : Type} (e : exn) : M A := fun w => (Err e, w).

Definition lift {A : Type} (r : result A) : M A := fun w => (r, w).

(** [try: m  except classes: handler]. *)
Definition try_except {A : Type} (m : M A) (classes : list exn_class)
    (handler : exn -> M A) : M A :=
  fun w =>
    match m w with
    | (Ok a, w') => (Ok a, w')
    | (Err e, w') =>
        if existsb (exn_class_eqb (exn_kind e)) classes
        then handler e w'
        else (Err e, w')
    end.

Declare Scope monad_scope.
Delimit Scope monad_scope with monad.
Bind Scope monad_scope with M.

Notation "x <- m ;; k" := (bind m (fun x => k))
  (at level 61, m at next level, right associativity) : monad_scope.
Notation "m ;; k" := (bind m (fun _ => k))
  (at level 61, right associativity) : monad_scope.
Notation "' pat <- m ;; k" := (bind m (fun x => match x with pat => k end))
  (at level 61, pat pattern, m at next level, right associativity)
  : monad_scope.

Open Scope monad_scope.
Open Scope string_scope.

(** [for x in xs: body x], stopping at the first exception. *)
Fixpoint for_each {A : Type} (xs : list A) (body : A -> M unit) : M unit :=
  match xs with
  | [] => ret tt
  | x :: xs' => body x ;; for_each xs' body
  end.

Fixpoint map_m {A B : Type} (f : A -> M B) (xs : list A) : M (list B) :=
  match xs with
  | [] => ret []
  | x :: xs' => y <- f x ;; ys <- map_m f xs' ;; ret (y :: ys)
  end.

(** *** Objects in the store *)

Definition obj_at (w : world) (r : ref) : option object :=
  nth_error (heap w) r.

Fixpoint list_update {A : Type} (l : list A) (i : nat) (a : A) : list A :=
  match l, i with
  | [], _ => []
  | _ :: l', O => a :: l'
  | x :: l', S i' => x :: list_update l' i' a
  end.

Definition alloc (o : object) : M ref :=
  fun w => (Ok (List.length (heap w)), set_heap (heap w ++ [o]) w).

Definition deref (r : ref) : M object :=
  fun w =>
    match obj_at w r with
    | Some o => (Ok o, w)
    | None => (Err (Exn DanglingReference EmptyString), w)
    end.

Definition store (r : ref) (o : object) : M unit :=
  fun w => (Ok tt, set_heap (list_update (heap w) r o) w).

(** [sample.copy()]. *)
Definition copy (r : ref) : M ref := o <- deref r ;; alloc o.

Definition no_items {A : Type} : M A :=
  raise (Exn TypeError "object is not a mapping").

(** [key in sample.keys()], [key in sample]. *)
Definition contains (r : ref) (k : string) : M bool :=
  o <- deref r ;;
  match shape o with
  | OtherC => no_items
  | _ => ret (dict_mem (items o) k)
  end.

(** [list(sample.keys())]. *)
Definition keys (r : ref) : M (list string) :=
  o <- deref r ;;
  match shape o with
  | OtherC => no_items
  | _ => ret (dict_keys (items o))
  end.

(** [sample[key]]. *)
Definition getitem (r : ref) (k : string) : M value :=
  o <- deref r ;;
  match shape o with
  | OtherC => no_items
  | _ =>
      match dict_get (items o) k with
      | Some v => ret v
      | None => raise (Exn KeyError k)
      end
  end.

(** [sample[key] = v]. *)
Definition setitem (r : ref) (k : string) (v : value) : M unit :=
  o <- deref r ;;
  match shape o with
  | OtherC => no_items
  | c =>
      match stored c v with
      | Some v' => store r (mkObject c (dict_set (items o) k v'))
      | None =>
          raise (Exn ValueError "Length of values does not match length of index")
      end
  end.

(** [sample.update(other)] for a mapping ([dict]). *)
Definition update_items (r : ref) (other : dict) : M unit :=
  for_each other (fun kv => setitem r (fst kv) (snd kv)).

Definition log_event (e : event) : M unit :=
  fun w => (Ok tt, set_trace (trace w ++ [e]) w).

(** Arithmetic on stored values. *)
Definition vlift1 (f : R -> R) (v : value) : M value := lift (lift1 f v).
Definition vlift2 (f : R -> R -> R) (v w : value) : M value :=
  lift (lift2 f v w).
Definition vadd := vlift2 Rplus.
Definition vsub := vlift2 Rminus.
Definition vmul := vlift2 Rmult.
Definition vdiv (v w : value) : M value := lift (value_div false v w).
Definition vfloat (x : R) : value := Scalar (Float x).

(** ** Completion of the component masses *)

Definition check_and_return_quietly (require_add : bool) (sample : ref)
  : M ref :=
  if require_add
  then raise (Exn KeyError "Insufficient mass parameters in input dictionary")
  else ret sample.

Definition generate_component_masses
    (sample : ref) (require_add source : bool) : M ref :=
  output_sample <- copy sample ;;
  let mass_1_key := if source then "mass_1_source" else "mass_1" in
  let mass_2_key := if source then "mass_2_source" else "mass_2" in
  let total_mass_key := if source then "total_mass_source" else "total_mass" in
  let chirp_mass_key := if source then "chirp_mass_source" else "chirp_mass" in
  (* output_sample["mass_ratio"] = symmetric_mass_ratio_to_mass_ratio(...) *)
  let ratio_from_symmetric (from : ref) : M unit :=
    eta <- getitem from "symmetric_mass_ratio" ;;
    q <- vlift1 symmetric_mass_ratio_to_mass_ratio eta ;;
    setitem output_sample "mass_ratio" q in
  has_mass_1 <- contains sample mass_1_key ;;
  if has_mass_1 then
    has_mass_2 <- contains sample mass_2_key ;;
    if has_mass_2 then ret output_sample else
    let finish : M ref :=
      q <- getitem output_sample "mass_ratio" ;;
      m1 <- getitem output_sample mass_1_key ;;
      m2 <- vmul q m1 ;;
      setitem output_sample mass_2_key m2 ;;
      ret output_sample in
    has_total <- contains sample total_mass_key ;;
    if has_total then
      total <- getitem output_sample total_mass_key ;;
      m1 <- getitem output_sample mass_1_key ;;
      m2 <- vsub total m1 ;;
      setitem output_sample mass_2_key m2 ;;
      ret output_sample
    else
    has_ratio <- contains sample "mass_ratio" ;;
    if has_ratio then finish else
    has_symmetric <- contains sample "symmetric_mass_ratio" ;;
    if has_symmetric then
      ratio_from_symmetric output_sample ;; finish
    else
    has_chirp <- contains sample chirp_mass_key ;;
    if has_chirp then
      m1 <- getitem output_sample mass_1_key ;;
      mc <- getitem output_sample chirp_mass_key ;;
      q <- vlift2 mass_1_and_chirp_mass_to_mass_ratio m1 mc ;;
      setitem output_sample "mass_ratio" q ;;
      finish
    else check_and_return_quietly require_add sample
  else
  has_mass_2 <- contains sample mass_2_key ;;
  if has_mass_2 then
    (* mass_1 is not in the dict *)
    let finish : M ref :=
      q <- getitem output_sample "mass_ratio" ;;
      inverse <- vdiv (vfloat 1) q ;;
      m2 <- getitem output_sample mass_2_key ;;
      m1 <- vmul inverse m2 ;;
      setitem output_sample mass_1_key m1 ;;
      ret output_sample in
    has_total <- contains sample total_mass_key ;;
    if has_total then
      total <- getitem output_sample total_mass_key ;;
      m2 <- getitem output_sample mass_2_key ;;
      m1 <- vsub total m2 ;;
      setitem output_sample mass_1_key m1 ;;
      ret output_sample
    else
    has_ratio <- contains sample "mass_ratio" ;;
    if has_ratio then finish else
    has_symmetric <- contains sample "symmetric_mass_ratio" ;;
    if has_symmetric then
      ratio_from_symmetric output_sample ;; finish
    else
    has_chirp <- contains sample chirp_mass_key ;;
    if has_chirp then
      m2 <- getitem output_sample mass_2_key ;;
      mc <- getitem output_sample chirp_mass_key ;;
      q <- vlift2 mass_2_and_chirp_mass_to_mass_ratio m2 mc ;;
      setitem output_sample "mass_ratio" q ;;
      finish
    else
      (* the value of the call is dropped: no [return] in the source *)
      check_and_return_quietly require_add sample ;;
      finish
  else
  (* Only if neither mass_1 or mass_2 is in the input sample *)
  let finish : M ref :=
    (* We haven't matched any of the criteria *)
    has_total <- contains output_sample total_mass_key ;;
    has_ratio <- contains output_sample "mass_ratio" ;;
    if negb has_total || negb has_ratio
    then check_and_return_quietly require_add sample
    else
      total <- getitem output_sample total_mass_key ;;
      q <- getitem output_sample "mass_ratio" ;;
      m1 <- vlift2 (fun q t =>
                      fst (total_mass_and_mass_ratio_to_component_masses q t))
              q total ;;
      m2 <- vlift2 (fun q t =>
                      snd (total_mass_and_mass_ratio_to_component_masses q t))
              q total ;;
      setitem output_sample mass_1_key m1 ;;
      setitem output_sample mass_2_key m2 ;;
      ret output_sample in
  has_total <- contains sample total_mass_key ;;
  if has_total then
    has_ratio <- contains sample "mass_ratio" ;;
    if has_ratio then finish (* We have everything we need already *) else
    has_symmetric <- contains sample "symmetric_mass_ratio" ;;
    if has_symmetric then
      ratio_from_symmetric output_sample ;; finish
    else
    has_chirp <- contains sample chirp_mass_key ;;
    if has_chirp then
      mc <- getitem output_sample chirp_mass_key ;;
      total <- getitem output_sample total_mass_key ;;
      eta <- vlift2 chirp_mass_and_total_mass_to_symmetric_mass_ratio
               mc total ;;
      setitem output_sample "symmetric_mass_ratio" eta ;;
      ratio_from_symmetric output_sample ;;
      finish
    else check_and_return_quietly require_add sample
  else
  has_chirp <- contains sample chirp_mass_key ;;
  if has_chirp then
    let with_ratio : M ref :=
      mc <- getitem output_sample chirp_mass_key ;;
      q <- getitem output_sample "mass_ratio" ;;
      total <- vlift2 chirp_mass_and_mass_ratio_to_total_mass mc q ;;
      setitem output_sample total_mass_key total ;;
      finish in
    has_ratio <- contains sample "mass_ratio" ;;
    if has_ratio then with_ratio else
    has_symmetric <- contains sample "symmetric_mass_ratio" ;;
    if has_symmetric then
      ratio_from_symmetric sample ;; with_ratio
    else check_and_return_quietly require_add sample
  else finish.

(** ** Strings of the key conventions *)

(** [key[-7:]] and [key[:-7]]. *)
Definition last_chars (n : nat) (key : string) : string :=
  substring (String.length key - n) n key.

Definition drop_last_chars (n : nat) (key : string) : string :=
  substring 0 (String.length key - n) key.

(** [sub in key] for strings. *)
Definition is_substring (sub key : string) : bool :=
  match index 0 sub key with Some _ => true | None => false end.

Definition key_in (k : string) (ks : list string) : bool :=
  existsb (String.eqb k) ks.

Fixpoint insert_sorted (k : string) (ks : list string) : list string :=
  match ks with
  | [] => [k]
  | k' :: ks' =>
      if String.leb k k' then k :: ks else k' :: insert_sorted k ks'
  end.

(** [sorted(keys)]. *)
Definition sorted (ks : list string) : list string :=
  fold_right insert_sorted [] ks.

(** ** numpy broadcasting of a scalar function over several arguments *)

Definition column_length (v : value) : option nat :=
  match v with Column c => Some (List.length c) | Scalar _ => None end.

(** The common number of rows of the arguments; [None] when every argument
    is a scalar. *)
Fixpoint broadcast_length (vs : list value) : result (option nat) :=
  match vs with
  | [] => Ok None
  | v :: vs' =>
      match broadcast_length vs' with
      | Err e => Err e
      | Ok n' =>
          match column_length v, n' with
          | None, _ => Ok n'
          | Some n, None => Ok (Some n)
          | Some n, Some m =>
              if Nat.eqb n m then Ok (Some n)
              else Err (Exn ValueError
                          "operands could not be broadcast together")
          end
      end
  end.

Definition entry (i : nat) (v : value) : option R :=
  match v with
  | Scalar s => float_of s
  | Column c =>
      match nth_error c i with Some s => float_of s | None => None end
  end.

Fixpoint all_some {A : Type} (l : list (option A)) : option (list A) :=
  match l with
  | [] => Some []
  | Some a :: l' =>
      match all_some l' with Some as' => Some (a :: as') | None => None end
  | None :: _ => None
  end.

Definition argument_row (vs : list value) (i : nat) : result (list R) :=
  match all_some (map (entry i) vs) with
  | Some xs => Ok xs
  | None => type_error
  end.

(** A function of several reals, broadcast over scalars and columns. *)
Definition liftn (f : list R -> R) (vs : list value) : result value :=
  match broadcast_length vs with
  | Err e => Err e
  | Ok None =>
      match argument_row vs 0 with
      | Ok xs => Ok (Scalar (Float (f xs)))
      | Err e => Err e
      end
  | Ok (Some n) =>
      match all_some (map (fun i => all_some (map (entry i) vs)) (seq 0 n))
      with
      | Some rows => Ok (of_floats (map f rows))
      | None => type_error
      end
  end.

Definition vlift3 (f : R -> R -> R -> R) (a b c : value) : M value :=
  lift (liftn (fun xs => f (nth 0 xs 0) (nth 1 xs 0) (nth 2 xs 0)) [a; b; c]).

Definition vlift4 (f : R -> R -> R -> R -> R) (a b c d : value) : M value :=
  lift (liftn (fun xs => f (nth 0 xs 0) (nth 1 xs 0) (nth 2 xs 0)
                           (nth 3 xs 0)) [a; b; c; d]).

(** [np.vectorize(f)] applied to [vs], for [f] with [outputs] results.  Without
    [otypes], numpy first calls [f] on the first element to learn the
    output types, then on every element; it refuses inputs of size 0. *)
Definition np_vectorize (outputs : nat) (f : list R -> M (list R))
    (vs : list value) : M (list value) :=
  n <- lift (broadcast_length vs) ;;
  match n with
  | None =>
      row <- lift (argument_row vs 0) ;;
      f row ;;
      ys <- f row ;;
      ret (map (fun j => vfloat (nth j ys 0)) (seq 0 outputs))
  | Some O =>
      raise (Exn ValueError
               "cannot call `vectorize` on size 0 inputs unless `otypes` is set")
  | Some n =>
      first <- lift (argument_row vs 0) ;;
      f first ;;
      yss <- map_m (fun i => row <- lift (argument_row vs i) ;; f row)
               (seq 0 n) ;;
      ret (map (fun j => of_floats (map (fun ys => nth j ys 0) yss))
             (seq 0 outputs))
  end.

(** ** Small collaborators and worlds for the examples *)

(** A likelihood with a single interferometer that marginalises over the
    distance and draws [luminosity_distance = 100] for every row. *)
Definition example_likelihood : Likelihood :=
  mkLikelihood unit ["H1"] (Some ["luminosity_distance"])
    (Some ("outdir", "label")) None
    (fun _ => tt) (fun _ _ _ => mkSnr (3, 4) (25, 0)) true
    (fun parameters =>
       (dict_set parameters "H1_log_likelihood" (vfloat 1),
        dict_set parameters "H1_log_likelihood" (vfloat 1)))
    (fun parameters =>
       (Ok (dict_set parameters "luminosity_distance" (vfloat 100)),
        parameters))
    (fun _ => []) None None (fun _ => false) [].

(** The same likelihood without marginalised parameters. *)
Definition plain_likelihood : Likelihood :=
  mkLikelihood unit ["H1"] (Some []) (Some ("outdir", "label")) None
    (fun _ => tt) (fun _ _ _ => mkSnr (3, 4) (25, 0)) true
    (fun parameters => (parameters, parameters))
    (fun parameters => (Ok parameters, parameters))
    (fun _ => []) None None (fun _ => false) [].

Definition example_cache_file : string :=
  "outdir/.label_generate_posterior_cache.pickle".

(** A world whose store holds the given objects and nothing else. *)
Definition world_of (objects : list object) : world :=
  mkWorld objects [] None [] false [] [].

Definition point (d : dict) : object := mkObject DictC d.

(** A table of three rows with one column. *)
Definition example_table : object :=
  mkObject (FrameC 3) [("chirp_mass", Column [Float 1; Float 2; Float 3])].

(** Collaborators that compute: a frame transform, a cosmology in which the
    luminosity distance is [1000 z] and the comoving distance [1000 z], and
    an equation of state with one star. *)
Definition example_frame_transform
    (theta_jn phi_jl tilt_1 tilt_2 phi_12 a_1 a_2 mass_1 mass_2
     reference_frequency phase : R) : R * R * R * R * R * R * R :=
  (theta_jn, a_1, 0, 0, a_2, 0, 0).

(** An equation of state without content. *)
Definition no_star : list R -> unit := fun _ => tt.

Definition example_distance (redshift : R) : R := 1000 * redshift.
Definition example_redshift (distance : R) : R := distance / 1000.

(** A table that differs from [example_table] in its last cell, and a cache
    file that holds it with a block for the rows 0 and 1. *)
Definition stale_table : object :=
  mkObject (FrameC 3) [("chirp_mass", Column [Float 1; Float 2; Float 4])].

Definition stale_cache : cache :=
  mkCache stale_table [(0%nat, [[vfloat 7]; [vfloat 7]])].

Definition world_with_cache (c : cache) : world :=
  mkWorld [example_table] [] None [(example_cache_file, Pickled c)] false []
    [].

(** A cache of the current table, with the same block. *)
Definition current_cache : cache :=
  mkCache example_table [(0%nat, [[vfloat 7]; [vfloat 7]])].

(** ** What an operation may write

    A run starts from the store [h0].  The references in [protected] are
    the objects of [h0] that the run must leave as they are; every other
    object may be written, with keys in [allowed] only. *)

Section Protection.

Variable allowed : string -> bool.
Variable protected : ref -> Prop.
Variable h0 : list object.

Definition good (o : object) : Prop :=
  forall k, dict_mem (items o) k = true -> allowed k = true.

Definition inv (w : world) : Prop :=
  (List.length h0 <= List.length (heap w))%nat
  /\ (forall r, protected r -> obj_at w r = nth_error h0 r)
  /\ (forall r o, ~ protected r -> obj_at w r = Some o -> good o).

(** From a world that satisfies [inv] and [P], [m] ends in a world that
    satisfies [inv], whether it returns or raises, and [Q] when it
    returns. *)
Definition respects {A : Type} (P : world -> Prop) (m : M A)
    (Q : A -> world -> Prop) : Prop :=
  forall w, inv w -> P w ->
    match m w with
    | (Ok a, w') => inv w' /\ Q a w'
    | (Err _, w') => inv w'
    end.

Definition safe {A : Type} (m : M A) (Q : A -> Prop) : Prop :=
  respects (fun _ => True) m (fun a _ => Q a).

Definition writable (r : ref) : Prop := ~ protected r.

(** The object behind [r] has allowed keys only, wherever [r] points. *)
Definition readable (r : ref) : Prop :=
  forall o, protected r -> nth_error h0 r = Some o -> good o.

(** The detector-frame name of a source-frame key may be written. *)
Definition source_key_ok (k : string) : Prop :=
  last_chars 7 k = "_source" -> allowed (drop_last_chars 7 k) = true.

(** Every key of the object behind [c] that ends in ["_source"] has a
    detector-frame name that may be written. *)
Definition source_keys_ok (c : ref) (w : world) : Prop :=
  forall o, obj_at w c = Some o ->
            Forall source_key_ok (dict_keys (items o)).

End Protection.

(** The keys that the completion of the masses may write. *)
Definition mass_keys (source : bool) : list string :=
  if source
  then ["mass_1_source"; "mass_2_source"; "total_mass_source"; "mass_ratio";
        "symmetric_mass_ratio"]
  else ["mass_1"; "mass_2"; "total_mass"; "mass_ratio";
        "symmetric_mass_ratio"].

(** The literal keys that the black-hole base conversion may write, besides
    a key of the input stripped of its ["_source"]. *)
Definition bbh_keys : list string :=
  ["luminosity_distance"; "redshift"; "a_1"; "a_2"; "cos_tilt_1";
   "cos_tilt_2"; "phi_jl"; "phi_12"; "tilt_1"; "tilt_2"; "theta_jn"; "phase";
   "mass_1"; "mass_2"; "total_mass"; "mass_ratio"; "symmetric_mass_ratio"].

(** A key that carries no tidal information. *)
Definition non_tidal (k : string) : bool :=
  negb (key_in k
          ["lambda_1"; "lambda_2"; "lambda_tilde"; "delta_lambda_tilde";
           "eos_spectral_gamma_0"]).

(** The rows for which the likelihood was asked for a posterior draw, in
    the order of the calls. *)
Definition posterior_draws (t : list event) : list nat :=
  flat_map (fun e => match e with PosteriorDraw ii => [ii] | _ => [] end) t.

(** [m] never ends as a loop that does not terminate. *)
Definition terminates {A : Type} (m : M A) : Prop :=
  forall w, match fst (m w) with
            | Err e => exn_kind e <> Diverges
            | Ok _ => True
            end.

(** An operation on a sample leaves the object it is given as it was. *)
Definition leaves_input_unchanged {A : Type} (op : ref -> M A) : Prop :=
  forall (w : world) (sample : ref) (o : object),
    obj_at w sample = Some o ->
    obj_at (snd (op sample w)) sample = Some o.

(** An operation on a sample leaves every other object as it was. *)
Definition writes_only_its_argument {A : Type} (op : ref -> M A) : Prop :=
  forall (w : world) (sample other : ref) (o : object),
    other <> sample ->
    obj_at w other = Some o ->
    obj_at (snd (op sample w)) other = Some o.

(** ** The closed form of the mass-ratio solvers

    Both solvers of [(chirp_mass / mass_1)^5 = q^3 / (1 + q)] evaluate
    Cardano's formula at [a = (chirp_mass / mass_1)^5]; this is the formula,
    with the real roots that the solvers take inside their domain. *)
Definition cardano_root (a : R) : R :=
  Rpower (2 / 3 / (sqrt 3 * sqrt (27 * a ^ 2 - 4 * a ^ 3) + 9 * a)) (1 / 3) * a
  + Rpower ((sqrt 3 * sqrt (27 * a ^ 2 - 4 * a ^ 3) + 9 * a) / (2 * 3 ^ 2))
      (1 / 3).

(** ** The pipeline *)

Section Pipeline.

(** *** External routines *)

(** [lalsim_SimInspiralTransformPrecessingNewInitialConditions]. *)
Variable lalsim_SimInspiralTransformPrecessingNewInitialConditions :
  R -> R -> R -> R -> R -> R -> R -> R -> R -> R -> R ->
  R * R * R * R * R * R * R.

(** [bilby.core.utils.solar_mass]. *)
Variable solar_mass : R.

(** The default cosmology: its distances as functions of the redshift,
    and [z_at_value] of each. *)
Variable cosmology_luminosity_distance : R -> R.
Variable cosmology_comoving_distance : R -> R.
Variable z_at_luminosity_distance : R -> R.
Variable z_at_comoving_distance : R -> R.

(** The equation of state: [SpectralDecompositionEOS], the mass that
    [IntegrateTOV] finds at the [i]-th central energy density, and
    [EOSFamily]. *)
Variable eos : Type.
Variable SpectralDecompositionEOS : list R -> eos.
Variable warning_flag : eos -> bool.
Variable integrate_TOV_mass : eos -> nat -> R.
Variable maximum_mass : eos -> R.
Variable lambda_from_mass : eos -> R -> R.

(** *** Cosmology *)

Definition redshift_to_luminosity_distance (redshift : R) : R :=
  cosmology_luminosity_distance redshift.

Definition redshift_to_comoving_distance (redshift : R) : R :=
  cosmology_comoving_distance redshift.

Definition luminosity_distance_to_redshift (distance : R) : R :=
  z_at_luminosity_distance distance.

Definition comoving_distance_to_redshift (distance : R) : R :=
  z_at_comoving_distance distance.

Definition comoving_distance_to_luminosity_distance (distance : R) : R :=
  let redshift := comoving_distance_to_redshift distance in
  redshift_to_luminosity_distance redshift.

Definition luminosity_distance_to_comoving_distance (distance : R) : R :=
  let redshift := luminosity_distance_to_redshift distance in
  redshift_to_comoving_distance redshift.

(** *** Spins *)

Definition spins : Type := (R * R * R * R * R * R * R)%type.

Definition call_frame_transform
    (theta_jn phi_jl tilt_1 tilt_2 phi_12 a_1 a_2 mass_1 mass_2
     reference_frequency phase : R) : M spins :=
  log_event (FrameTransform
               [theta_jn; phi_jl; tilt_1; tilt_2; phi_12; a_1; a_2;
                mass_1; mass_2; reference_frequency; phase]) ;;
  ret (lalsim_SimInspiralTransformPrecessingNewInitialConditions
         theta_jn phi_jl tilt_1 tilt_2 phi_12 a_1 a_2 mass_1 mass_2
         reference_frequency phase).

(** [tilt in [0, np.pi]]. *)
Definition tilt_is_aligned (tilt : R) : bool :=
  Reqb tilt 0 || Reqb tilt PI.

(** The call of [lalsim_SimInspiralTransformPrecessingNewInitialConditions]
    on one row of arguments, as [np.vectorize] makes it. *)
Definition frame_transform_row (args : list R) : M (list R) :=
  match args with
  | [theta_jn; phi_jl; tilt_1; tilt_2; phi_12; a_1; a_2; mass_1; mass_2;
     reference_frequency; phase] =>
      '(iota, s1x, s1y, s1z, s2x, s2y, s2z) <-
        call_frame_transform theta_jn phi_jl tilt_1 tilt_2 phi_12 a_1 a_2
          mass_1 mass_2 reference_frequency phase ;;
      ret [iota; s1x; s1y; s1z; s2x; s2y; s2z]
  | _ => raise (Exn TypeError "wrong number of arguments")
  end.

(** [transform_precessing_spins], under [@np.vectorize]: the wrapper has
    no [otypes], so numpy calls the routine once on the first elements to
    learn the seven output types, and then once for every element. *)
Definition transform_precessing_spins (args : list value)
  : M (list value) :=
  np_vectorize 7 frame_transform_row args.

(** The eleven arguments are numbers.  [float_inputs] is the test of the
    source, [all([isinstance(arg, Number) for arg in args])]: whether
    every argument is a [Number] (a Python float, a numpy scalar).  An
    argument that is not is an array that holds one number; it compares
    and multiplies as that number, and the results computed from it are
    arrays that hold one number.  With [float_inputs] the routine is
    called directly, without it through [transform_precessing_spins]. *)
Definition bilby_to_lalsimulation_spins (float_inputs : bool)
    (theta_jn phi_jl tilt_1 tilt_2 phi_12 a_1 a_2 mass_1 mass_2
     reference_frequency phase : R) : M spins :=
  if (Reqb a_1 0 || tilt_is_aligned tilt_1)
     && (Reqb a_2 0 || tilt_is_aligned tilt_2)
  then
    let spin_1x := 0 in
    let spin_1y := 0 in
    let spin_1z := a_1 * cos tilt_1 in
    let spin_2x := 0 in
    let spin_2y := 0 in
    let spin_2z := a_2 * cos tilt_2 in
    let iota := theta_jn in
    ret (iota, spin_1x, spin_1y, spin_1z, spin_2x, spin_2y, spin_2z)
  else
    let args :=
      [theta_jn; phi_jl; tilt_1; tilt_2; phi_12; a_1; a_2; mass_1; mass_2;
       reference_frequency; phase] in
    if float_inputs then
      call_frame_transform theta_jn phi_jl tilt_1 tilt_2 phi_12 a_1 a_2
        mass_1 mass_2 reference_frequency phase
    else
      out <- transform_precessing_spins (map vfloat args) ;;
      out <- lift (argument_row out 0) ;;
      match out with
      | [iota; spin_1x; spin_1y; spin_1z; spin_2x; spin_2y; spin_2z] =>
          ret (iota, spin_1x, spin_1y, spin_1z, spin_2x, spin_2y, spin_2z)
      | _ => raise (Exn ValueError "not enough values to unpack")
      end.

(** The function on one row of arguments, as [np.vectorize] calls it in
    [generate_component_spins]: with the elements of its arguments, which
    are numpy scalars (the first call) and Python floats, so that
    [float_inputs] holds. *)
Definition bilby_to_lalsimulation_spins_row (args : list R) : M (list R) :=
  match args with
  | [theta_jn; phi_jl; tilt_1; tilt_2; phi_12; a_1; a_2; mass_1; mass_2;
     reference_frequency; phase] =>
      '(iota, s1x, s1y, s1z, s2x, s2y, s2z) <-
        bilby_to_lalsimulation_spins true theta_jn phi_jl tilt_1 tilt_2
          phi_12 a_1 a_2 mass_1 mass_2 reference_frequency phase ;;
      ret [iota; s1x; s1y; s1z; s2x; s2y; s2z]
  | _ => raise (Exn TypeError "wrong number of arguments")
  end.

Definition spin_conversion_parameters : list string :=
  ["theta_jn"; "phi_jl"; "tilt_1"; "tilt_2"; "phi_12"; "a_1"; "a_2";
   "mass_1"; "mass_2"; "reference_frequency"; "phase"].

(** [all(key in sample.keys() for key in ks)]: stops at the first miss. *)
Fixpoint contains_all (r : ref) (ks : list string) : M bool :=
  match ks with
  | [] => ret true
  | k :: ks' =>
      b <- contains r k ;;
      if b then contains_all r ks' else ret false
  end.

Definition azimuth (y x : R) : R :=
  float_fmod (2 * PI + arctan2 y x) (2 * PI).

Definition generate_component_spins (sample : ref) : M ref :=
  output_sample <- copy sample ;;
  complete <- contains_all output_sample spin_conversion_parameters ;;
  if complete then
    theta_jn <- getitem output_sample "theta_jn" ;;
    phi_jl <- getitem output_sample "phi_jl" ;;
    tilt_1 <- getitem output_sample "tilt_1" ;;
    tilt_2 <- getitem output_sample "tilt_2" ;;
    phi_12 <- getitem output_sample "phi_12" ;;
    a_1 <- getitem output_sample "a_1" ;;
    a_2 <- getitem output_sample "a_2" ;;
    m1 <- getitem output_sample "mass_1" ;;
    mass_1 <- vmul m1 (vfloat solar_mass) ;;
    m2 <- getitem output_sample "mass_2" ;;
    mass_2 <- vmul m2 (vfloat solar_mass) ;;
    reference_frequency <- getitem output_sample "reference_frequency" ;;
    phase <- getitem output_sample "phase" ;;
    out <- np_vectorize 7 bilby_to_lalsimulation_spins_row
             [theta_jn; phi_jl; tilt_1; tilt_2; phi_12; a_1; a_2;
              mass_1; mass_2; reference_frequency; phase] ;;
    for_each (combine ["iota"; "spin_1x"; "spin_1y"; "spin_1z";
                       "spin_2x"; "spin_2y"; "spin_2z"] out)
      (fun kv => setitem output_sample (fst kv) (snd kv)) ;;
    s1y <- getitem output_sample "spin_1y" ;;
    s1x <- getitem output_sample "spin_1x" ;;
    phi_1 <- vlift2 azimuth s1y s1x ;;
    setitem output_sample "phi_1" phi_1 ;;
    s2y <- getitem output_sample "spin_2y" ;;
    s2x <- getitem output_sample "spin_2x" ;;
    phi_2 <- vlift2 azimuth s2y s2x ;;
    setitem output_sample "phi_2" phi_2 ;;
    ret output_sample
  else
    has_chi_1 <- contains output_sample "chi_1" ;;
    has_chi_2 <- (if has_chi_1 then contains output_sample "chi_2"
                  else ret false) ;;
    if has_chi_1 && has_chi_2 then
      setitem output_sample "spin_1x" (vfloat 0) ;;
      setitem output_sample "spin_1y" (vfloat 0) ;;
      chi_1 <- getitem output_sample "chi_1" ;;
      setitem output_sample "spin_1z" chi_1 ;;
      setitem output_sample "spin_2x" (vfloat 0) ;;
      setitem output_sample "spin_2y" (vfloat 0) ;;
      chi_2 <- getitem output_sample "chi_2" ;;
      setitem output_sample "spin_2z" chi_2 ;;
      ret output_sample
    else
      (* Component spin extraction failed. *)
      ret output_sample.

(** *** Base conversions *)

Definition as_float (v : value) : M R :=
  match v with
  | Scalar (Float x) => ret x
  | _ => raise (Exn TypeError "a float is required")
  end.

Definition convert_to_lal_binary_black_hole_parameters (parameters : ref)
  : M (ref * list string) :=
  converted_parameters <- copy parameters ;;
  original_keys <- keys converted_parameters ;;
  (if negb (key_in "luminosity_distance" original_keys) then
     has_redshift <- contains converted_parameters "redshift" ;;
     if has_redshift then
       z <- getitem parameters "redshift" ;;
       d <- vlift1 redshift_to_luminosity_distance z ;;
       setitem converted_parameters "luminosity_distance" d
     else
       has_comoving <- contains converted_parameters "comoving_distance" ;;
       if has_comoving then
         dc <- getitem parameters "comoving_distance" ;;
         d <- vlift1 comoving_distance_to_luminosity_distance dc ;;
         setitem converted_parameters "luminosity_distance" d
       else ret tt
   else ret tt) ;;
  for_each original_keys (fun key =>
    if String.eqb (last_chars 7 key) "_source" then
      has_redshift <- contains converted_parameters "redshift" ;;
      (if negb has_redshift then
         d <- getitem parameters "luminosity_distance" ;;
         z <- vlift1 luminosity_distance_to_redshift d ;;
         setitem converted_parameters "redshift" z
       else ret tt) ;;
      x <- getitem converted_parameters key ;;
      z <- getitem converted_parameters "redshift" ;;
      one_plus_z <- vadd (vfloat 1) z ;;
      y <- vmul x one_plus_z ;;
      setitem converted_parameters (drop_last_chars 7 key) y
    else ret tt) ;;
  (* we do not require the component masses be added if no mass
     parameters are present *)
  converted_parameters <-
    generate_component_masses converted_parameters false false ;;
  for_each ["1"; "2"] (fun idx =>
    let key := "chi_" ++ idx in
    let in_plane_key := "chi_" ++ idx ++ "_in_plane" in
    let a_key := "a_" ++ idx in
    let cos_tilt_key := "cos_tilt_" ++ idx in
    if key_in key original_keys then
      if key_in in_plane_key original_keys then
        chi <- getitem converted_parameters key ;;
        chi_sq <- vlift1 (fun x => x ^ 2) chi ;;
        chi_in_plane <- getitem converted_parameters in_plane_key ;;
        in_plane_sq <- vlift1 (fun x => x ^ 2) chi_in_plane ;;
        sum <- vadd chi_sq in_plane_sq ;;
        a <- vlift1 (fun x => x ** 0.5) sum ;;
        setitem converted_parameters a_key a ;;
        chi <- getitem converted_parameters key ;;
        a <- getitem converted_parameters a_key ;;
        cos_tilt <- vdiv chi a ;;
        setitem converted_parameters cos_tilt_key cos_tilt
      else if negb (key_in a_key original_keys) then
        chi <- getitem converted_parameters key ;;
        a <- vlift1 Rabs chi ;;
        setitem converted_parameters a_key a ;;
        chi <- getitem converted_parameters key ;;
        cos_tilt <- vlift1 sign chi ;;
        setitem converted_parameters cos_tilt_key cos_tilt
      else
        (* with np.errstate(invalid="raise") *)
        try_except
          (chi <- getitem converted_parameters key ;;
           a <- getitem converted_parameters a_key ;;
           cos_tilt <- lift (value_div true chi a) ;;
           setitem converted_parameters cos_tilt_key cos_tilt)
          [FloatingPointError; ZeroDivisionError]
          (fun _ => setitem converted_parameters cos_tilt_key (vfloat 1))
    else ret tt) ;;
  for_each ["phi_jl"; "phi_12"] (fun key =>
    present <- contains converted_parameters key ;;
    if negb present then setitem converted_parameters key (vfloat 0)
    else ret tt) ;;
  for_each ["tilt_1"; "tilt_2"; "theta_jn"] (fun angle =>
    let cos_angle := "cos_" ++ angle in
    present <- contains converted_parameters cos_angle ;;
    if present then
      c <- getitem converted_parameters cos_angle ;;
      a <- vlift1 acos c ;;
      setitem converted_parameters angle a
    else ret tt) ;;
  (if key_in "delta_phase" original_keys then
     delta_phase <- getitem converted_parameters "delta_phase" ;;
     theta_jn <- getitem converted_parameters "theta_jn" ;;
     sgn <- vlift1 (fun t => sign (cos t)) theta_jn ;;
     psi <- getitem converted_parameters "psi" ;;
     shift <- vmul sgn psi ;;
     diff <- vsub delta_phase shift ;;
     phase <- vlift1 (fun x => float_mod x (2 * PI)) diff ;;
     setitem converted_parameters "phase" phase
   else ret tt) ;;
  all_keys <- keys converted_parameters ;;
  let added_keys :=
    filter (fun key => negb (key_in key original_keys)) all_keys in
  ret (converted_parameters, added_keys).

(** The loop of the source integrates eight stars and breaks once the
    mass stops growing; the family is kept when all eight were done. *)
Fixpoint tov_masses_until_break (e : eos) (i : nat) (count : nat)
    (previous : option R) : nat :=
  match count with
  | O => i
  | S count' =>
      let m := integrate_TOV_mass e i in
      match previous with
      | Some m' =>
          if Rleb m m' then S i
          else tov_masses_until_break e (S i) count' (Some m)
      | None => tov_masses_until_break e (S i) count' (Some m)
      end
  end.

Definition eos_family_physical_check (e : eos) : bool :=
  let len_mdat := tov_masses_until_break e 0 8 None in
  if Nat.ltb len_mdat 8 then false else true.

Definition tidal_keys : list string :=
  ["lambda_1"; "lambda_2"; "lambda_tilde"; "delta_lambda_tilde";
   "eos_spectral_gamma_0"].

(** [any([key in sample for key in ks])]: the list is built in full. *)
Definition contains_any (r : ref) (ks : list string) : M bool :=
  bs <- map_m (contains r) ks ;;
  ret (existsb (fun b => b) bs).

Definition is_none (v : value) : bool :=
  match v with Scalar NoneVal => true | _ => false end.

Definition convert_to_lal_binary_neutron_star_parameters (parameters : ref)
  : M (ref * list string) :=
  converted_parameters <- copy parameters ;;
  original_keys <- keys converted_parameters ;;
  '(converted_parameters, added_keys) <-
    convert_to_lal_binary_black_hole_parameters converted_parameters ;;
  any_tidal <- contains_any converted_parameters tidal_keys ;;
  if negb any_tidal then
    setitem converted_parameters "lambda_1" (vfloat 0) ;;
    setitem converted_parameters "lambda_2" (vfloat 0) ;;
    let added_keys := (added_keys ++ ["lambda_1"; "lambda_2"])%list in
    ret (converted_parameters, added_keys)
  else
  let set_lambdas (l1 l2 : value) : M unit :=
    setitem converted_parameters "lambda_1" l1 ;;
    setitem converted_parameters "lambda_2" l2 in
  let no_tides_unphysical : M unit :=
    set_lambdas (vfloat 0) (vfloat 0) ;;
    setitem converted_parameters "eos_check" (Scalar (Bool false)) in
  (* lambda_2 = lambda_1 * mass_1**5 / mass_2**5 *)
  let lambda_2_from_lambda_1 : M unit :=
    l1 <- getitem converted_parameters "lambda_1" ;;
    m1 <- getitem converted_parameters "mass_1" ;;
    m1_5 <- vlift1 (fun x => x ^ 5) m1 ;;
    numerator <- vmul l1 m1_5 ;;
    m2 <- getitem converted_parameters "mass_2" ;;
    m2_5 <- vlift1 (fun x => x ^ 5) m2 ;;
    l2 <- vdiv numerator m2_5 ;;
    setitem converted_parameters "lambda_2" l2 in
  has_delta <- contains converted_parameters "delta_lambda_tilde" ;;
  (if has_delta then
     lt <- getitem converted_parameters "lambda_tilde" ;;
     dlt <- getitem parameters "delta_lambda_tilde" ;;
     m1 <- getitem converted_parameters "mass_1" ;;
     m2 <- getitem converted_parameters "mass_2" ;;
     l1 <- vlift4 (fun a b c d =>
                     fst (lambda_tilde_delta_lambda_tilde_to_lambda_1_lambda_2
                            a b c d)) lt dlt m1 m2 ;;
     l2 <- vlift4 (fun a b c d =>
                     snd (lambda_tilde_delta_lambda_tilde_to_lambda_1_lambda_2
                            a b c d)) lt dlt m1 m2 ;;
     set_lambdas l1 l2
   else
     has_tilde <- contains converted_parameters "lambda_tilde" ;;
     if has_tilde then
       lt <- getitem converted_parameters "lambda_tilde" ;;
       m1 <- getitem converted_parameters "mass_1" ;;
       m2 <- getitem converted_parameters "mass_2" ;;
       l1 <- vlift3 (fun a b c =>
                       fst (lambda_tilde_to_lambda_1_lambda_2 a b c))
               lt m1 m2 ;;
       l2 <- vlift3 (fun a b c =>
                       snd (lambda_tilde_to_lambda_1_lambda_2 a b c))
               lt m1 m2 ;;
       set_lambdas l1 l2
     else ret tt) ;;
  has_lambda_2 <- contains converted_parameters "lambda_2" ;;
  has_lambda_1 <- (if negb has_lambda_2
                   then contains converted_parameters "lambda_1"
                   else ret false) ;;
  (if negb has_lambda_2 && has_lambda_1 then lambda_2_from_lambda_1
   else
     has_lambda_2 <- contains converted_parameters "lambda_2" ;;
     lambda_2_is_none <-
       (if has_lambda_2
        then l2 <- getitem converted_parameters "lambda_2" ;;
             ret (is_none l2)
        else ret false) ;;
     if has_lambda_2 && lambda_2_is_none then lambda_2_from_lambda_1
     else
       has_gamma_0 <- contains converted_parameters "eos_spectral_gamma_0" ;;
       if has_gamma_0 then
         (* Pick out the eos parameters from dict of parameters and sort
            them *)
         let eos_parameter_keys :=
           sorted (filter (is_substring "eos_spectral_gamma_")
                     original_keys) in
         gammas <- map_m (fun key =>
                            g <- getitem converted_parameters key ;;
                            as_float g) eos_parameter_keys ;;
         let e := SpectralDecompositionEOS gammas in
         if warning_flag e then no_tides_unphysical
         else if eos_family_physical_check e then no_tides_unphysical
         else
           m1 <- getitem converted_parameters "mass_1" ;;
           m1 <- as_float m1 ;;
           below <- (if Rleb m1 (maximum_mass e)
                     then m2 <- getitem converted_parameters "mass_2" ;;
                          m2 <- as_float m2 ;;
                          ret (Rleb m2 (maximum_mass e))
                     else ret false) ;;
           if (below : bool) then
             m1 <- getitem converted_parameters "mass_1" ;;
             m1 <- as_float m1 ;;
             setitem converted_parameters "lambda_1"
               (vfloat (lambda_from_mass e m1)) ;;
             m2 <- getitem converted_parameters "mass_2" ;;
             m2 <- as_float m2 ;;
             setitem converted_parameters "lambda_2"
               (vfloat (lambda_from_mass e m2))
           else no_tides_unphysical
       else ret tt) ;;
  all_keys <- keys converted_parameters ;;
  let added_keys :=
    filter (fun key => negb (key_in key original_keys)) all_keys in
  ret (converted_parameters, added_keys).

(** *** Derived families *)

Definition fill_from_fixed_priors (sample : ref)
    (priors : option (list (string * prior))) : M ref :=
  output_sample <- copy sample ;;
  match priors with
  | Some priors =>
      for_each priors (fun np =>
        match snd np with
        | DeltaFunction peak => setitem output_sample (fst np) peak
        | OtherPrior _ => ret tt
        end)
  | None => ret tt
  end ;;
  ret output_sample.

Definition generate_mass_parameters (sample : ref) (source : bool) : M ref :=
  (* Only add the parameters if they're not already present *)
  intermediate_sample <- generate_component_masses sample false source ;;
  output_sample <- copy intermediate_sample ;;
  let mass_1_key := if source then "mass_1_source" else "mass_1" in
  let mass_2_key := if source then "mass_2_source" else "mass_2" in
  let total_mass_key :=
    if source then "total_mass_source" else "total_mass" in
  let chirp_mass_key :=
    if source then "chirp_mass_source" else "chirp_mass" in
  let add_if_missing (key : string) (f : R -> R -> R) : M unit :=
    present <- contains output_sample key ;;
    if negb present then
      m1 <- getitem output_sample mass_1_key ;;
      m2 <- getitem output_sample mass_2_key ;;
      v <- vlift2 f m1 m2 ;;
      setitem output_sample key v
    else ret tt in
  add_if_missing chirp_mass_key component_masses_to_chirp_mass ;;
  add_if_missing total_mass_key component_masses_to_total_mass ;;
  add_if_missing "symmetric_mass_ratio"
    component_masses_to_symmetric_mass_ratio ;;
  add_if_missing "mass_ratio" component_masses_to_mass_ratio ;;
  ret output_sample.

Definition chi_p_of (chi_1_in_plane q chi_2_in_plane : R) : R :=
  Rmax chi_1_in_plane ((4 * q + 3) / (3 * q + 4) * q * chi_2_in_plane).

Definition generate_spin_parameters (sample : ref) : M ref :=
  output_sample <- copy sample ;;
  output_sample <- generate_component_spins output_sample ;;
  s1z <- getitem output_sample "spin_1z" ;;
  s2z <- getitem output_sample "spin_2z" ;;
  q <- getitem output_sample "mass_ratio" ;;
  s2z_q <- vmul s2z q ;;
  numerator <- vadd s1z s2z_q ;;
  q <- getitem output_sample "mass_ratio" ;;
  denominator <- vadd (vfloat 1) q ;;
  chi_eff <- vdiv numerator denominator ;;
  setitem output_sample "chi_eff" chi_eff ;;
  s1x <- getitem output_sample "spin_1x" ;;
  s1y <- getitem output_sample "spin_1y" ;;
  chi_1_in_plane <- vlift2 (fun x y => sqrt (x ^ 2 + y ^ 2)) s1x s1y ;;
  setitem output_sample "chi_1_in_plane" chi_1_in_plane ;;
  s2x <- getitem output_sample "spin_2x" ;;
  s2y <- getitem output_sample "spin_2y" ;;
  chi_2_in_plane <- vlift2 (fun x y => sqrt (x ^ 2 + y ^ 2)) s2x s2y ;;
  setitem output_sample "chi_2_in_plane" chi_2_in_plane ;;
  c1 <- getitem output_sample "chi_1_in_plane" ;;
  q <- getitem output_sample "mass_ratio" ;;
  c2 <- getitem output_sample "chi_2_in_plane" ;;
  chi_p <- vlift3 chi_p_of c1 q c2 ;;
  setitem output_sample "chi_p" chi_p ;;
  try_except
    (tilt_1 <- getitem output_sample "tilt_1" ;;
     cos_tilt_1 <- vlift1 cos tilt_1 ;;
     setitem output_sample "cos_tilt_1" cos_tilt_1 ;;
     tilt_2 <- getitem output_sample "tilt_2" ;;
     cos_tilt_2 <- vlift1 cos tilt_2 ;;
     setitem output_sample "cos_tilt_2" cos_tilt_2)
    [KeyError] (fun _ => ret tt) ;;
  ret output_sample.

Definition generate_tidal_parameters (sample : ref) : M ref :=
  output_sample <- copy sample ;;
  l1 <- getitem output_sample "lambda_1" ;;
  l2 <- getitem output_sample "lambda_2" ;;
  m1 <- getitem output_sample "mass_1" ;;
  m2 <- getitem output_sample "mass_2" ;;
  lambda_tilde <- vlift4 lambda_1_lambda_2_to_lambda_tilde l1 l2 m1 m2 ;;
  setitem output_sample "lambda_tilde" lambda_tilde ;;
  l1 <- getitem output_sample "lambda_1" ;;
  l2 <- getitem output_sample "lambda_2" ;;
  m1 <- getitem output_sample "mass_1" ;;
  m2 <- getitem output_sample "mass_2" ;;
  delta_lambda_tilde <-
    vlift4 lambda_1_lambda_2_to_delta_lambda_tilde l1 l2 m1 m2 ;;
  setitem output_sample "delta_lambda_tilde" delta_lambda_tilde ;;
  ret output_sample.

Definition generate_source_frame_parameters (sample : ref) : M ref :=
  output_sample <- copy sample ;;
  d <- getitem output_sample "luminosity_distance" ;;
  z <- vlift1 luminosity_distance_to_redshift d ;;
  setitem output_sample "redshift" z ;;
  z <- getitem output_sample "redshift" ;;
  dc <- vlift1 redshift_to_comoving_distance z ;;
  setitem output_sample "comoving_distance" dc ;;
  for_each ["mass_1"; "mass_2"; "chirp_mass"; "total_mass"] (fun key =>
    present <- contains output_sample key ;;
    if present then
      x <- getitem output_sample key ;;
      z <- getitem output_sample "redshift" ;;
      one_plus_z <- vadd (vfloat 1) z ;;
      y <- vdiv x one_plus_z ;;
      setitem output_sample (key ++ "_source") y
    else ret tt) ;;
  ret output_sample.

(** *** The likelihood stage *)

(** [likelihood.parameters.update(sample)]. *)
Definition update_likelihood_parameters (sample : dict) : M unit :=
  fun w =>
    (Ok tt, set_lik_parameters (dict_update (lik_parameters w) sample) w).

Definition get_likelihood_parameters : M dict :=
  fun w => (Ok (lik_parameters w), w).

(** [_sampling_convenience_dump.likelihood]. *)
Definition get_convenience_likelihood : M Likelihood :=
  fun w =>
    match convenience_likelihood w with
    | Some l => (Ok l, w)
    | None => (Err (Exn AttributeError "likelihood"), w)
    end.

Definition put_convenience_likelihood (l : Likelihood) : M unit :=
  fun w => (Ok tt, set_convenience_likelihood (Some l) w).

(** [pool.map(task, args)] on a pool whose workers were initialised with
    their own copy of the likelihood: the results come back in the order
    of [args], an exception of a task is raised in the caller, and
    nothing a worker did to its likelihood reaches the caller.  The
    calls are recorded in the order of the rows they belong to. *)
Definition pool_map {A B : Type} (likelihood : Likelihood)
    (task : A -> M B) (args : list A) : M (list B) :=
  fun w =>
    let worker := set_convenience_likelihood (Some likelihood) w in
    let '(r, worker') := map_m task args worker in
    (r, set_trace (trace worker') w).

(** [[(ii, row) for ii, row in sample.iterrows()]]. *)
Definition iterrows (o : object) : list (nat * dict) :=
  map (fun ii => (ii, row_of o ii)) (seq 0 (object_len o)).

(** [fill_args[ii: ii + block]]. *)
Definition slice {A : Type} (l : list A) (ii block : nat) : list A :=
  firstn block (skipn ii l).

Definition _compute_snrs (args : nat * dict) : M (list snr_record) :=
  likelihood <- get_convenience_likelihood ;;
  let '(ii, sample) := args in
  update_likelihood_parameters sample ;;
  log_event (SnrCall (Some ii)) ;;
  parameters <- get_likelihood_parameters ;;
  let signal_polarizations := frequency_domain_strain likelihood sample in
  ret (map (calculate_snrs likelihood parameters signal_polarizations)
         (interferometers likelihood)).

Definition complex_scalar (z : R * R) : scalar := Complex (fst z) (snd z).

(** [optimal_snr_squared.real ** 0.5]. *)
Definition optimal_snr (s : snr_record) : R :=
  fst (optimal_snr_squared s) ** 0.5.

Definition enumerate {A : Type} (l : list A) : list (nat * A) :=
  combine (seq 0 (List.length l)) l.

Definition missing_snr : snr_record := mkSnr (0, 0) (0, 0).

Definition compute_snrs (sample : ref) (likelihood : option Likelihood)
    (npool : nat) : M unit :=
  match likelihood with
  | Some likelihood =>
      o <- deref sample ;;
      match shape o with
      | DictC =>
          update_likelihood_parameters (items o) ;;
          log_event (SnrCall None) ;;
          let signal_polarizations :=
            frequency_domain_strain likelihood (items o) in
          for_each (interferometers likelihood) (fun ifo =>
            parameters <- get_likelihood_parameters ;;
            let per_detector_snr :=
              calculate_snrs likelihood parameters signal_polarizations
                ifo in
            setitem sample (ifo ++ "_matched_filter_snr")
              (Scalar (complex_scalar
                         (complex_matched_filter_snr per_detector_snr))) ;;
            setitem sample (ifo ++ "_optimal_snr")
              (vfloat (optimal_snr per_detector_snr)))
      | FrameC _ =>
          let fill_args := iterrows o in
          new_samples <-
            (if Nat.ltb 1 npool
             then pool_map likelihood _compute_snrs fill_args
             else put_convenience_likelihood likelihood ;;
                  map_m _compute_snrs fill_args) ;;
          for_each (enumerate (interferometers likelihood)) (fun ii_ifo =>
            let '(ii, ifo) := ii_ifo in
            let matched_filter_snrs :=
              map (fun new_sample =>
                     complex_scalar
                       (complex_matched_filter_snr
                          (nth ii new_sample missing_snr))) new_samples in
            let optimal_snrs :=
              map (fun new_sample =>
                     Float (optimal_snr (nth ii new_sample missing_snr)))
                new_samples in
            setitem sample (ifo ++ "_matched_filter_snr")
              (Column matched_filter_snrs) ;;
            setitem sample (ifo ++ "_optimal_snr") (Column optimal_snrs))
      | OtherC => raise (Exn AttributeError "iterrows")
      end
  | None => ret tt (* Not computing SNRs. *)
  end.

(** *** Block-wise evaluation with a cache *)

Definition blocks : Type := list (nat * list (list value)).

Fixpoint has_block (ii : nat) (bs : blocks) : bool :=
  match bs with
  | [] => false
  | (k, _) :: bs' => Nat.eqb k ii || has_block ii bs'
  end.

(** [cached_samples_dict[ii] = subset_samples]. *)
Fixpoint set_block (bs : blocks) (ii : nat) (rows : list (list value))
  : blocks :=
  match bs with
  | [] => [(ii, rows)]
  | (k, old) :: bs' =>
      if Nat.eqb k ii then (k, rows) :: bs'
      else (k, old) :: set_block bs' ii rows
  end.

(** The loop [while ii < len(samples)] of both block-wise stages.  Each
    turn moves [ii] forward by [block], so [n] turns are enough for any
    positive [block]; with [block = 0] the loop of the source never
    ends, which is [Diverges] here. *)
Fixpoint block_loop (fuel n block : nat)
    (compute_block : nat -> M (list (list value)))
    (checkpoint : blocks -> M unit) (ii : nat) (bs : blocks) : M blocks :=
  if Nat.ltb ii n then
    match fuel with
    | O => raise (Exn Diverges "while ii < len(samples)")
    | S fuel' =>
        if has_block ii bs then
          block_loop fuel' n block compute_block checkpoint (ii + block) bs
        else
          subset_samples <- compute_block ii ;;
          let bs' := set_block bs ii subset_samples in
          checkpoint bs' ;;
          block_loop fuel' n block compute_block checkpoint (ii + block)
            bs'
    end
  else ret bs.

(** [np.concatenate] of the cached blocks, in the order of the cache. *)
Definition concatenate (bs : blocks) : M (list (list value)) :=
  match bs with
  | [] => raise (Exn ValueError "need at least one array to concatenate")
  | _ => ret (List.concat (map snd bs))
  end.

(** [new_samples[:, ii]]. *)
Definition column_of (rows : list (list value)) (ii : nat) : M value :=
  match
    all_some
      (map (fun row =>
              match nth_error row ii with
              | Some (Scalar s) => Some s
              | _ => None
              end) rows)
  with
  | Some cells => ret (Column cells)
  | None => raise (Exn IndexError "index is out of bounds for axis 1")
  end.

Definition assign_columns (samples : ref) (names : list string)
    (new_samples : list (list value)) : M unit :=
  for_each (enumerate names) (fun ii_key =>
    let '(ii, key) := ii_key in
    col <- column_of new_samples ii ;;
    setitem samples key col).

Definition _compute_per_detector_log_likelihoods (args : nat * dict)
  : M (list value) :=
  likelihood <- get_convenience_likelihood ;;
  let '(ii, sample) := args in
  update_likelihood_parameters sample ;;
  log_event (PerDetectorCall (Some ii)) ;;
  parameters <- get_likelihood_parameters ;;
  let '(new_sample, parameters') :=
    compute_per_detector_log_likelihood likelihood parameters in
  (fun w => (Ok tt, set_lik_parameters parameters' w)) ;;
  map_m (fun ifo =>
           match dict_get new_sample (ifo ++ "_log_likelihood") with
           | Some v => ret v
           | None => raise (Exn KeyError (ifo ++ "_log_likelihood"))
           end) (interferometers likelihood).

Definition compute_per_detector_log_likelihoods (samples : ref)
    (likelihood : option Likelihood) (npool block : nat)
  : M (option ref) :=
  match likelihood with
  | Some likelihood =>
      if negb (per_detector_callable likelihood) then ret (Some samples)
      else
      o <- deref samples ;;
      match shape o with
      | DictC =>
          update_likelihood_parameters (items o) ;;
          log_event (PerDetectorCall None) ;;
          parameters <- get_likelihood_parameters ;;
          let '(new_sample, parameters') :=
            compute_per_detector_log_likelihood likelihood parameters in
          (fun w => (Ok tt, set_lik_parameters parameters' w)) ;;
          samples <- alloc (mkObject DictC new_sample) ;;
          ret (Some samples)
      | OtherC =>
          raise (Exn ValueError "Unable to handle input samples of type")
      | FrameC _ =>
          (if Nat.ltb 1 npool then ret tt
           else put_convenience_likelihood likelihood) ;;
          let fill_args := iterrows o in
          let compute_block ii :=
            if Nat.ltb 1 npool
            then pool_map likelihood _compute_per_detector_log_likelihoods
                   (slice fill_args ii block)
            else map_m _compute_per_detector_log_likelihoods
                   (slice fill_args ii block) in
          bs <- block_loop (object_len o) (object_len o) block
                  compute_block (fun _ => ret tt) 0 [] ;;
          new_samples <- concatenate bs ;;
          assign_columns samples
            (map (fun ifo => ifo ++ "_log_likelihood")
               (interferometers likelihood)) new_samples ;;
          ret (Some samples)
      end
  | None => ret None (* Not computing per-detector log likelihoods. *)
  end.

(** *** Reconstruction of the marginalised parameters *)

(** [getattr(likelihood, "_marginalized_parameters", list())]. *)
Definition marginalized_parameters_of (likelihood : option Likelihood)
  : list string :=
  match likelihood with
  | Some l =>
      match marginalized_parameters l with Some ps => ps | None => [] end
  | None => []
  end.

Definition fill_sample (args : nat * dict) : M (list value) :=
  likelihood <- get_convenience_likelihood ;;
  let '(ii, sample) := args in
  let marginalized_parameters :=
    marginalized_parameters_of (Some likelihood) in
  update_likelihood_parameters sample ;;
  log_event (PosteriorDraw ii) ;;
  parameters <- get_likelihood_parameters ;;
  let '(new_sample, parameters') :=
    generate_posterior_sample_from_marginalized_likelihood likelihood
      parameters in
  (fun w => (Ok tt, set_lik_parameters parameters' w)) ;;
  new_sample <- lift new_sample ;;
  map_m (fun key =>
           match dict_get new_sample key with
           | Some v => ret v
           | None => raise (Exn KeyError key)
           end) marginalized_parameters.

Fixpoint file_get (fs : list (string * file)) (name : string)
  : option file :=
  match fs with
  | [] => None
  | (n, f) :: fs' => if String.eqb n name then Some f else file_get fs' name
  end.

Fixpoint file_set (fs : list (string * file)) (name : string) (f : file)
  : list (string * file) :=
  match fs with
  | [] => [(name, f)]
  | (n, f') :: fs' =>
      if String.eqb n name then (n, f) :: fs'
      else (n, f') :: file_set fs' name f
  end.

(** [os.path.exists(name)] and [pickle.load]. *)
Definition read_file (name : string) : M (option file) :=
  fun w => (Ok (file_get (files w) name), w).

Definition safe_file_dump (c : cache) (name : string) : M unit :=
  (fun w => (Ok tt, set_files (file_set (files w) name (Pickled c)) w)) ;;
  log_event (FileDump name).

Definition get_clean : M bool := fun w => (Ok (clean w), w).

Definition cache_filename_of (likelihood : Likelihood) : option string :=
  match outdir_label likelihood with
  | Some (outdir, label) =>
      Some (outdir ++ "/." ++ label ++ "_generate_posterior_cache.pickle")
  | None => None
  end.

Definition generate_posterior_samples_from_marginalized_likelihood
    (samples : ref) (likelihood : option Likelihood) (npool block : nat)
    (use_cache : bool) : M ref :=
  let marginalized_parameters := marginalized_parameters_of likelihood in
  if Nat.eqb (List.length marginalized_parameters) 0 then ret samples else
  match likelihood with
  | None => ret samples
  | Some likelihood =>
  (* pass through a dictionary *)
  o <- deref samples ;;
  match shape o with
  | DictC => ret samples
  | OtherC => raise (Exn ValueError "Unable to handle input samples of type")
  | FrameC _ =>
      (* Reconstructing marginalised parameters. *)
      let use_cache :=
        match cache_filename_of likelihood with
        | Some _ => use_cache
        | None => false (* caching disabled *)
        end in
      let cache_filename :=
        match cache_filename_of likelihood with
        | Some name => name
        | None => EmptyString
        end in
      existing <- (if use_cache then read_file cache_filename
                   else ret None) ;;
      is_clean <- get_clean ;;
      let cached_blocks_0 : blocks :=
        match existing with
        | Some f =>
            if negb is_clean then
              let cached_samples_dict :=
                match f with
                | Pickled c => Some c
                | EmptyFile => None (* Cache file is empty *)
                end in
              (* Check the samples are identical between the cache and
                 current *)
              match cached_samples_dict with
              | Some c =>
                  if object_equals (cached_samples c) o
                  then cached_blocks c
                  else [] (* Cached samples dict out of date, ignoring *)
              | None => []
              end
            else []
        | None => []
        end in
      (* Set up the multiprocessing *)
      (if Nat.ltb 1 npool then ret tt
       else put_convenience_likelihood likelihood) ;;
      let fill_args := iterrows o in
      let compute_block ii :=
        if Nat.ltb 1 npool
        then pool_map likelihood fill_sample (slice fill_args ii block)
        else map_m fill_sample (slice fill_args ii block) in
      let checkpoint bs :=
        if use_cache then safe_file_dump (mkCache o bs) cache_filename
        else ret tt in
      bs <- block_loop (object_len o) (object_len o) block compute_block
              checkpoint 0 cached_blocks_0 ;;
      new_samples <- concatenate bs ;;
      assign_columns samples marginalized_parameters new_samples ;;
      ret samples
  end
  end.

(** *** Sky-frame parameters *)

(** The labels of [DataFrame(new_samples)]: every key of the rows, in the
    order of its first appearance. *)
Definition frame_labels (rows : list dict) : list string :=
  fold_left
    (fun labels row =>
       fold_left
         (fun labels k => if key_in k labels then labels
                          else (labels ++ [k])%list)
         (dict_keys row) labels)
    rows [].

(** A cell that a row lacks is NaN in pandas; it is [NoneVal] here. *)
Definition frame_column (rows : list dict) (key : string) : value :=
  Column
    (map (fun row =>
            match dict_get row key with
            | Some (Scalar s) => s
            | _ => NoneVal
            end) rows).

Definition generate_sky_frame_parameters (samples : ref)
    (likelihood : Likelihood) : M unit :=
  o <- deref samples ;;
  match shape o with
  | DictC =>
      update_likelihood_parameters (items o) ;;
      parameters <- get_likelihood_parameters ;;
      update_items samples (get_sky_frame_parameters likelihood parameters)
  | OtherC => raise (Exn ValueError EmptyString)
  | FrameC _ =>
      (* Generating sky frame parameters. *)
      new_samples <-
        map_m (fun ii =>
                 update_likelihood_parameters (row_of o ii) ;;
                 parameters <- get_likelihood_parameters ;;
                 ret (get_sky_frame_parameters likelihood parameters))
          (seq 0 (object_len o)) ;;
      for_each (frame_labels new_samples) (fun key =>
        setitem samples key (frame_column new_samples key))
  end.

(** *** The orchestrator *)

Definition misnamed_marginalizations (par : string) : string :=
  if String.eqb par "luminosity_distance" then "distance"
  else if String.eqb par "geocent_time" then "time"
  else if String.eqb par "recalib_index" then "calibration"
  else par.

Fixpoint prior_get (ps : list (string * prior)) (name : string)
  : option prior :=
  match ps with
  | [] => None
  | (n, p) :: ps' => if String.eqb n name then Some p else prior_get ps' name
  end.

(** [priors[par] = likelihood.priors[par]] on the caller's priors. *)
Definition write_prior (par : string) (p : prior) : M unit :=
  fun w => (Ok tt, set_prior_writes (prior_writes w ++ [(par, p)]) w).

Definition option_eqb (o : option string) (default expected : string)
  : bool :=
  String.eqb (match o with Some s => s | None => default end) expected.

Definition _generate_all_cbc_parameters (sample : ref) (defaults : dict)
    (base_conversion : ref -> M (ref * list string))
    (likelihood : option Likelihood)
    (priors : option (list (string * prior))) (npool : nat) : M ref :=
  output_sample <- copy sample ;;
  let waveform_defaults := defaults in
  for_each waveform_defaults (fun key_default =>
    let '(key, default) := key_default in
    try_except
      (v <- match likelihood with
            | Some l =>
                match waveform_arguments l with
                | Some arguments =>
                    match dict_get arguments key with
                    | Some v => ret v
                    | None => raise (Exn KeyError key)
                    end
                | None => raise (Exn AttributeError "waveform_arguments")
                end
            | None => raise (Exn AttributeError "waveform_generator")
            end ;;
       setitem output_sample key v)
      [KeyError; AttributeError]
      (fun _ => setitem output_sample key default)) ;;
  output_sample <- fill_from_fixed_priors output_sample priors ;;
  '(output_sample, _) <- base_conversion output_sample ;;
  match likelihood with
  | Some l =>
      compute_per_detector_log_likelihoods output_sample likelihood npool
        10 ;;
      let marginalized_parameters := marginalized_parameters_of likelihood in
      (if Nat.ltb 0 (List.length marginalized_parameters) then
         try_except
           (generate_posterior_samples_from_marginalized_likelihood
              output_sample likelihood npool 10 true ;;
            ret tt)
           [MarginalizedLikelihoodReconstructionError]
           (fun _ => ret tt)
       else ret tt) ;;
      match priors with
      | Some _ =>
          for_each marginalized_parameters (fun par =>
            let name := misnamed_marginalizations par in
            if marginalization_flag l name then
              match prior_get (likelihood_priors l) par with
              | Some p => write_prior par p
              | None => ret tt
              end
            else ret tt)
      | None => ret tt
      end ;;
      (if negb (option_eqb (reference_frame l) "sky" "sky")
          || negb (option_eqb (time_reference l) "geocenter" "geocenter")
       then
         try_except (generate_sky_frame_parameters output_sample l)
           [TypeError] (fun _ => ret tt)
       else ret tt)
  | None => ret tt
  end ;;
  match likelihood with
  | Some _ => compute_snrs output_sample likelihood npool
  | None => ret tt
  end ;;
  let attempt (func : ref -> M ref) (output_sample : ref) : M ref :=
    try_except (func output_sample) [KeyError]
      (fun _ => ret output_sample) in
  output_sample <-
    attempt (fun r => generate_mass_parameters r false) output_sample ;;
  output_sample <- attempt generate_spin_parameters output_sample ;;
  output_sample <- attempt generate_source_frame_parameters output_sample ;;
  ret output_sample.

Definition generate_all_bbh_parameters (sample : ref)
    (likelihood : option Likelihood)
    (priors : option (list (string * prior))) (npool : nat) : M ref :=
  let waveform_defaults :=
    [("reference_frequency", vfloat 50);
     ("waveform_approximant", Scalar (Str "IMRPhenomPv2"));
     ("minimum_frequency", vfloat 20)] in
  _generate_all_cbc_parameters sample waveform_defaults
    convert_to_lal_binary_black_hole_parameters likelihood priors npool.

Definition generate_all_bns_parameters (sample : ref)
    (likelihood : option Likelihood)
    (priors : option (list (string * prior))) (npool : nat) : M ref :=
  let waveform_defaults :=
    [("reference_frequency", vfloat 50);
     ("waveform_approximant", Scalar (Str "TaylorF2"));
     ("minimum_frequency", vfloat 20)] in
  output_sample <-
    _generate_all_cbc_parameters sample waveform_defaults
      convert_to_lal_binary_neutron_star_parameters likelihood priors
      npool ;;
  try_except (generate_tidal_parameters output_sample) [KeyError]
    (fun _ => ret output_sample).

(** *** Properties of samples and of runs *)

(** A sample is free of tidal keys, and of their source-frame names. *)
Definition no_tidal_key (o : object) : Prop :=
  forall k, In k tidal_keys -> dict_mem (items o) k = false.

Definition no_tidal_source_key (o : object) : Prop :=
  forall k, In k tidal_keys -> dict_mem (items o) (k ++ "_source") = false.

(** [m] asks for exactly the draws [rows] when it returns. *)
Definition draws {A : Type} (m : M A) (rows : list nat) : Prop :=
  forall w a w', m w = (Ok a, w') ->
    posterior_draws (trace w')
    = (posterior_draws (trace w) ++ rows)%list.

(** *** The reconstruction, after the cache has been read *)

(** Whether the run reads and writes the cache file, and under which name. *)
Definition caching (likelihood : Likelihood) (use_cache : bool) : bool :=
  match cache_filename_of likelihood with
  | Some _ => use_cache
  | None => false
  end.

Definition cache_name (likelihood : Likelihood) : string :=
  match cache_filename_of likelihood with
  | Some name => name
  | None => EmptyString
  end.

(** The blocks that the run starts from: those of the cache file when it
    is read, holds a cache and the table of that cache equals the table of
    the call; none otherwise. *)
Definition loaded_blocks (likelihood : Likelihood) (use_cache : bool)
    (w : world) (o : object) : blocks :=
  if caching likelihood use_cache then
    match file_get (files w) (cache_name likelihood) with
    | Some (Pickled c) =>
        if negb (clean w) && object_equals (cached_samples c) o
        then cached_blocks c
        else []
    | _ => []
    end
  else [].

(** The function from [# Set up the multiprocessing] on, for a table [o]
    and the blocks [bs0] it starts from. *)
Definition reconstruction_of_blocks (samples : ref) (likelihood : Likelihood)
    (npool block : nat) (use_cache : bool) (o : object) (bs0 : blocks)
  : M ref :=
  (if Nat.ltb 1 npool then ret tt
   else put_convenience_likelihood likelihood) ;;
  let fill_args := iterrows o in
  let compute_block ii :=
    if Nat.ltb 1 npool
    then pool_map likelihood fill_sample (slice fill_args ii block)
    else map_m fill_sample (slice fill_args ii block) in
  let checkpoint bs :=
    if caching likelihood use_cache
    then safe_file_dump (mkCache o bs) (cache_name likelihood)
    else ret tt in
  bs <- block_loop (object_len o) (object_len o) block compute_block
          checkpoint 0 bs0 ;;
  new_samples <- concatenate bs ;;
  assign_columns samples (marginalized_parameters_of (Some likelihood))
    new_samples ;;
  ret samples.

(** [m] leaves the files as they are. *)
Definition keeps_files {A : Type} (m : M A) : Prop :=
  forall w, files (snd (m w)) = files w.

(** From a world that satisfies [P], [m] does not end as a loop that does
    not terminate, and it returns in a world that satisfies [P]. *)
Definition terminates_from {A : Type} (P : world -> Prop) (m : M A) : Prop :=
  forall w, P w ->
    match m w with
    | (Ok _, w') => P w'
    | (Err e, _) => exn_kind e <> Diverges
    end.

(** The draws of the likelihood terminate. *)
Definition draws_terminate (l : Likelihood) : Prop :=
  forall parameters e,
    fst (generate_posterior_sample_from_marginalized_likelihood l parameters)
    = Err e ->
    exn_kind e <> Diverges.

(** The likelihood that a task of the pool, or of the loop without a
    pool, finds. *)
Definition task_likelihood (npool : nat) (l : Likelihood) (w : world) : Prop :=
  (1 <? npool)%nat = true \/ convenience_likelihood w = Some l.

(** *** Partial correctness

    From a world that satisfies [P], when [m] returns [a] it does so in a
    world that satisfies [Q a]. *)
Definition hoare {A : Type} (P : world -> Prop) (m : M A)
    (Q : A -> world -> Prop) : Prop :=
  forall w, P w ->
    match m w with
    | (Ok a, w') => Q a w'
    | (Err _, _) => True
    end.

(** [o'] has the container of [o] and the keys of [o] in their order,
    followed by the keys it has gained; no key is there twice, when none
    was in [o]. *)
Definition grew (o o' : object) : Prop :=
  shape o' = shape o
  /\ (exists gained,
        dict_keys (items o') = (dict_keys (items o) ++ gained)%list)
  /\ (NoDup (dict_keys (items o)) -> NoDup (dict_keys (items o'))).

(** [o'] grew from [o], and has the value of [o] under every key of [o]. *)
Definition extends (o o' : object) : Prop :=
  grew o o'
  /\ forall k v, dict_get (items o) k = Some v ->
                 dict_get (items o') k = Some v.

Definition has_keys (ks : list string) (o : object) : Prop :=
  Forall (fun k => dict_mem (items o) k = true) ks.

(** While an operation completes the copy [out] of the sample [o] held at
    [sample]: the sample is as it was, and the copy extends it and has
    the keys [ks]. *)
Definition completing (sample : ref) (o : object) (out : ref)
    (ks : list string) (w : world) : Prop :=
  obj_at w sample = Some o
  /\ exists o', obj_at w out = Some o' /\ extends o o' /\ has_keys ks o'.

(** The sets of mass parameters from which the completion computes both
    component masses, as its branches test them. *)
Definition sufficient_mass_parameters (d : dict) (source : bool) : bool :=
  let mass_1_key := if source then "mass_1_source" else "mass_1" in
  let mass_2_key := if source then "mass_2_source" else "mass_2" in
  let total_mass_key := if source then "total_mass_source" else "total_mass" in
  let chirp_mass_key := if source then "chirp_mass_source" else "chirp_mass" in
  let ratio := dict_mem d "mass_ratio" || dict_mem d "symmetric_mass_ratio" in
  if dict_mem d mass_1_key then
    dict_mem d mass_2_key || dict_mem d total_mass_key || ratio
    || dict_mem d chirp_mass_key
  else if dict_mem d mass_2_key then
    dict_mem d total_mass_key || ratio || dict_mem d chirp_mass_key
  else if dict_mem d total_mass_key then ratio || dict_mem d chirp_mass_key
  else dict_mem d chirp_mass_key && ratio.

(** What the completion of the masses returns. *)
Definition completed (sample : ref) (o : object) (require_add source : bool)
    (r : ref) (w : world) : Prop :=
  obj_at w sample = Some o
  /\ exists o',
       obj_at w r = Some o' /\ extends o o'
       /\ ((r = sample /\ require_add = false)
           \/ has_keys [if source then "mass_1_source" else "mass_1";
                        if source then "mass_2_source" else "mass_2"] o').

(** What the fixed priors make of a point: the peak of every
    [DeltaFunction] prior, under the name of the prior. *)
Definition fill_point (d : dict) (priors : list (string * prior)) : dict :=
  fold_left
    (fun acc np =>
       match snd np with
       | DeltaFunction peak => dict_set acc (fst np) peak
       | OtherPrior _ => acc
       end)
    priors d.

(** *** Samples only grow *)

(** Every sample of [w] is in [w'], and grew. *)
Definition grows (w w' : world) : Prop :=
  forall r o, obj_at w r = Some o ->
              exists o', obj_at w' r = Some o' /\ grew o o'.

(** [m] deletes no key of a sample, moves none and changes no container,
    whether it returns or raises. *)
Definition monotone {A : Type} (m : M A) : Prop :=
  forall w, grows w (snd (m w)).


(** The sample at [c] grew from [o]. *)
Definition grown (o : object) (c : ref) (w : world) : Prop :=
  exists o', obj_at w c = Some o' /\ grew o o'.

(** The sample that a conversion returns has the container of [o] and the
    keys of [o] in their order, followed by the keys that the conversion
    returns as added; no key is there twice. *)
Definition appended (o : object) (ra : ref * list string) (w : world)
  : Prop :=
  exists o',
    obj_at w (fst ra) = Some o'
    /\ shape o' = shape o
    /\ dict_keys (items o') = (dict_keys (items o) ++ snd ra)%list
    /\ NoDup (dict_keys (items o')).

(** The sample at [r] holds a value under the key [k]. *)
Definition has_key (r : ref) (k : string) (w : world) : Prop :=
  exists o, obj_at w r = Some o /\ dict_mem (items o) k = true.

(* ================================================================== *)
(* THEOREMS *)
(* ================================================================== *)


(** ** Rules for the protection of the store *)

Section Frame.

Variable allowed : string -> bool.
Variable protected : ref -> Prop.
Variable h0 : list object.
Hypothesis protected_valid :
  forall r, protected r -> (r < List.length h0)%nat.

Abbreviation Good := (good allowed).
Abbreviation Inv := (inv allowed protected h0).
Abbreviation Respects := (respects allowed protected h0).
Abbreviation Safe := (safe allowed protected h0).
Abbreviation Writable := (writable protected).
Abbreviation Readable := (readable allowed protected h0).
Abbreviation Source_key_ok := (source_key_ok allowed).
Abbreviation Source_keys_ok := (source_keys_ok allowed).

Lemma writable_readable r : Writable r -> Readable r.
Proof. intros Hw o Hp. contradiction. Qed.

Lemma inv_good w r o : Inv w -> Readable r -> obj_at w r = Some o -> Good o.
Proof.
  intros (_ & Hprot & Hgood) Hr Ho.
  destruct (Classical_Prop.classic (protected r)) as [Hp | Hp].
  - apply Hr; [assumption |]. now rewrite <- Hprot.
  - eapply Hgood; eassumption.
Qed.

Lemma inv_set_lik w d : Inv w -> Inv (set_lik_parameters d w).
Proof. exact (fun H => H). Qed.

Lemma inv_set_trace w t : Inv w -> Inv (set_trace t w).
Proof. exact (fun H => H). Qed.

Lemma inv_set_files w f : Inv w -> Inv (set_files f w).
Proof. exact (fun H => H). Qed.

Lemma inv_set_prior_writes w p : Inv w -> Inv (set_prior_writes p w).
Proof. exact (fun H => H). Qed.

Lemma inv_set_convenience w l : Inv w -> Inv (set_convenience_likelihood l w).
Proof. exact (fun H => H). Qed.

Lemma inv_alloc w o : Inv w -> Good o -> Inv (set_heap (heap w ++ [o]) w).
Proof.
  intros (Hlen & Hprot & Hgood) Ho. unfold inv, obj_at in *. simpl.
  split; [rewrite length_app; lia |]. split.
  - intros r Hr. rewrite nth_error_app1; [now apply Hprot |].
    apply protected_valid in Hr. lia.
  - intros r o' Hr Hat.
    destruct (Nat.lt_ge_cases r (List.length (heap w))) as [Hlt | Hge].
    + rewrite nth_error_app1 in Hat by assumption. eapply Hgood; eassumption.
    + rewrite nth_error_app2 in Hat by assumption.
      destruct (r - List.length (heap w))%nat as [| n]; simpl in Hat.
      * now inversion Hat; subst.
      * now destruct n.
Qed.

Lemma length_list_update {A : Type} (l : list A) i a :
  List.length (list_update l i a) = List.length l.
Proof.
  revert i. induction l as [| x l IH]; intros [| i]; simpl; auto.
Qed.

Lemma nth_error_list_update {A : Type} (l : list A) i j a :
  nth_error (list_update l i a) j
  = if Nat.eqb i j
    then match nth_error l j with Some _ => Some a | None => None end
    else nth_error l j.
Proof.
  revert i j. induction l as [| x l IH]; intros [| i] [| j]; simpl; auto.
  now destruct (Nat.eqb i j).
Qed.

Lemma inv_store w r o :
  Inv w -> Writable r -> Good o -> Inv (set_heap (list_update (heap w) r o) w).
Proof.
  intros (Hlen & Hprot & Hgood) Hw Ho. unfold inv, obj_at in *. simpl.
  split; [now rewrite length_list_update |]. split.
  - intros r' Hr'. rewrite nth_error_list_update.
    destruct (Nat.eqb_spec r r') as [-> | _]; [contradiction | now apply Hprot].
  - intros r' o' Hr' Hat. rewrite nth_error_list_update in Hat.
    destruct (Nat.eqb_spec r r') as [-> | _].
    + destruct (nth_error (heap w) r'); now inversion Hat; subst.
    + eapply Hgood; eassumption.
Qed.

Lemma dict_mem_set d k k' v :
  dict_mem (dict_set d k v) k' = String.eqb k k' || dict_mem d k'.
Proof.
  unfold dict_mem. induction d as [| [k0 v0] d IH]; simpl.
  - now destruct (String.eqb k k').
  - destruct (String.eqb_spec k0 k) as [-> | Hne]; simpl.
    + destruct (String.eqb k k'); reflexivity.
    + destruct (String.eqb_spec k0 k') as [-> | Hne'].
      * now rewrite orb_true_r.
      * exact IH.
Qed.

Lemma good_set o k v :
  Good o -> allowed k = true ->
  Good (mkObject (shape o) (dict_set (items o) k v)).
Proof.
  intros Ho Hk k'. simpl. rewrite dict_mem_set.
  destruct (String.eqb_spec k k') as [<- | _]; simpl; auto.
Qed.

(** *** Structure *)

Lemma respects_ret {A : Type} (P : world -> Prop) (a : A) :
  Respects P (ret a) (fun a' w => a' = a /\ P w).
Proof. intros w Hi HP. simpl. auto. Qed.

Lemma respects_bind {A B : Type} P (m : M A) Q (f : A -> M B) R0 :
  Respects P m Q -> (forall a, Respects (Q a) (f a) R0) ->
  Respects P (bind m f) R0.
Proof.
  intros Hm Hf w Hi HP. unfold bind. specialize (Hm w Hi HP).
  destruct (m w) as [[a | e] w']; [| assumption].
  destruct Hm as [Hi' HQ]. exact (Hf a w' Hi' HQ).
Qed.

Lemma respects_weaken {A : Type} (P P' : world -> Prop) (m : M A)
    (Q Q' : A -> world -> Prop) :
  Respects P m Q -> (forall w, P' w -> P w) ->
  (forall a w, Q a w -> Q' a w) -> Respects P' m Q'.
Proof.
  intros Hm HP HQ w Hi HP'. specialize (Hm w Hi (HP w HP')).
  destruct (m w) as [[a | e] w']; [| assumption].
  destruct Hm; split; auto.
Qed.

(** A precondition that does not speak of the world is a hypothesis. *)
Lemma respects_assume {A : Type} (F : Prop) (m : M A) Q :
  (F -> Respects (fun _ => True) m Q) -> Respects (fun _ => F) m Q.
Proof. intros H w Hi HF. exact (H HF w Hi I). Qed.

Lemma safe_ret {A : Type} (a : A) (Q : A -> Prop) : Q a -> Safe (ret a) Q.
Proof. intros HQ w Hi _. simpl. auto. Qed.

Lemma safe_raise {A : Type} (e : exn) (Q : A -> Prop) :
  Safe (@raise A e) Q.
Proof. intros w Hi _. exact Hi. Qed.

Lemma safe_bind {A B : Type} (m : M A) (Q : A -> Prop) (f : A -> M B)
    (R0 : B -> Prop) :
  Safe m Q -> (forall a, Q a -> Safe (f a) R0) -> Safe (bind m f) R0.
Proof.
  intros Hm Hf w Hi _. unfold bind. specialize (Hm w Hi I).
  destruct (m w) as [[a | e] w']; [| assumption].
  destruct Hm as [Hi' HQ]. exact (Hf a HQ w' Hi' I).
Qed.

Lemma safe_weaken {A : Type} (m : M A) (Q Q' : A -> Prop) :
  Safe m Q -> (forall a, Q a -> Q' a) -> Safe m Q'.
Proof.
  intros Hm HQ w Hi _. specialize (Hm w Hi I).
  destruct (m w) as [[a | e] w']; [| assumption].
  destruct Hm; split; auto.
Qed.

Lemma safe_any {A : Type} (m : M A) (Q : A -> Prop) :
  Safe m Q -> Safe m (fun _ => True).
Proof. intros Hm. eapply safe_weaken; eauto. Qed.

Lemma safe_lift {A : Type} (r : result A) : Safe (lift r) (fun _ => True).
Proof. intros w Hi _. unfold lift. destruct r; auto. Qed.

Lemma safe_try_except {A : Type} (m : M A) classes handler (Q : A -> Prop) :
  Safe m Q -> (forall e, Safe (handler e) Q) ->
  Safe (try_except m classes handler) Q.
Proof.
  intros Hm Hh w Hi _. unfold try_except. specialize (Hm w Hi I).
  destruct (m w) as [[a | e] w']; [assumption |].
  destruct (existsb _ classes); [| assumption].
  exact (Hh e w' Hm I).
Qed.

Lemma safe_for_each {A : Type} (xs : list A) (body : A -> M unit) :
  (forall x, In x xs -> Safe (body x) (fun _ => True)) ->
  Safe (for_each xs body) (fun _ => True).
Proof.
  induction xs as [| x xs IH]; intros Hb; simpl.
  - now apply safe_ret.
  - eapply safe_bind; [apply Hb; now left |].
    intros _ _. apply IH. intros y Hy. apply Hb. now right.
Qed.

Lemma safe_map_m {A B : Type} (f : A -> M B) (xs : list A) :
  (forall x, In x xs -> Safe (f x) (fun _ => True)) ->
  Safe (map_m f xs) (fun _ => True).
Proof.
  induction xs as [| x xs IH]; intros Hf; simpl.
  - now apply safe_ret.
  - eapply safe_bind; [apply Hf; now left |]. intros y _.
    eapply safe_bind; [apply IH; intros z Hz; apply Hf; now right |].
    intros ys _. now apply safe_ret.
Qed.

(** *** The store *)

Lemma safe_deref r : Safe (deref r) (fun _ => True).
Proof.
  intros w Hi _. unfold deref. destruct (obj_at w r); auto.
Qed.

Lemma respects_deref r (P : world -> Prop) :
  Respects P (deref r) (fun o w => obj_at w r = Some o /\ P w).
Proof.
  intros w Hi HP. unfold deref. destruct (obj_at w r) eqn:E; auto.
Qed.

Lemma safe_alloc o : Good o -> Safe (alloc o) Writable.
Proof.
  intros Ho w Hi _. unfold alloc. split; [now apply inv_alloc |].
  intros Hp. apply protected_valid in Hp. destruct Hi as [Hlen _]. lia.
Qed.

Lemma safe_copy r : Readable r -> Safe (copy r) Writable.
Proof.
  intros Hr w Hi _. unfold copy, bind, deref.
  destruct (obj_at w r) as [o |] eqn:E; [| exact Hi].
  apply (safe_alloc o); [eapply inv_good; eassumption | assumption | exact I].
Qed.

Lemma safe_contains r k : Safe (contains r k) (fun _ => True).
Proof.
  intros w Hi _. unfold contains, bind, deref.
  destruct (obj_at w r) as [o |]; [| exact Hi].
  destruct (shape o); simpl; auto.
Qed.

Lemma safe_getitem r k : Safe (getitem r k) (fun _ => True).
Proof.
  intros w Hi _. unfold getitem, bind, deref.
  destruct (obj_at w r) as [o |]; [| exact Hi].
  destruct (shape o); simpl; auto; destruct (dict_get (items o) k); simpl; auto.
Qed.

Lemma dict_mem_In d k : In k (dict_keys d) -> dict_mem d k = true.
Proof.
  unfold dict_mem. induction d as [| [k0 v0] d IH]; simpl;
    [intros [] |].
  intros [-> | H]; [now rewrite String.eqb_refl |].
  destruct (String.eqb k0 k); auto.
Qed.

Lemma safe_keys r :
  Readable r -> Safe (keys r) (Forall (fun k => allowed k = true)).
Proof.
  intros Hr w Hi _. unfold keys, bind, deref.
  destruct (obj_at w r) as [o |] eqn:E; [| exact Hi].
  pose proof (inv_good w r o Hi Hr E) as Hg.
  assert (Forall (fun k => allowed k = true) (dict_keys (items o))).
  { apply Forall_forall. intros k Hk. apply Hg. now apply dict_mem_In. }
  destruct (shape o); simpl; auto.
Qed.

Lemma safe_keys_any r : Safe (keys r) (fun _ => True).
Proof.
  intros w Hi _. unfold keys, bind, deref.
  destruct (obj_at w r) as [o |]; [| exact Hi].
  destruct (shape o); simpl; auto.
Qed.

Lemma safe_setitem r k v :
  Writable r -> allowed k = true -> Safe (setitem r k v) (fun _ => True).
Proof.
  intros Hw Hk w Hi _. unfold setitem, bind, deref.
  destruct (obj_at w r) as [o |] eqn:E; [| exact Hi].
  assert (Hg : Good o) by (destruct Hi as (_ & _ & Hg); eapply Hg; eassumption).
  assert (Hstep : forall c, match
             match stored c v with
             | Some v' => store r (mkObject c (dict_set (items o) k v'))
             | None => raise (Exn ValueError
                 "Length of values does not match length of index")
             end w with
           | (Ok _, w') => Inv w' /\ True
           | (Err _, w') => Inv w'
           end).
  { intros c. destruct (stored c v) as [v' |]; simpl; [| exact Hi].
    split; [| exact I]. apply inv_store; try assumption.
    apply (good_set o k v' Hg Hk). }
  destruct (shape o); [apply Hstep | apply Hstep | exact Hi].
Qed.

Lemma safe_log_event e : Safe (log_event e) (fun _ => True).
Proof. intros w Hi _. simpl. auto. Qed.

(** *** Automation *)

Lemma safe_vlift1 f v : Safe (vlift1 f v) (fun _ => True).
Proof. apply safe_lift. Qed.

Lemma safe_vlift2 f v v' : Safe (vlift2 f v v') (fun _ => True).
Proof. apply safe_lift. Qed.

Lemma safe_vlift3 f a b c : Safe (vlift3 f a b c) (fun _ => True).
Proof. apply safe_lift. Qed.

Lemma safe_vlift4 f a b c d : Safe (vlift4 f a b c d) (fun _ => True).
Proof. apply safe_lift. Qed.

Lemma safe_vdiv v v' : Safe (vdiv v v') (fun _ => True).
Proof. apply safe_lift. Qed.

Lemma safe_vadd v v' : Safe (vadd v v') (fun _ => True).
Proof. apply safe_lift. Qed.

Lemma safe_vsub v v' : Safe (vsub v v') (fun _ => True).
Proof. apply safe_lift. Qed.

Lemma safe_vmul v v' : Safe (vmul v v') (fun _ => True).
Proof. apply safe_lift. Qed.

Create HintDb frames.

#[local] Hint Resolve safe_contains safe_getitem safe_lift safe_deref
  safe_log_event safe_raise safe_setitem safe_copy safe_alloc safe_keys_any
  safe_vlift1 safe_vlift2 safe_vlift3 safe_vlift4 safe_vdiv safe_vadd
  safe_vsub safe_vmul writable_readable : frames.
(** Membership in a list of literal keys. *)
Ltac literal_in :=
  simpl;
  repeat match goal with
         | |- _ \/ _ => first [left; reflexivity | right]
         end.

#[local] Hint Extern 1 (In _ _) => literal_in : frames.
#[local] Hint Extern 1 (_ = true) => reflexivity : frames.

Lemma source_key_allowed ks k :
  Forall Source_key_ok ks -> In k ks ->
  String.eqb (last_chars 7 k) "_source" = true ->
  allowed (drop_last_chars 7 k) = true.
Proof.
  intros Hks Hk Heq. rewrite Forall_forall in Hks.
  apply (Hks k Hk). now apply String.eqb_eq.
Qed.

#[local] Hint Resolve source_key_allowed : frames.

Ltac literal_member H :=
  simpl in H;
  repeat match type of H with
         | _ \/ _ => destruct H as [H | H]
         end;
  try contradiction; try subst.

Ltac safe_tac :=
  cbv beta zeta;
  lazymatch goal with
  | |- safe _ _ _ (bind _ _) _ =>
      first
        [ eapply safe_bind;
          [ solve [eauto with frames] | intros ? ?; safe_tac ]
        | eapply safe_bind with (Q := Writable);
          [ solve [safe_tac] | intros ? ?; safe_tac ]
        | eapply safe_bind with (Q := fun _ => True);
          [ safe_tac | intros ? _; safe_tac ] ]
  | |- safe _ _ _ (ret _) _ => apply safe_ret; auto with frames
  | |- safe _ _ _ (raise _) _ => apply safe_raise
  | |- safe _ _ _ (if ?b then _ else _) _ => destruct b eqn:?; safe_tac
  | |- safe _ _ _ (match ?x with _ => _ end) _ => destruct x; safe_tac
  | |- safe _ _ _ (for_each _ _) _ =>
      let H := fresh "Hin" in
      apply safe_for_each; intros ? H; literal_member H; safe_tac
  | |- safe _ _ _ (map_m _ _) _ =>
      apply safe_map_m; intros ? ?; safe_tac
  | |- safe _ _ _ (try_except _ _ _) _ =>
      apply safe_try_except; [safe_tac | intros ?; safe_tac]
  | |- _ =>
      first
        [ solve [eauto with frames]
        | eapply safe_weaken; [solve [eauto with frames] | auto with frames]
        | idtac ]
  end.

(** *** The completion of the masses *)

Lemma safe_check_and_return_quietly require_add s (Q : ref -> Prop) :
  Q s -> Safe (check_and_return_quietly require_add s) Q.
Proof.
  intros HQ. unfold check_and_return_quietly.
  destruct require_add; [apply safe_raise | now apply safe_ret].
Qed.

Lemma safe_generate_component_masses s require_add source :
  (forall k, In k (mass_keys source) -> allowed k = true) ->
  Readable s ->
  Safe (generate_component_masses s require_add source)
    (fun r => r = s \/ Writable r).
Proof.
  intros Hkeys Hs. unfold generate_component_masses, mass_keys in *.
  assert (Hq : forall Q : ref -> Prop,
             Q s -> Safe (check_and_return_quietly require_add s) Q)
    by (intros; now apply safe_check_and_return_quietly).
  destruct source; safe_tac.
Qed.

(** *** The base conversions *)

(** [converted = parameters.copy(); original_keys = list(converted.keys())]. *)
Lemma respects_copy_keys {A : Type} c (k : ref -> list string -> M A)
    (Q : A -> Prop) :
  Readable c ->
  (forall c' ks, Writable c' -> Forall Source_key_ok ks ->
                 Safe (k c' ks) Q) ->
  Respects (Source_keys_ok c)
    (c' <- copy c ;; ks <- keys c' ;; k c' ks) (fun a _ => Q a).
Proof.
  intros Hc Hk w Hi HP. cbv [bind copy deref].
  destruct (obj_at w c) as [o |] eqn:E; [| exact Hi].
  pose proof (inv_good w c o Hi Hc E) as Hg.
  pose proof (safe_alloc o Hg w Hi I) as Ha.
  destruct (alloc o w) as [[c' | e] w'] eqn:Ea; [| discriminate Ea].
  destruct Ha as [Hi' Hw].
  assert (Ec' : obj_at w' c' = Some o).
  { unfold alloc in Ea. inversion Ea; subst. unfold obj_at. simpl.
    rewrite nth_error_app2 by lia. now rewrite Nat.sub_diag. }
  cbv [keys bind deref]. rewrite Ec'.
  destruct (shape o); simpl; try exact Hi';
    apply (Hk _ _ Hw (HP o E) _ Hi' I).
Qed.

Lemma safe_convert_to_lal_binary_black_hole_parameters c :
  (forall k, In k bbh_keys -> allowed k = true) ->
  Readable c ->
  Respects (Source_keys_ok c)
    (convert_to_lal_binary_black_hole_parameters c)
    (fun r _ => Writable (fst r)).
Proof.
  intros Hkeys Hc. unfold convert_to_lal_binary_black_hole_parameters.
  apply respects_copy_keys with (Q := fun r => Writable (fst r));
    [assumption |].
  intros c' original_keys Hc' Hsrc.
  assert (Hmass : forall k, In k (mass_keys false) -> allowed k = true)
    by (intros k Hk; apply Hkeys; unfold mass_keys in Hk; simpl in Hk;
        repeat (destruct Hk as [<- | Hk]; [literal_in |]);
        contradiction).
  assert (Hgcm : forall s, Writable s ->
            Safe (generate_component_masses s false false) Writable).
  { intros s Hs. eapply safe_weaken;
      [apply safe_generate_component_masses; auto with frames |].
    intros r [-> | Hr]; assumption. }
  unfold bbh_keys in Hkeys.
  safe_tac.
Qed.

(** *** Every operation, when every key may be written *)

Section AllKeys.

Hypothesis all_allowed : forall k, allowed k = true.

#[local] Hint Resolve all_allowed : frames.

Lemma good_all o : Good o.
Proof. intros k _. apply all_allowed. Qed.

Lemma safe_alloc_any o : Safe (alloc o) (fun _ => True).
Proof. eapply safe_any. apply safe_alloc, good_all. Qed.

#[local] Hint Resolve safe_alloc_any : frames.

Lemma safe_generate_component_masses_writable s require_add source :
  Writable s ->
  Safe (generate_component_masses s require_add source) Writable.
Proof.
  intros Hs. eapply safe_weaken;
    [apply safe_generate_component_masses; auto with frames |].
  intros r [-> | Hr]; assumption.
Qed.

Lemma safe_generate_component_masses_readable s require_add source :
  Readable s ->
  Safe (generate_component_masses s require_add source) Readable.
Proof.
  intros Hs. eapply safe_weaken;
    [apply safe_generate_component_masses; auto with frames |].
  intros r [-> | Hr]; auto with frames.
Qed.

Lemma safe_black_hole_conversion c :
  Readable c ->
  Safe (convert_to_lal_binary_black_hole_parameters c)
    (fun r => Writable (fst r)).
Proof.
  intros Hc w Hi _.
  apply (safe_convert_to_lal_binary_black_hole_parameters c); auto.
  intros o _. apply Forall_forall. intros k _ _. apply all_allowed.
Qed.

#[local] Hint Resolve safe_generate_component_masses_writable
  safe_generate_component_masses_readable : frames.

Lemma safe_fill_from_fixed_priors s priors :
  Readable s -> Safe (fill_from_fixed_priors s priors) Writable.
Proof. intros Hs. unfold fill_from_fixed_priors. safe_tac. Qed.

Lemma safe_generate_mass_parameters s source :
  Readable s -> Safe (generate_mass_parameters s source) Writable.
Proof. intros Hs. unfold generate_mass_parameters. safe_tac. Qed.

Lemma safe_call_frame_transform a b c d e f g h i j k :
  Safe (call_frame_transform a b c d e f g h i j k) (fun _ => True).
Proof. unfold call_frame_transform. safe_tac. Qed.

Lemma safe_bilby_to_lalsimulation_spins_row args :
  Safe (bilby_to_lalsimulation_spins_row args) (fun _ => True).
Proof.
  pose proof safe_call_frame_transform.
  unfold bilby_to_lalsimulation_spins_row, bilby_to_lalsimulation_spins.
  safe_tac.
Qed.

Lemma safe_np_vectorize n f vs :
  (forall row, Safe (f row) (fun _ => True)) ->
  Safe (np_vectorize n f vs) (fun _ => True).
Proof. intros Hf. unfold np_vectorize. safe_tac. Qed.

Lemma safe_contains_all r ks : Safe (contains_all r ks) (fun _ => True).
Proof. induction ks as [| k ks IH]; simpl; safe_tac. Qed.

#[local] Hint Resolve safe_np_vectorize
  safe_bilby_to_lalsimulation_spins_row safe_contains_all : frames.

Lemma safe_generate_component_spins s :
  Readable s -> Safe (generate_component_spins s) Writable.
Proof. intros Hs. unfold generate_component_spins. safe_tac. Qed.

#[local] Hint Resolve safe_generate_component_spins : frames.

Lemma safe_generate_spin_parameters s :
  Readable s -> Safe (generate_spin_parameters s) Writable.
Proof. intros Hs. unfold generate_spin_parameters. safe_tac. Qed.

Lemma safe_generate_tidal_parameters s :
  Readable s -> Safe (generate_tidal_parameters s) Writable.
Proof. intros Hs. unfold generate_tidal_parameters. safe_tac. Qed.

Lemma safe_generate_source_frame_parameters s :
  Readable s -> Safe (generate_source_frame_parameters s) Writable.
Proof. intros Hs. unfold generate_source_frame_parameters. safe_tac. Qed.

Lemma safe_as_float v : Safe (as_float v) (fun _ => True).
Proof. unfold as_float. safe_tac. Qed.

Lemma safe_contains_any r ks : Safe (contains_any r ks) (fun _ => True).
Proof. unfold contains_any. safe_tac. Qed.

#[local] Hint Resolve safe_as_float safe_contains_any
  safe_black_hole_conversion : frames.

Lemma safe_neutron_star_conversion s :
  Readable s ->
  Safe (convert_to_lal_binary_neutron_star_parameters s)
    (fun r => Writable (fst r)).
Proof.
  intros Hs. unfold convert_to_lal_binary_neutron_star_parameters.
  safe_tac.
Qed.

(** *** The likelihood stage writes into the sample it is given *)

Lemma safe_update_likelihood_parameters d :
  Safe (update_likelihood_parameters d) (fun _ => True).
Proof. intros w Hi _. simpl. auto. Qed.

Lemma safe_get_likelihood_parameters :
  Safe get_likelihood_parameters (fun _ => True).
Proof. intros w Hi _. simpl. auto. Qed.

Lemma safe_get_convenience_likelihood :
  Safe get_convenience_likelihood (fun _ => True).
Proof.
  intros w Hi _. unfold get_convenience_likelihood.
  destruct (convenience_likelihood w); auto.
Qed.

Lemma safe_put_convenience_likelihood l :
  Safe (put_convenience_likelihood l) (fun _ => True).
Proof. intros w Hi _. simpl. auto. Qed.

Lemma safe_set_lik_parameters d :
  Safe (fun w => (Ok tt, set_lik_parameters d w)) (fun _ => True).
Proof. intros w Hi _. simpl. auto. Qed.

(** Whatever the tasks do, nothing of a worker's store comes back. *)
Lemma safe_pool_map {A B : Type} l (task : A -> M B) args :
  Safe (pool_map l task args) (fun _ => True).
Proof.
  intros w Hi _. unfold pool_map.
  destruct (map_m task args (set_convenience_likelihood (Some l) w))
    as [[bs | e] w']; auto.
Qed.

Lemma safe_read_file name : Safe (read_file name) (fun _ => True).
Proof. intros w Hi _. simpl. auto. Qed.

Lemma safe_get_clean : Safe get_clean (fun _ => True).
Proof. intros w Hi _. simpl. auto. Qed.

Lemma safe_write_prior par p : Safe (write_prior par p) (fun _ => True).
Proof. intros w Hi _. simpl. auto. Qed.

Lemma safe_safe_file_dump c name :
  Safe (safe_file_dump c name) (fun _ => True).
Proof.
  unfold safe_file_dump. eapply safe_bind with (Q := fun _ => True).
  - intros w Hi _. simpl. auto.
  - intros _ _. apply safe_log_event.
Qed.

#[local] Hint Resolve safe_update_likelihood_parameters
  safe_get_likelihood_parameters safe_get_convenience_likelihood
  safe_put_convenience_likelihood safe_set_lik_parameters
  safe_pool_map safe_read_file safe_get_clean safe_write_prior
  safe_safe_file_dump : frames.

Lemma safe__compute_snrs args : Safe (_compute_snrs args) (fun _ => True).
Proof. unfold _compute_snrs. safe_tac. Qed.

#[local] Hint Resolve safe__compute_snrs : frames.

Lemma safe_compute_snrs s likelihood npool :
  Writable s -> Safe (compute_snrs s likelihood npool) (fun _ => True).
Proof. intros Hs. unfold compute_snrs. safe_tac. Qed.

Lemma safe_block_loop fuel n block compute_block checkpoint ii bs :
  (forall ii, Safe (compute_block ii) (fun _ => True)) ->
  (forall bs, Safe (checkpoint bs) (fun _ => True)) ->
  Safe (block_loop fuel n block compute_block checkpoint ii bs)
    (fun _ => True).
Proof.
  intros Hc Hk. revert ii bs.
  induction fuel as [| fuel IH]; intros ii bs; simpl; safe_tac.
Qed.

Lemma safe_concatenate bs : Safe (concatenate bs) (fun _ => True).
Proof. unfold concatenate. safe_tac. Qed.

Lemma safe_column_of rows ii : Safe (column_of rows ii) (fun _ => True).
Proof. unfold column_of. safe_tac. Qed.

#[local] Hint Resolve safe_concatenate safe_column_of : frames.

Lemma safe_assign_columns s names rows :
  Writable s -> Safe (assign_columns s names rows) (fun _ => True).
Proof. intros Hs. unfold assign_columns. safe_tac. Qed.

Lemma safe__compute_per_detector_log_likelihoods args :
  Safe (_compute_per_detector_log_likelihoods args) (fun _ => True).
Proof. unfold _compute_per_detector_log_likelihoods. safe_tac. Qed.

Lemma safe_fill_sample args : Safe (fill_sample args) (fun _ => True).
Proof. unfold fill_sample. safe_tac. Qed.

#[local] Hint Resolve safe_assign_columns
  safe__compute_per_detector_log_likelihoods safe_fill_sample : frames.

Lemma safe_compute_per_detector_log_likelihoods s likelihood npool block :
  Writable s ->
  Safe (compute_per_detector_log_likelihoods s likelihood npool block)
    (fun _ => True).
Proof.
  intros Hs. unfold compute_per_detector_log_likelihoods.
  safe_tac; try (apply safe_block_loop; intros; safe_tac).
Qed.

Lemma safe_generate_posterior_samples s likelihood npool block use_cache :
  Writable s ->
  Safe (generate_posterior_samples_from_marginalized_likelihood s
          likelihood npool block use_cache) (fun _ => True).
Proof.
  intros Hs.
  unfold generate_posterior_samples_from_marginalized_likelihood.
  safe_tac; try (apply safe_block_loop; intros; safe_tac).
Qed.

Lemma safe_update_items s d :
  Writable s -> Safe (update_items s d) (fun _ => True).
Proof. intros Hs. unfold update_items. safe_tac. Qed.

#[local] Hint Resolve safe_update_items : frames.

Lemma safe_generate_sky_frame_parameters s likelihood :
  Writable s ->
  Safe (generate_sky_frame_parameters s likelihood) (fun _ => True).
Proof. intros Hs. unfold generate_sky_frame_parameters. safe_tac. Qed.

(** *** The orchestrator works on its own copy *)

#[local] Hint Resolve safe_fill_from_fixed_priors
  safe_generate_mass_parameters safe_generate_spin_parameters
  safe_generate_tidal_parameters safe_generate_source_frame_parameters
  safe_compute_snrs safe_compute_per_detector_log_likelihoods
  safe_generate_posterior_samples safe_generate_sky_frame_parameters
  safe_neutron_star_conversion : frames.

Lemma safe__generate_all_cbc_parameters s defaults base_conversion
    likelihood priors npool :
  (forall c, Readable c ->
             Safe (base_conversion c) (fun r => Writable (fst r))) ->
  Readable s ->
  Safe (_generate_all_cbc_parameters s defaults base_conversion
          likelihood priors npool) Writable.
Proof.
  intros Hbase Hs. unfold _generate_all_cbc_parameters. safe_tac.
Qed.

Lemma safe_generate_all_bbh_parameters s likelihood priors npool :
  Readable s ->
  Safe (generate_all_bbh_parameters s likelihood priors npool) Writable.
Proof.
  intros Hs. unfold generate_all_bbh_parameters.
  apply safe__generate_all_cbc_parameters; auto with frames.
Qed.

Lemma safe_generate_all_bns_parameters s likelihood priors npool :
  Readable s ->
  Safe (generate_all_bns_parameters s likelihood priors npool) Writable.
Proof.
  intros Hs. unfold generate_all_bns_parameters.
  pose proof safe__generate_all_cbc_parameters as Hcbc.
  safe_tac.
Qed.

End AllKeys.

End Frame.

(** ** Which samples the operations mutate *)

Lemma inv_start (w : world) (protected : ref -> Prop) :
  inv (fun _ => true) protected (heap w) w.
Proof.
  split; [lia |]. split; [reflexivity |]. intros r o _ _ k _. reflexivity.
Qed.

(** An operation that respects the protection leaves every protected
    object as it was, whether it returns or raises. *)
Lemma protected_unchanged {A : Type} (m : M A) (Q : A -> Prop) (w : world)
    (protected : ref -> Prop) (r : ref) (o : object) :
  safe (fun _ => true) protected (heap w) m Q ->
  protected r -> obj_at w r = Some o -> obj_at (snd (m w)) r = Some o.
Proof.
  intros Hm Hr Ho. specialize (Hm w (inv_start w protected) I).
  destruct (m w) as [[a | e] w']; simpl;
    [destruct Hm as [Hm _] |]; destruct Hm as (_ & Hp & _);
    rewrite (Hp r Hr); exact Ho.
Qed.

Lemma obj_at_valid (w : world) (r : ref) (o : object) :
  obj_at w r = Some o -> (r < List.length (heap w))%nat.
Proof. intros H. apply nth_error_Some. unfold obj_at in H. congruence. Qed.

(** The operations that start with [sample.copy()] and write the copy. *)
Lemma copying_operation_leaves_input {A : Type} (op : ref -> M A)
    (Q : ref -> A -> Prop) :
  (forall protected h0,
      (forall r, protected r -> (r < List.length h0)%nat) ->
      forall s, readable (fun _ => true) protected h0 s ->
                safe (fun _ => true) protected h0 (op s) (Q s)) ->
  leaves_input_unchanged op.
Proof.
  intros Hop w sample o Ho.
  apply protected_unchanged
    with (Q := Q sample) (protected := fun r => (r < List.length (heap w))%nat).
  - apply Hop; [auto |]. intros o' _ _ k _. reflexivity.
  - eapply obj_at_valid; eassumption.
  - assumption.
Qed.

(** The operations that write the sample they are given. *)
Lemma writing_operation_keeps_others {A : Type} (op : ref -> M A)
    (Q : ref -> A -> Prop) :
  (forall protected h0,
      (forall r, protected r -> (r < List.length h0)%nat) ->
      forall s, writable protected s ->
                safe (fun _ => true) protected h0 (op s) (Q s)) ->
  writes_only_its_argument op.
Proof.
  intros Hop w sample other o Hne Ho.
  apply protected_unchanged
    with (Q := Q sample)
         (protected := fun r => (r < List.length (heap w))%nat /\ r <> sample).
  - apply Hop; [now intros r [Hr _] |]. intros [_ Hs]. now apply Hs.
  - split; [eapply obj_at_valid; eassumption | assumption].
  - assumption.
Qed.

(** ** The guards of the reconstruction *)

(** C7, as amended: the reconstruction returns the samples as they are
    when the likelihood has no marginalised parameter or when the samples
    are a single point; when the likelihood has marginalised parameters
    and the samples are neither a point nor a table, it raises a
    [ValueError] before it touches anything. *)
Theorem reconstruction_guards
    (samples : ref) (likelihood : option Likelihood) (npool block : nat)
    (use_cache : bool) (w : world) (o : object) :
  obj_at w samples = Some o ->
  let run :=
    generate_posterior_samples_from_marginalized_likelihood samples
      likelihood npool block use_cache w in
  (marginalized_parameters_of likelihood = [] -> run = (Ok samples, w))
  /\ (shape o = DictC -> run = (Ok samples, w))
  /\ (shape o = OtherC -> marginalized_parameters_of likelihood <> [] ->
      exists msg, run = (Err (Exn ValueError msg), w)).
Proof.
  intros Ho run. subst run.
  unfold generate_posterior_samples_from_marginalized_likelihood.
  repeat split.
  - intros ->. reflexivity.
  - intros Hs.
    destruct (marginalized_parameters_of likelihood) as [| p ps];
      [reflexivity |].
    destruct likelihood as [lik |]; [| reflexivity].
    cbn [List.length Nat.eqb]. unfold bind, deref. rewrite Ho, Hs.
    reflexivity.
  - intros Hs Hm.
    destruct (marginalized_parameters_of likelihood) as [| p ps] eqn:E;
      [contradiction |].
    destruct likelihood as [lik |]; [| discriminate E].
    cbn [List.length Nat.eqb]. unfold bind, deref. rewrite Ho, Hs.
    eexists. reflexivity.
Qed.

(** ** The fast path of the spin conversion *)

Lemma Reqb_true x y : x = y -> Reqb x y = true.
Proof. intros ->. unfold Reqb. destruct (Req_dec_T y y); congruence. Qed.

Lemma Reqb_false x y : x <> y -> Reqb x y = false.
Proof. intros H. unfold Reqb. destruct (Req_dec_T x y); congruence. Qed.

Lemma body_is_aligned a tilt :
  a = 0 \/ tilt = 0 \/ tilt = PI -> Reqb a 0 || tilt_is_aligned tilt = true.
Proof.
  unfold tilt_is_aligned. intros [H | [H | H]]; rewrite (Reqb_true _ _ H);
    rewrite ?orb_true_r; reflexivity.
Qed.

(** C6: when each body has zero spin magnitude or a tilt of exactly 0 or
    pi, the in-plane components are 0, the z components are
    [a_i * cos(tilt_i)], the inclination is [theta_jn], and the world is
    left as it was: the frame transform is not called.  With
    [a_1 = a_2 = 0] all six components are 0.  This holds whatever the
    classes of the arguments are. *)
Theorem aligned_spins_skip_the_transform (float_inputs : bool)
    (theta_jn phi_jl tilt_1 tilt_2 phi_12 a_1 a_2 mass_1 mass_2
     reference_frequency phase : R) (w : world) :
  a_1 = 0 \/ tilt_1 = 0 \/ tilt_1 = PI ->
  a_2 = 0 \/ tilt_2 = 0 \/ tilt_2 = PI ->
  let run :=
    bilby_to_lalsimulation_spins float_inputs theta_jn phi_jl tilt_1 tilt_2
      phi_12 a_1 a_2 mass_1 mass_2 reference_frequency phase w in
  run = (Ok (theta_jn, 0, 0, a_1 * cos tilt_1, 0, 0, a_2 * cos tilt_2), w)
  /\ trace (snd run) = trace w
  /\ (a_1 = 0 -> a_2 = 0 -> fst run = Ok (theta_jn, 0, 0, 0, 0, 0, 0)).
Proof.
  intros H1 H2 run. subst run. unfold bilby_to_lalsimulation_spins.
  rewrite (body_is_aligned _ _ H1), (body_is_aligned _ _ H2). simpl.
  repeat split. intros -> ->. now rewrite !Rmult_0_l.
Qed.

Lemma broadcast_length_scalars xs :
  broadcast_length (map vfloat xs) = Ok None.
Proof. induction xs as [| x xs IH]; simpl; [reflexivity | now rewrite IH]. Qed.

Lemma argument_row_scalars xs i : argument_row (map vfloat xs) i = Ok xs.
Proof.
  unfold argument_row.
  assert (E : all_some (map (entry i) (map vfloat xs)) = Some xs).
  { induction xs as [| x xs IH]; simpl; [reflexivity | now rewrite IH]. }
  now rewrite E.
Qed.

(** On scalars, the vectorised function is called twice. *)
Lemma np_vectorize_scalars outputs f xs w :
  np_vectorize outputs f (map vfloat xs) w
  = (f xs ;;
     ys <- f xs ;;
     ret (map (fun j => vfloat (nth j ys 0)) (seq 0 outputs))) w.
Proof.
  unfold np_vectorize, bind, lift.
  rewrite broadcast_length_scalars, argument_row_scalars. reflexivity.
Qed.

(** X10: outside the fast path, when a body has a spin magnitude other than
    0 and a tilt that is neither 0 nor pi, the result is what the frame
    transform returns for the eleven arguments, in this order.  When every
    argument is a [Number] the transform is called once.  When one is not,
    the call goes through the vectorised wrapper
    [transform_precessing_spins], and the transform is called twice with
    the same arguments: once by numpy, to learn the output types, and once
    for the element. *)
Theorem general_spins_call_the_transform (float_inputs : bool)
    (theta_jn phi_jl tilt_1 tilt_2 phi_12 a_1 a_2 mass_1 mass_2
     reference_frequency phase : R) (w : world) :
  (a_1 <> 0 /\ tilt_1 <> 0 /\ tilt_1 <> PI)
  \/ (a_2 <> 0 /\ tilt_2 <> 0 /\ tilt_2 <> PI) ->
  let run :=
    bilby_to_lalsimulation_spins float_inputs theta_jn phi_jl tilt_1 tilt_2
      phi_12 a_1 a_2 mass_1 mass_2 reference_frequency phase w in
  let call :=
    FrameTransform
      [theta_jn; phi_jl; tilt_1; tilt_2; phi_12; a_1; a_2; mass_1; mass_2;
       reference_frequency; phase] in
  fst run
  = Ok (lalsim_SimInspiralTransformPrecessingNewInitialConditions theta_jn
          phi_jl tilt_1 tilt_2 phi_12 a_1 a_2 mass_1 mass_2
          reference_frequency phase)
  /\ trace (snd run)
     = (trace w ++ (if float_inputs then [call] else [call; call]))%list.
Proof.
  intros H run call.
  assert (Hrun : exists w',
             run
             = (Ok (lalsim_SimInspiralTransformPrecessingNewInitialConditions
                      theta_jn phi_jl tilt_1 tilt_2 phi_12 a_1 a_2 mass_1
                      mass_2 reference_frequency phase), w')
             /\ trace w'
                = (trace w
                   ++ (if float_inputs then [call] else [call; call]))%list).
  { subst run call.
    unfold bilby_to_lalsimulation_spins, tilt_is_aligned.
    assert (E : (Reqb a_1 0 || (Reqb tilt_1 0 || Reqb tilt_1 PI))
                && (Reqb a_2 0 || (Reqb tilt_2 0 || Reqb tilt_2 PI))
                = false).
    { destruct H as [(Ha & Ht & Hp) | (Ha & Ht & Hp)];
        rewrite (Reqb_false _ _ Ha), (Reqb_false _ _ Ht),
          (Reqb_false _ _ Hp);
        simpl; auto using andb_false_r. }
    rewrite E. destruct float_inputs; [eexists; split; reflexivity |].
    unfold transform_precessing_spins, bind at 1.
    rewrite np_vectorize_scalars.
    unfold frame_transform_row, call_frame_transform, bind, log_event, ret,
      lift.
    destruct (lalsim_SimInspiralTransformPrecessingNewInitialConditions
                theta_jn phi_jl tilt_1 tilt_2 phi_12 a_1 a_2 mass_1 mass_2
                reference_frequency phase)
      as [[[[[[iota s1x] s1y] s1z] s2x] s2y] s2z].
    simpl. eexists. split; [reflexivity |]. simpl.
    now rewrite <- app_assoc. }
  destruct Hrun as (w' & -> & Ht). split; [reflexivity | exact Ht].
Qed.

(** ** The lenient check of the mass completion *)

(** C1, at the failing input: with [mass_2] alone and [require_add]
    false, the call does not return its input; it raises [KeyError] on
    the missing ["mass_ratio"]. *)
Theorem lenient_completion_raises_with_mass_2_alone :
  fst (generate_component_masses 0 false false
         (world_of [point [("mass_2", vfloat 1)]]))
  = Err (Exn KeyError "mass_ratio").
Proof. reflexivity. Qed.

(** The same input with [mass_1] in place of [mass_2] is returned as it
    is, and the input with [mass_ratio] alone too. *)
Lemma lenient_completion_returns_other_insufficient_inputs :
  fst (generate_component_masses 0 false false
         (world_of [point [("mass_1", vfloat 1)]])) = Ok 0%nat
  /\ fst (generate_component_masses 0 false false
            (world_of [point [("mass_ratio", vfloat 0.5)]])) = Ok 0%nat.
Proof. split; reflexivity. Qed.

(** In strict mode the three inputs raise the documented error. *)
Lemma strict_completion_raises_on_insufficient_inputs :
  let insufficient :=
    Err (Exn KeyError "Insufficient mass parameters in input dictionary") in
  fst (generate_component_masses 0 true false
         (world_of [point [("mass_1", vfloat 1)]])) = insufficient
  /\ fst (generate_component_masses 0 true false
            (world_of [point [("mass_2", vfloat 1)]])) = insufficient
  /\ fst (generate_component_masses 0 true false
            (world_of [point [("mass_ratio", vfloat 0.5)]])) = insufficient.
Proof. repeat split; reflexivity. Qed.

(** ** The default tidal deformabilities *)

Lemma bind_ok_inv {A B : Type} (m : M A) (f : A -> M B) w b w2 :
  bind m f w = (Ok b, w2) ->
  exists a w1, m w = (Ok a, w1) /\ f a w1 = (Ok b, w2).
Proof.
  unfold bind. destruct (m w) as [[a | e] w1]; [eauto | discriminate].
Qed.

Lemma keys_ok_inv r w ks w' :
  keys r w = (Ok ks, w') ->
  w' = w /\ exists o, obj_at w r = Some o /\ shape o <> OtherC
                      /\ ks = dict_keys (items o).
Proof.
  unfold keys, bind, deref. destruct (obj_at w r) as [o |]; [| discriminate].
  destruct (shape o) eqn:E; simpl; intros H; inversion H; subst;
    (split; [reflexivity |]); exists o; rewrite E;
    repeat split; discriminate.
Qed.

Lemma substring_all (s : string) (m : nat) :
  (String.length s <= m)%nat -> substring 0 m s = s.
Proof.
  revert m. induction s as [| c s IH]; intros [| m] H; simpl in *;
    try reflexivity; try lia.
  f_equal. apply IH. lia.
Qed.

Lemma substring_split (s : string) (n m : nat) :
  (String.length s <= n + m)%nat ->
  substring 0 n s ++ substring n m s = s.
Proof.
  revert n. induction s as [| c s IH]; intros n H.
  - destruct n, m; reflexivity.
  - destruct n as [| n].
    + simpl in H. rewrite (substring_all (String c s) m) by (simpl; lia).
      reflexivity.
    + simpl. f_equal. apply IH. simpl in H. lia.
Qed.

Lemma source_key_split (k : string) :
  drop_last_chars 7 k ++ last_chars 7 k = k.
Proof. unfold drop_last_chars, last_chars. apply substring_split. lia. Qed.

Lemma key_in_In k ks : key_in k ks = true -> In k ks.
Proof.
  unfold key_in. rewrite existsb_exists. intros (x & Hx & E).
  apply String.eqb_eq in E. now subst.
Qed.

Lemma dict_mem_keys d k : In k (dict_keys d) -> dict_mem d k = true.
Proof.
  unfold dict_mem. induction d as [| [k0 v0] d IH]; simpl;
      [intros [] |].
  intros [-> | H]; [now rewrite String.eqb_refl |].
  destruct (String.eqb k0 k); auto.
Qed.

Lemma no_tidal_key_good o : no_tidal_key o -> good non_tidal o.
Proof.
  intros Ho k Hk. unfold non_tidal.
  destruct (key_in k _) eqn:E; [| reflexivity].
  apply key_in_In in E. rewrite (Ho k E) in Hk. discriminate.
Qed.

Lemma good_no_tidal_key o : good non_tidal o -> no_tidal_key o.
Proof.
  intros Ho k Hk. destruct (dict_mem (items o) k) eqn:E; [| reflexivity].
  apply Ho in E. unfold tidal_keys in Hk. simpl in Hk.
  repeat (destruct Hk as [<- | Hk]; [discriminate E |]). contradiction.
Qed.

Lemma no_tidal_source_key_ok o :
  no_tidal_source_key o ->
  Forall (source_key_ok non_tidal) (dict_keys (items o)).
Proof.
  intros Ho. apply Forall_forall. intros k Hk Hsuffix. unfold non_tidal.
  destruct (key_in (drop_last_chars 7 k) _) eqn:E; [| reflexivity].
  apply key_in_In in E. fold tidal_keys in E.
  pose proof (Ho _ E) as Hno.
  rewrite <- Hsuffix, source_key_split in Hno.
  rewrite (dict_mem_keys _ _ Hk) in Hno. discriminate.
Qed.

(** The black-hole conversion of a sample without tidal keys and without
    their source-frame names returns a sample without tidal keys. *)
Lemma black_hole_conversion_adds_no_tidal_key
    (c : ref) (w : world) (o : object) converted added w1 :
  obj_at w c = Some o -> no_tidal_key o -> no_tidal_source_key o ->
  convert_to_lal_binary_black_hole_parameters c w
  = (Ok (converted, added), w1) ->
  exists o1, obj_at w1 converted = Some o1 /\ shape o1 <> OtherC
             /\ no_tidal_key o1.
Proof.
  intros Ho Hno Hsrc Hrun.
  set (protected := fun r : ref => (r < List.length (heap w))%nat).
  assert (Hi : inv non_tidal protected (heap w) w).
  { split; [lia |]. split; [reflexivity |]. intros r o' Hr Hat.
    apply obj_at_valid in Hat. contradiction. }
  assert (Hc : readable non_tidal protected (heap w) c).
  { intros o' _ Ho'. unfold obj_at in Ho. rewrite Ho in Ho'.
    inversion Ho'; subst. now apply no_tidal_key_good. }
  assert (HP : source_keys_ok non_tidal c w).
  { intros o' Ho'. rewrite Ho in Ho'. inversion Ho'; subst.
    now apply no_tidal_source_key_ok. }
  pose proof (safe_convert_to_lal_binary_black_hole_parameters non_tidal
                protected (heap w) (fun r H => H) c
                ltac:(unfold bbh_keys; simpl; intros k Hk;
                      repeat (destruct Hk as [<- | Hk]; [reflexivity |]);
                      contradiction)
                Hc w Hi HP) as Hsafe.
  rewrite Hrun in Hsafe. destruct Hsafe as [(_ & _ & Hgood) Hw].
  unfold convert_to_lal_binary_black_hole_parameters in Hrun.
  repeat (apply bind_ok_inv in Hrun; cbv beta in Hrun;
          destruct Hrun as (? & ? & ? & Hrun)).
  inversion Hrun; subst.
  match goal with
  | H : keys converted _ = (Ok _, _) |- _ =>
      apply keys_ok_inv in H; destruct H as (-> & o1 & Ho1 & Hshape & _)
  end.
  exists o1. split; [assumption |]. split; [assumption |].
  apply good_no_tidal_key. exact (Hgood converted o1 Hw Ho1).
Qed.

(** *** Runs of the store operations on a known object *)

Lemma run_bind {A B : Type} (m : M A) (f : A -> M B) (w : world) :
  bind m f w
  = match m w with
    | (Ok a, w') => f a w'
    | (Err e, w') => (Err e, w')
    end.
Proof. reflexivity. Qed.

Lemma obj_at_alloc (w : world) (o : object) :
  obj_at (set_heap (heap w ++ [o]) w) (List.length (heap w)) = Some o.
Proof.
  unfold obj_at. simpl. rewrite nth_error_app2 by lia.
  now rewrite Nat.sub_diag.
Qed.

Lemma copy_run (w : world) (r : ref) (o : object) :
  obj_at w r = Some o ->
  copy r w = (Ok (List.length (heap w)), set_heap (heap w ++ [o]) w).
Proof. intros Ho. unfold copy, bind, deref. now rewrite Ho. Qed.

Lemma keys_run (w : world) (r : ref) (o : object) :
  obj_at w r = Some o -> shape o <> OtherC ->
  keys r w = (Ok (dict_keys (items o)), w).
Proof.
  intros Ho Hs. unfold keys, bind, deref. rewrite Ho.
  destruct (shape o); [reflexivity | reflexivity | contradiction].
Qed.

Lemma contains_run (w : world) (r : ref) (o : object) (k : string) :
  obj_at w r = Some o -> shape o <> OtherC ->
  contains r k w = (Ok (dict_mem (items o) k), w).
Proof.
  intros Ho Hs. unfold contains, bind, deref. rewrite Ho.
  destruct (shape o); [reflexivity | reflexivity | contradiction].
Qed.

Lemma contains_any_run (w : world) (r : ref) (o : object) ks :
  obj_at w r = Some o -> shape o <> OtherC ->
  contains_any r ks w = (Ok (existsb (dict_mem (items o)) ks), w).
Proof.
  intros Ho Hs. unfold contains_any. rewrite run_bind.
  assert (E : map_m (contains r) ks w
              = (Ok (map (dict_mem (items o)) ks), w)).
  { induction ks as [| k ks IH]; simpl; [reflexivity |].
    rewrite run_bind, (contains_run w r o k Ho Hs), run_bind, IH.
    reflexivity. }
  rewrite E. unfold ret.
  replace (existsb (fun b => b) (map (dict_mem (items o)) ks))
    with (existsb (dict_mem (items o)) ks); [reflexivity |].
  clear E. induction ks as [| k ks IH]; simpl; [reflexivity |].
  now rewrite IH.
Qed.

Lemma setitem_run (w : world) (r : ref) (o : object) k v v' :
  obj_at w r = Some o -> stored (shape o) v = Some v' ->
  setitem r k v w
  = (Ok tt,
     set_heap
       (list_update (heap w) r (mkObject (shape o) (dict_set (items o) k v')))
       w).
Proof.
  intros Ho Hv. unfold setitem, bind, deref. rewrite Ho.
  destruct (shape o); [| | discriminate Hv]; cbv iota; rewrite Hv;
    reflexivity.
Qed.

Lemma obj_at_update (w : world) (r : ref) (o o' : object) :
  obj_at w r = Some o ->
  obj_at (set_heap (list_update (heap w) r o') w) r = Some o'.
Proof.
  intros Ho. unfold obj_at in *. simpl. rewrite nth_error_list_update.
  rewrite Nat.eqb_refl, Ho. reflexivity.
Qed.

Lemma stored_scalar (c : container) (x : scalar) :
  c <> OtherC -> exists v, stored c (Scalar x) = Some v.
Proof. destruct c; simpl; eauto. contradiction. Qed.

Lemma dict_get_set_same d k v : dict_get (dict_set d k v) k = Some v.
Proof.
  induction d as [| [k0 v0] d IH]; simpl.
  - now rewrite String.eqb_refl.
  - destruct (String.eqb k0 k) eqn:E; simpl; rewrite E; auto.
Qed.

Lemma dict_get_set_other d k k' v :
  k <> k' -> dict_get (dict_set d k v) k' = dict_get d k'.
Proof.
  intros Hne. induction d as [| [k0 v0] d IH]; simpl.
  - destruct (String.eqb_spec k k'); [contradiction | reflexivity].
  - destruct (String.eqb_spec k0 k) as [-> | Hk]; simpl.
    + destruct (String.eqb_spec k k'); [contradiction | reflexivity].
    + destruct (String.eqb k0 k'); auto.
Qed.

(** C9, as amended: for a sample that contains none of the five tidal
    keys and none of them followed by ["_source"], and on whose copy the
    black-hole base conversion completes, the neutron-star conversion
    returns the converted sample with [lambda_1 = 0] and [lambda_2 = 0]
    stored, and both keys at the end of the added keys. *)
Theorem neutron_star_default_tides
    (parameters : ref) (w : world) (o : object)
    (converted : ref) (added : list string) (w1 : world) :
  obj_at w parameters = Some o ->
  shape o <> OtherC ->
  no_tidal_key o ->
  no_tidal_source_key o ->
  convert_to_lal_binary_black_hole_parameters (List.length (heap w))
    (set_heap (heap w ++ [o]) w) = (Ok (converted, added), w1) ->
  exists w2 o2,
    convert_to_lal_binary_neutron_star_parameters parameters w
    = (Ok (converted, (added ++ ["lambda_1"; "lambda_2"])%list), w2)
    /\ obj_at w2 converted = Some o2
    /\ dict_get (items o2) "lambda_1" = stored (shape o2) (vfloat 0)
    /\ dict_get (items o2) "lambda_2" = stored (shape o2) (vfloat 0).
Proof.
  intros Ho Hshape Hno Hsrc Hbbh.
  destruct (black_hole_conversion_adds_no_tidal_key _ _ o _ _ _
              (obj_at_alloc w o) Hno Hsrc Hbbh)
    as (o1 & Ho1 & Hshape1 & Hno1).
  destruct (stored_scalar (shape o1) (Float 0) Hshape1) as (zero & Hzero).
  unfold convert_to_lal_binary_neutron_star_parameters.
  rewrite run_bind, (copy_run _ _ _ Ho).
  rewrite run_bind, (keys_run _ _ _ (obj_at_alloc w o) Hshape).
  rewrite run_bind, Hbbh.
  rewrite run_bind, (contains_any_run _ _ _ _ Ho1 Hshape1).
  assert (E : existsb (dict_mem (items o1)) tidal_keys = false).
  { unfold tidal_keys in *. simpl.
    rewrite !Hno1 by (simpl; auto 10). reflexivity. }
  rewrite E. cbn [negb].
  rewrite run_bind, (setitem_run _ _ _ _ _ _ Ho1 Hzero).
  rewrite run_bind.
  erewrite setitem_run;
    [| eapply obj_at_update; exact Ho1 | exact Hzero].
  eexists. eexists. split; [reflexivity |].
  split; [eapply obj_at_update, obj_at_update; exact Ho1 |].
  cbn [items shape]. unfold vfloat. rewrite Hzero. split.
  - rewrite dict_get_set_other by discriminate. apply dict_get_set_same.
  - apply dict_get_set_same.
Qed.

(** ** The lenient check, on every sample of the two one-mass branches *)

Lemma getitem_missing (w : world) (r : ref) (o : object) (k : string) :
  obj_at w r = Some o -> shape o <> OtherC -> dict_mem (items o) k = false ->
  getitem r k w = (Err (Exn KeyError k), w).
Proof.
  intros Ho Hs Hk. unfold getitem, bind, deref. rewrite Ho.
  unfold dict_mem in Hk.
  destruct (shape o); [| | contradiction];
    destruct (dict_get (items o) k); try discriminate; reflexivity.
Qed.

Lemma obj_at_after_alloc (w : world) (o : object) (r : ref) (o' : object) :
  obj_at w r = Some o' -> obj_at (set_heap (heap w ++ [o]) w) r = Some o'.
Proof.
  intros H. unfold obj_at in *. simpl. rewrite nth_error_app1; [assumption |].
  apply nth_error_Some. congruence.
Qed.

Section OneMass.

Variables (w : world) (sample : ref) (o : object) (source : bool).
Hypothesis sample_object : obj_at w sample = Some o.
Hypothesis sample_shape : shape o <> OtherC.

Abbreviation mass_1_key := (if source then "mass_1_source" else "mass_1").
Abbreviation mass_2_key := (if source then "mass_2_source" else "mass_2").
Abbreviation total_mass_key :=
  (if source then "total_mass_source" else "total_mass").
Abbreviation chirp_mass_key :=
  (if source then "chirp_mass_source" else "chirp_mass").

(** Nothing besides one component mass: no total mass, no ratio, no
    chirp mass. *)
Hypothesis no_total : dict_mem (items o) total_mass_key = false.
Hypothesis no_ratio : dict_mem (items o) "mass_ratio" = false.
Hypothesis no_symmetric :
  dict_mem (items o) "symmetric_mass_ratio" = false.
Hypothesis no_chirp : dict_mem (items o) chirp_mass_key = false.

Ltac run_contains :=
  rewrite run_bind;
  erewrite contains_run;
  [| apply obj_at_after_alloc; exact sample_object | exact sample_shape].

Ltac start_run :=
  unfold generate_component_masses;
  rewrite run_bind, (copy_run _ _ _ sample_object); cbv zeta.

(** With [mass_1] alone the lenient call returns its input. *)
Lemma lenient_mass_1_branch_returns_input :
  dict_mem (items o) mass_1_key = true ->
  dict_mem (items o) mass_2_key = false ->
  fst (generate_component_masses sample false source w) = Ok sample.
Proof using sample_object sample_shape no_total no_ratio no_symmetric
  no_chirp.
  intros H1 H2. start_run.
  destruct source;
    run_contains; rewrite H1;
    run_contains; rewrite H2;
    run_contains; rewrite no_total;
    run_contains; rewrite no_ratio;
    run_contains; rewrite no_symmetric;
    run_contains; rewrite no_chirp;
    reflexivity.
Qed.

(** With [mass_2] alone the lenient call raises on the missing
    ["mass_ratio"], and the strict call raises the documented error. *)
Lemma lenient_mass_2_branch_raises :
  dict_mem (items o) mass_1_key = false ->
  dict_mem (items o) mass_2_key = true ->
  fst (generate_component_masses sample false source w)
  = Err (Exn KeyError "mass_ratio")
  /\ fst (generate_component_masses sample true source w)
     = Err (Exn KeyError
              "Insufficient mass parameters in input dictionary").
Proof using sample_object sample_shape no_total no_ratio no_symmetric
  no_chirp.
  intros H1 H2. split; start_run;
    destruct source;
    run_contains; rewrite H1;
    run_contains; rewrite H2;
    run_contains; rewrite no_total;
    run_contains; rewrite no_ratio;
    run_contains; rewrite no_symmetric;
    run_contains; rewrite no_chirp;
    try reflexivity;
    rewrite run_bind; cbn [check_and_return_quietly ret];
    rewrite run_bind;
    erewrite getitem_missing;
    try reflexivity;
    try apply obj_at_alloc; assumption.
Qed.

End OneMass.

(** ** The reconstruction cache *)

Lemma Reqb_spec x y : reflect (x = y) (Reqb x y).
Proof. unfold Reqb. destruct (Req_dec_T x y); now constructor. Qed.

Lemma scalar_eqb_spec a b : reflect (a = b) (scalar_eqb a b).
Proof.
  destruct a, b; simpl; try (constructor; congruence).
  - destruct (Reqb_spec x x0); constructor; congruence.
  - destruct (Reqb_spec re re0), (Reqb_spec im im0); simpl; constructor;
      congruence.
  - destruct (String.eqb_spec s s0); constructor; congruence.
  - destruct (Bool.eqb_spec b0 b); constructor; congruence.
Qed.

Lemma list_eqb_spec {A : Type} (eqb : A -> A -> bool) :
  (forall a b, reflect (a = b) (eqb a b)) ->
  forall l1 l2, reflect (l1 = l2) (list_eqb eqb l1 l2).
Proof.
  intros Heq. induction l1 as [| a l1 IH]; intros [| b l2]; simpl;
    try (constructor; congruence).
  destruct (Heq a b), (IH l2); simpl; constructor; congruence.
Qed.

Lemma value_eqb_spec v v' : reflect (v = v') (value_eqb v v').
Proof.
  destruct v, v'; simpl; try (constructor; congruence).
  - destruct (scalar_eqb_spec s s0); constructor; congruence.
  - destruct (list_eqb_spec scalar_eqb scalar_eqb_spec c c0); constructor;
      congruence.
Qed.

(** [DataFrame.equals] is equality of the two tables. *)
Lemma object_equals_spec o1 o2 : reflect (o1 = o2) (object_equals o1 o2).
Proof.
  destruct o1 as [c1 d1], o2 as [c2 d2]. unfold object_equals. simpl.
  assert (Hc : reflect (c1 = c2) (container_eqb c1 c2)).
  { destruct c1, c2; simpl; try (constructor; congruence).
    destruct (Nat.eqb_spec nrows nrows0); constructor; congruence. }
  assert (Hd : forall kv1 kv2 : string * value,
             reflect (kv1 = kv2)
               (String.eqb (fst kv1) (fst kv2)
                && value_eqb (snd kv1) (snd kv2))).
  { intros [k1 v1] [k2 v2]. simpl.
    destruct (String.eqb_spec k1 k2), (value_eqb_spec v1 v2); simpl;
      constructor; congruence. }
  destruct Hc, (list_eqb_spec _ Hd d1 d2); simpl; constructor; congruence.
Qed.

(** *** What the loop asks of the likelihood *)

Lemma draws_ret {A : Type} (a : A) : draws (ret a) [].
Proof.
  intros w a' w' H. inversion H; subst. now rewrite app_nil_r.
Qed.

Lemma draws_bind {A B : Type} (m : M A) (f : A -> M B) rows1 rows2 :
  draws m rows1 -> (forall a, draws (f a) rows2) ->
  draws (bind m f) (rows1 ++ rows2).
Proof.
  intros Hm Hf w b w' H. apply bind_ok_inv in H.
  destruct H as (a & w1 & H1 & H2).
  rewrite (Hf a _ _ _ H2), (Hm _ _ _ H1). now rewrite app_assoc.
Qed.

Lemma draws_bind_nil {A B : Type} (m : M A) (f : A -> M B) rows :
  draws m [] -> (forall a, draws (f a) rows) -> draws (bind m f) rows.
Proof. intros Hm Hf. exact (draws_bind m f [] rows Hm Hf). Qed.

Lemma draws_quiet {A : Type} (m : M A) :
  (forall w, trace (snd (m w)) = trace w) -> draws m [].
Proof.
  intros Hq w a w' H. specialize (Hq w). rewrite H in Hq. simpl in Hq.
  now rewrite Hq, app_nil_r.
Qed.

Lemma draws_lift {A : Type} (r : result A) : draws (lift r) [].
Proof. now apply draws_quiet. Qed.

Lemma draws_raise {A : Type} (e : exn) rows : draws (@raise A e) rows.
Proof. intros w a w' H. discriminate H. Qed.

Lemma draws_deref r : draws (deref r) [].
Proof.
  apply draws_quiet. intros w. unfold deref. now destruct (obj_at w r).
Qed.

Lemma draws_setitem r k v : draws (setitem r k v) [].
Proof.
  apply draws_quiet. intros w. unfold setitem, bind, deref.
  destruct (obj_at w r) as [o |]; [| reflexivity].
  destruct (shape o) as [| n |]; simpl; try reflexivity.
  destruct v as [x | c]; simpl; [reflexivity |].
  match goal with
  | |- context [if ?b then _ else _] => destruct b
  end; reflexivity.
Qed.

Lemma draws_for_each {A : Type} (xs : list A) (body : A -> M unit) :
  (forall x, draws (body x) []) -> draws (for_each xs body) [].
Proof.
  intros Hb. induction xs as [| x xs IH]; simpl.
  - apply draws_ret.
  - apply draws_bind_nil; [apply Hb | intros _; exact IH].
Qed.

Lemma draws_map_m_quiet {A B : Type} (f : A -> M B) (xs : list A) :
  (forall x, draws (f x) []) -> draws (map_m f xs) [].
Proof.
  intros Hf. induction xs as [| x xs IH]; simpl.
  - apply draws_ret.
  - apply draws_bind_nil; [apply Hf | intros y].
    apply draws_bind_nil; [exact IH | intros ys; apply draws_ret].
Qed.

Lemma draws_map_m {A B : Type} (f : nat * A -> M B) (xs : list (nat * A)) :
  (forall x, draws (f x) [fst x]) -> draws (map_m f xs) (map fst xs).
Proof.
  intros Hf. induction xs as [| x xs IH]; simpl.
  - apply draws_ret.
  - apply (draws_bind (f x) _ [fst x] (map fst xs)); [apply Hf | intros y].
    rewrite <- (app_nil_r (map fst xs)).
    apply draws_bind; [exact IH | intros ys; apply draws_ret].
Qed.

Lemma draws_log_draw ii : draws (log_event (PosteriorDraw ii)) [ii].
Proof.
  intros w a w' H. inversion H; subst. simpl. unfold posterior_draws.
  rewrite flat_map_app. reflexivity.
Qed.

Lemma draws_fill_sample args : draws (fill_sample args) [fst args].
Proof.
  destruct args as [ii sample]. unfold fill_sample. simpl fst.
  apply draws_bind_nil.
  { apply draws_quiet. intros w. unfold get_convenience_likelihood.
    now destruct (convenience_likelihood w). }
  intros l. apply draws_bind_nil; [now apply draws_quiet |]. intros _.
  apply (draws_bind _ _ [ii] []); [apply draws_log_draw |]. intros _.
  apply draws_bind_nil; [now apply draws_quiet |]. intros parameters.
  destruct (generate_posterior_sample_from_marginalized_likelihood l
              parameters) as [new_sample parameters'].
  apply draws_bind_nil; [now apply draws_quiet |]. intros _.
  apply draws_bind_nil; [apply draws_lift |]. intros d.
  apply draws_map_m_quiet. intros key.
  destruct (dict_get d key); [apply draws_ret | apply draws_raise].
Qed.

Lemma draws_pool_map {A B : Type} l (task : A -> M B) args rows :
  draws (map_m task args) rows -> draws (pool_map l task args) rows.
Proof.
  intros Hm w bs w' H. unfold pool_map in H.
  destruct (map_m task args (set_convenience_likelihood (Some l) w))
    as [r worker'] eqn:E.
  inversion H; subst. simpl. exact (Hm _ _ _ E).
Qed.

Lemma skipn_seq (k start len : nat) :
  skipn k (seq start len) = seq (start + k) (len - k).
Proof.
  revert start len. induction k as [| k IH]; intros start len.
  - now rewrite Nat.add_0_r, Nat.sub_0_r.
  - destruct len as [| len]; [reflexivity |]. simpl.
    rewrite IH. f_equal. lia.
Qed.

Lemma firstn_seq (k start len : nat) :
  firstn k (seq start len) = seq start (Nat.min k len).
Proof.
  revert start len. induction k as [| k IH]; intros start len;
    [reflexivity |].
  destruct len as [| len]; [reflexivity |]. simpl. now rewrite IH.
Qed.

(** The rows of the block that starts at [ii]. *)
Lemma slice_iterrows_rows (o : object) (ii block : nat) :
  map fst (slice (iterrows o) ii block)
  = seq ii (Nat.min block (object_len o - ii)).
Proof.
  unfold slice, iterrows. rewrite <- firstn_map, <- skipn_map, map_map.
  simpl. rewrite map_id, skipn_seq, firstn_seq. reflexivity.
Qed.

Lemma has_block_set_block bs ii rows k :
  has_block k (set_block bs ii rows) = Nat.eqb ii k || has_block k bs.
Proof.
  induction bs as [| [k0 old] bs IH]; simpl.
  - now rewrite orb_false_r.
  - destruct (Nat.eqb_spec k0 ii) as [-> | Hne]; simpl.
    + destruct (Nat.eqb ii k); reflexivity.
    + rewrite IH. destruct (Nat.eqb k0 k), (Nat.eqb ii k); reflexivity.
Qed.

(** Started at [ii] with no block cached at [ii] or beyond, the loop asks
    for every row from [ii] on. *)
Lemma block_loop_draws_every_row fuel n block compute_block checkpoint :
  (0 < block)%nat ->
  (forall ii, draws (compute_block ii) (seq ii (Nat.min block (n - ii)))) ->
  (forall bs, draws (checkpoint bs) []) ->
  forall ii bs,
    (forall k, has_block k bs = true -> (k < ii)%nat) ->
    draws (block_loop fuel n block compute_block checkpoint ii bs)
      (seq ii (n - ii)).
Proof.
  intros Hblock Hcompute Hcheck.
  induction fuel as [| fuel IH]; intros ii bs Hbs; simpl;
    destruct (Nat.ltb_spec ii n) as [Hlt | Hge];
    try (replace (n - ii)%nat with 0%nat by lia; apply draws_ret).
  - apply draws_raise.
  - destruct (has_block ii bs) eqn:E; [apply Hbs in E; lia |].
    replace (seq ii (n - ii))
      with (seq ii (Nat.min block (n - ii))
            ++ seq (ii + block) (n - (ii + block)))%list.
    + apply draws_bind; [apply Hcompute |]. intros subset.
      apply draws_bind_nil; [apply Hcheck |]. intros _.
      apply IH. intros k Hk. rewrite has_block_set_block in Hk.
      destruct (Nat.eqb_spec ii k) as [Eq | _]; [lia |].
      apply Hbs in Hk. lia.
    + destruct (Nat.le_gt_cases block (n - ii)) as [Hle | Hgt].
      * rewrite Nat.min_l by assumption. rewrite <- seq_app. f_equal. lia.
      * rewrite Nat.min_r by lia.
        replace (n - (ii + block))%nat with 0%nat by lia.
        apply app_nil_r.
Qed.

(** *** Termination of the loop *)

Lemma terminates_bind {A B : Type} (m : M A) (f : A -> M B) :
  terminates m -> (forall a, terminates (f a)) -> terminates (bind m f).
Proof.
  intros Hm Hf w. unfold bind. specialize (Hm w).
  destruct (m w) as [[a | e] w1]; simpl in *; [apply Hf | exact Hm].
Qed.

(** With a positive [block], [n] turns are enough: the loop ends, unless
    the computation of a block or a checkpoint does not. *)
Lemma block_loop_terminates fuel n block compute_block checkpoint :
  (0 < block)%nat ->
  (forall ii, terminates (compute_block ii)) ->
  (forall bs, terminates (checkpoint bs)) ->
  forall ii bs,
    (n - ii <= fuel)%nat ->
    terminates (block_loop fuel n block compute_block checkpoint ii bs).
Proof.
  intros Hblock Hcompute Hcheck.
  induction fuel as [| fuel IH]; intros ii bs Hfuel; simpl;
    destruct (Nat.ltb_spec ii n) as [Hlt | Hge];
    try (intros w; exact I); try lia.
  destruct (has_block ii bs); [apply IH; lia |].
  apply terminates_bind; [apply Hcompute |]. intros subset.
  apply terminates_bind; [apply Hcheck |]. intros _. apply IH. lia.
Qed.

(** With [block = 0] the loop of the source turns forever on a table
    that has a row. *)
Lemma block_loop_diverges_without_progress fuel n compute_block checkpoint
    bs w :
  (0 < n)%nat ->
  (forall ii w, exists rows, compute_block ii w = (Ok rows, w)) ->
  (forall bs w, checkpoint bs w = (Ok tt, w)) ->
  exists msg,
    block_loop fuel n 0 compute_block checkpoint 0 bs w
    = (Err (Exn Diverges msg), w).
Proof.
  intros Hn Hcompute Hcheck. revert bs.
  induction fuel as [| fuel IH]; intros bs; simpl;
    destruct (Nat.ltb_spec 0 n) as [_ | Hge]; try lia.
  - eexists. reflexivity.
  - destruct (has_block 0 bs); [apply IH |].
    destruct (Hcompute 0%nat w) as (rows & Hrows).
    rewrite run_bind, Hrows, run_bind, Hcheck. apply IH.
Qed.

Lemma block_loop_draws_all fuel n block compute_block checkpoint :
  (0 < block)%nat ->
  (forall ii, draws (compute_block ii) (seq ii (Nat.min block (n - ii)))) ->
  (forall bs, draws (checkpoint bs) []) ->
  draws (block_loop fuel n block compute_block checkpoint 0 []) (seq 0 n).
Proof.
  intros Hblock Hcompute Hcheck.
  pose proof (block_loop_draws_every_row fuel n block compute_block
                checkpoint Hblock Hcompute Hcheck 0 []) as H.
  rewrite Nat.sub_0_r in H. apply H. intros k Hk. discriminate Hk.
Qed.

Lemma draws_assign_columns s names rows :
  draws (assign_columns s names rows) [].
Proof.
  unfold assign_columns. apply draws_for_each. intros [ii key].
  apply draws_bind_nil; [| intros col; apply draws_setitem].
  unfold column_of. destruct (all_some _); [apply draws_ret | apply draws_raise].
Qed.

Lemma draws_safe_file_dump c name : draws (safe_file_dump c name) [].
Proof.
  intros w a w' H. inversion H; subst. simpl. unfold posterior_draws.
  rewrite flat_map_app. reflexivity.
Qed.

(** C8: a run of the reconstruction on a table of [n] rows that returns.
    When the cache file holds a table that differs from the table of the
    call, the likelihood is asked for a draw for every row, from the
    first to the last: no block of the file is used.  And when some row
    is not drawn again, the cache file holds a table equal to the table
    of the call. *)
Theorem stale_cache_is_discarded
    (samples : ref) (l : Likelihood) (npool block : nat) (use_cache : bool)
    (w : world) (o : object) (n : nat) (r : ref) (w' : world) :
  obj_at w samples = Some o ->
  shape o = FrameC n ->
  marginalized_parameters_of (Some l) <> [] ->
  (0 < block)%nat ->
  generate_posterior_samples_from_marginalized_likelihood samples (Some l)
    npool block use_cache w = (Ok r, w') ->
  (forall name c,
      cache_filename_of l = Some name ->
      file_get (files w) name = Some (Pickled c) ->
      cached_samples c <> o ->
      posterior_draws (trace w')
      = (posterior_draws (trace w) ++ seq 0 n)%list)
  /\ (posterior_draws (trace w')
      <> (posterior_draws (trace w) ++ seq 0 n)%list ->
      exists name c,
        cache_filename_of l = Some name
        /\ file_get (files w) name = Some (Pickled c)
        /\ cached_samples c = o).
Proof.
  intros Ho Hshape Hmarg Hblock Hrun.
  unfold generate_posterior_samples_from_marginalized_likelihood in Hrun.
  destruct (marginalized_parameters_of (Some l)) as [| p ps] eqn:Em;
    [contradiction |].
  cbn [List.length Nat.eqb] in Hrun.
  apply bind_ok_inv in Hrun. destruct Hrun as (o' & w1 & Hderef & Hrun).
  unfold deref in Hderef. rewrite Ho in Hderef. inversion Hderef; subst o' w1.
  rewrite Hshape in Hrun. cbv zeta in Hrun.
  assert (Hlen : object_len o = n) by (unfold object_len; now rewrite Hshape).
  rewrite Hlen in Hrun.
  apply bind_ok_inv in Hrun. destruct Hrun as (existing & w1 & Hread & Hrun).
  apply bind_ok_inv in Hrun. destruct Hrun as (is_clean & w2 & Hclean & Hrun).
  assert (Hexisting :
            w1 = w
            /\ (existing <> None ->
                exists name, cache_filename_of l = Some name
                             /\ existing = file_get (files w) name)
            /\ (forall name, cache_filename_of l = Some name ->
                             existing = None
                             \/ existing = file_get (files w) name)).
  { destruct (cache_filename_of l) as [name |]; [destruct use_cache |];
      inversion Hread; subst; (split; [reflexivity |]); split;
      try (intros H; now contradiction H);
      try (intros name' E; inversion E; subst; auto).
    intros _. now exists name. }
  destruct Hexisting as (-> & Hsome & Hname).
  inversion Hclean; subst is_clean w2. clear Hread Hclean.
  match type of Hrun with
  | context [block_loop _ _ _ ?compute ?check 0%nat ?bs0] =>
      set (cached_blocks_0 := bs0) in Hrun;
      assert (Hfresh : cached_blocks_0 = [] ->
                       posterior_draws (trace w')
                       = (posterior_draws (trace w) ++ seq 0 n)%list)
  end.
  { intros E. rewrite E in Hrun. revert Hrun.
    apply (draws_bind_nil _ _ (seq 0 n)).
    { destruct (1 <? npool)%nat; [apply draws_ret | now apply draws_quiet]. }
    intros _. rewrite <- (app_nil_r (seq 0 n)).
    apply draws_bind.
    - apply block_loop_draws_all; try assumption.
      + intros ii. rewrite <- Hlen, <- slice_iterrows_rows.
        destruct (1 <? npool)%nat;
          [apply draws_pool_map |]; apply draws_map_m, draws_fill_sample.
      + intros bs. destruct (match cache_filename_of l with
                             | Some _ => use_cache
                             | None => false
                             end);
          [apply draws_safe_file_dump | apply draws_ret].
    - intros bs. apply draws_bind_nil.
      { unfold concatenate. destruct bs; [apply draws_raise | apply draws_ret]. }
      intros new_samples.
      apply draws_bind_nil; [apply draws_assign_columns |].
      intros _. apply draws_ret. }
  subst cached_blocks_0. clear Hrun. split.
  - intros name c Hfile Hget Hne. apply Hfresh.
    destruct (Hname name Hfile) as [-> | ->]; [reflexivity |].
    rewrite Hget. destruct (negb (clean w)); [| reflexivity].
    destruct (object_equals_spec (cached_samples c) o);
      [contradiction | reflexivity].
  - intros Hdiff.
    destruct existing as [f |];
      [| exfalso; apply Hdiff, Hfresh; reflexivity].
    destruct (Hsome ltac:(discriminate)) as (name & Hfile & Hget).
    destruct (negb (clean w));
      [| exfalso; apply Hdiff, Hfresh; reflexivity].
    destruct f as [| c]; [exfalso; apply Hdiff, Hfresh; reflexivity |].
    destruct (object_equals_spec (cached_samples c) o) as [Heq | Hne].
    + exists name, c. auto.
    + exfalso. apply Hdiff, Hfresh. reflexivity.
Qed.

(** ** The check of the equation-of-state family *)

(** X11: the check integrates up to eight stars and stops after the first
    whose mass does not exceed the mass before it; it returns [True]
    exactly when the eighth star is reached, that is when each of the
    first seven masses exceeds the one before.  The mass of the eighth
    star is computed and compared, and has no effect on the result. *)
Theorem eos_family_physical_check_is_monotonicity (e : eos) :
  eos_family_physical_check e = true
  <-> forall i, (i < 6)%nat ->
                integrate_TOV_mass e i < integrate_TOV_mass e (S i).
Proof.
  unfold eos_family_physical_check. cbn [tov_masses_until_break].
  unfold Rleb. split.
  - intros H.
    repeat match type of H with
           | context [Rle_dec ?a ?b] =>
               destruct (Rle_dec a b); [discriminate H |]
           end.
    intros i Hi. do 6 (destruct i as [| i]; [lra |]). lia.
  - intros H.
    pose proof (H 0%nat ltac:(lia)). pose proof (H 1%nat ltac:(lia)).
    pose proof (H 2%nat ltac:(lia)). pose proof (H 3%nat ltac:(lia)).
    pose proof (H 4%nat ltac:(lia)). pose proof (H 5%nat ltac:(lia)).
    repeat match goal with
           | |- context [Rle_dec ?a ?b] =>
               destruct (Rle_dec a b); [try lra |]
           end;
      reflexivity.
Qed.

(** ** The reconstruction: files, restart and the block size *)

Lemma reconstruction_on_a_table samples l npool block use_cache w o n :
  obj_at w samples = Some o -> shape o = FrameC n ->
  marginalized_parameters_of (Some l) <> [] ->
  generate_posterior_samples_from_marginalized_likelihood samples (Some l)
    npool block use_cache w
  = reconstruction_of_blocks samples l npool block use_cache o
      (loaded_blocks l use_cache w o) w.
Proof.
  intros Ho Hshape Hm.
  unfold generate_posterior_samples_from_marginalized_likelihood.
  destruct (marginalized_parameters_of (Some l)) as [| p ps] eqn:Em;
    [contradiction |].
  cbn [List.length Nat.eqb].
  rewrite run_bind. unfold deref at 1. rewrite Ho, Hshape. cbv zeta.
  unfold reconstruction_of_blocks, loaded_blocks, caching, cache_name.
  rewrite Em.
  destruct (cache_filename_of l) as [name |]; [destruct use_cache |];
    rewrite run_bind; unfold read_file, ret, get_clean;
    rewrite run_bind; try reflexivity.
  destruct (file_get (files w) name) as [[| c] |]; try reflexivity;
    destruct (negb (clean w)); reflexivity.
Qed.

(** *** Files *)

Lemma keeps_files_ret {A : Type} (a : A) : keeps_files (ret a).
Proof. now intros w. Qed.

Lemma keeps_files_raise {A : Type} (e : exn) : keeps_files (@raise A e).
Proof. now intros w. Qed.

Lemma keeps_files_lift {A : Type} (r : result A) : keeps_files (lift r).
Proof. now intros w. Qed.

Lemma keeps_files_bind {A B : Type} (m : M A) (f : A -> M B) :
  keeps_files m -> (forall a, keeps_files (f a)) -> keeps_files (bind m f).
Proof.
  intros Hm Hf w. unfold bind. specialize (Hm w).
  destruct (m w) as [[a | e] w1]; simpl in *; [| exact Hm].
  now rewrite Hf.
Qed.

Lemma keeps_files_map_m {A B : Type} (f : A -> M B) (xs : list A) :
  (forall x, keeps_files (f x)) -> keeps_files (map_m f xs).
Proof.
  intros Hf. induction xs as [| x xs IH]; simpl.
  - apply keeps_files_ret.
  - apply keeps_files_bind; [apply Hf | intros y].
    apply keeps_files_bind; [exact IH | intros ys; apply keeps_files_ret].
Qed.

Lemma keeps_files_for_each {A : Type} (xs : list A) (body : A -> M unit) :
  (forall x, keeps_files (body x)) -> keeps_files (for_each xs body).
Proof.
  intros Hb. induction xs as [| x xs IH]; simpl.
  - apply keeps_files_ret.
  - apply keeps_files_bind; [apply Hb | intros _; exact IH].
Qed.

Lemma keeps_files_setitem r k v : keeps_files (setitem r k v).
Proof.
  intros w. unfold setitem, bind, deref.
  destruct (obj_at w r) as [o |]; [| reflexivity].
  destruct (shape o) as [| n |]; simpl; try reflexivity.
  destruct v as [x | c]; simpl; [reflexivity |].
  match goal with
  | |- context [if ?b then _ else _] => destruct b
  end; reflexivity.
Qed.

Lemma keeps_files_fill_sample args : keeps_files (fill_sample args).
Proof.
  destruct args as [ii sample]. unfold fill_sample.
  apply keeps_files_bind.
  { intros w. unfold get_convenience_likelihood.
    now destruct (convenience_likelihood w). }
  intros l. apply keeps_files_bind; [now intros w |]. intros _.
  apply keeps_files_bind; [now intros w |]. intros _.
  apply keeps_files_bind; [now intros w |]. intros parameters.
  destruct (generate_posterior_sample_from_marginalized_likelihood l
              parameters) as [new_sample parameters'].
  apply keeps_files_bind; [now intros w |]. intros _.
  apply keeps_files_bind; [apply keeps_files_lift |]. intros d.
  apply keeps_files_map_m. intros key.
  destruct (dict_get d key); [apply keeps_files_ret | apply keeps_files_raise].
Qed.

Lemma keeps_files_pool_map {A B : Type} l (task : A -> M B) args :
  keeps_files (pool_map l task args).
Proof.
  intros w. unfold pool_map.
  now destruct (map_m task args (set_convenience_likelihood (Some l) w)).
Qed.

Lemma keeps_files_assign_columns s names rows :
  keeps_files (assign_columns s names rows).
Proof.
  unfold assign_columns. apply keeps_files_for_each. intros [ii key].
  apply keeps_files_bind.
  - unfold column_of. destruct (all_some _);
      [apply keeps_files_ret | apply keeps_files_raise].
  - intros col. apply keeps_files_setitem.
Qed.

Lemma keeps_files_concatenate bs : keeps_files (concatenate bs).
Proof.
  unfold concatenate. destruct bs; [apply keeps_files_raise | apply keeps_files_ret].
Qed.

Lemma keeps_files_block_loop fuel n block compute_block checkpoint :
  (forall ii, keeps_files (compute_block ii)) ->
  (forall bs, keeps_files (checkpoint bs)) ->
  forall ii bs,
    keeps_files (block_loop fuel n block compute_block checkpoint ii bs).
Proof.
  intros Hc Hk. induction fuel as [| fuel IH]; intros ii bs; simpl;
    destruct (ii <? n)%nat; try apply keeps_files_ret;
    [apply keeps_files_raise |].
  destruct (has_block ii bs); [apply IH |].
  apply keeps_files_bind; [apply Hc | intros rows].
  apply keeps_files_bind; [apply Hk | intros _; apply IH].
Qed.

Lemma file_get_set_same fs name f : file_get (file_set fs name f) name = Some f.
Proof.
  induction fs as [| [n0 f0] fs IH]; simpl.
  - now rewrite String.eqb_refl.
  - destruct (String.eqb n0 name) eqn:E; simpl; rewrite E; auto.
Qed.

(** *** The parts of the reconstruction *)

Lemma draws_reconstruction_of_blocks samples l npool block use_cache o :
  (0 < block)%nat ->
  draws (reconstruction_of_blocks samples l npool block use_cache o [])
    (seq 0 (object_len o)).
Proof.
  intros Hblock. unfold reconstruction_of_blocks. cbv zeta.
  apply draws_bind_nil.
  { destruct (1 <? npool)%nat; [apply draws_ret | now apply draws_quiet]. }
  intros _. rewrite <- (app_nil_r (seq 0 (object_len o))).
  apply draws_bind.
  - apply block_loop_draws_all; try assumption.
    + intros ii. rewrite <- slice_iterrows_rows.
      destruct (1 <? npool)%nat;
        [apply draws_pool_map |]; apply draws_map_m, draws_fill_sample.
    + intros bs. destruct (caching l use_cache);
        [apply draws_safe_file_dump | apply draws_ret].
  - intros bs. apply draws_bind_nil.
    { unfold concatenate. destruct bs; [apply draws_raise | apply draws_ret]. }
    intros new_samples.
    apply draws_bind_nil; [apply draws_assign_columns |].
    intros _. apply draws_ret.
Qed.

Lemma keeps_files_compute_block l npool (args : list (nat * dict)) :
  keeps_files (if (1 <? npool)%nat then pool_map l fill_sample args
               else map_m fill_sample args).
Proof.
  destruct (1 <? npool)%nat; [apply keeps_files_pool_map |].
  apply keeps_files_map_m, keeps_files_fill_sample.
Qed.

Lemma keeps_files_reconstruction_of_blocks samples l npool block use_cache o
    bs0 :
  caching l use_cache = false ->
  keeps_files (reconstruction_of_blocks samples l npool block use_cache o bs0).
Proof.
  intros Hc. unfold reconstruction_of_blocks. cbv zeta.
  rewrite Hc.
  apply keeps_files_bind.
  { destruct (1 <? npool)%nat; [apply keeps_files_ret | now intros w]. }
  intros _. apply keeps_files_bind.
  - apply keeps_files_block_loop.
    + intros ii. apply keeps_files_compute_block.
    + intros bs. apply keeps_files_ret.
  - intros bs. apply keeps_files_bind; [apply keeps_files_concatenate |].
    intros rows. apply keeps_files_bind; [apply keeps_files_assign_columns |].
    intros _. apply keeps_files_ret.
Qed.

(** *** Restart from the cache *)

Lemma block_loop_covers fuel n block compute_block checkpoint :
  (0 < block)%nat ->
  forall ii bs w bs' w',
    block_loop fuel n block compute_block checkpoint ii bs w = (Ok bs', w') ->
    (forall k, has_block k bs = true -> has_block k bs' = true)
    /\ (forall j, (ii + j * block < n)%nat ->
                   has_block (ii + j * block) bs' = true).
Proof.
  intros Hblock. induction fuel as [| fuel IH]; intros ii bs w bs' w' H;
    simpl in H; destruct (Nat.ltb_spec ii n) as [Hlt | Hge];
    try discriminate H.
  - inversion H; subst. split; [auto |]. intros j Hj. lia.
  - destruct (has_block ii bs) eqn:Hb.
    + apply IH in H. destruct H as [Hext Hcov]. split; [auto |].
      intros [| j] Hj.
      * apply Hext. now rewrite Nat.add_0_r.
      * replace (ii + S j * block)%nat with (ii + block + j * block)%nat
          by (simpl; lia).
        apply Hcov. simpl in Hj. lia.
    + apply bind_ok_inv in H. destruct H as (rows & w1 & _ & H).
      apply bind_ok_inv in H. destruct H as (u & w2 & _ & H).
      apply IH in H. destruct H as [Hext Hcov].
      assert (Hii : has_block ii (set_block bs ii rows) = true)
        by (rewrite has_block_set_block, Nat.eqb_refl; reflexivity).
      split.
      * intros k Hk. apply Hext. rewrite has_block_set_block, Hk.
        apply orb_true_r.
      * intros [| j] Hj.
        -- apply Hext. now rewrite Nat.add_0_r.
        -- replace (ii + S j * block)%nat with (ii + block + j * block)%nat
             by (simpl; lia).
           apply Hcov. simpl in Hj. lia.
  - inversion H; subst. split; [auto |]. intros j Hj. lia.
Qed.

(** With every block start cached, the loop asks for no draw. *)
Lemma block_loop_of_cached_blocks fuel n block compute_block checkpoint bs :
  forall ii,
    (forall j, (ii + j * block < n)%nat ->
               has_block (ii + j * block) bs = true) ->
    forall w, block_loop fuel n block compute_block checkpoint ii bs w
              = (Ok bs, w)
              \/ exists e, block_loop fuel n block compute_block checkpoint
                             ii bs w = (Err e, w).
Proof.
  induction fuel as [| fuel IH]; intros ii Hcov w; simpl;
    destruct (Nat.ltb_spec ii n) as [Hlt | Hge]; try (now left).
  - right. eexists. reflexivity.
  - assert (Hb : has_block ii bs = true).
    { rewrite <- (Nat.add_0_r ii). apply (Hcov 0%nat). simpl. lia. }
    rewrite Hb. apply IH. intros j Hj.
    replace (ii + block + j * block)%nat with (ii + S j * block)%nat
      by (simpl; lia).
    apply Hcov. simpl. lia.
Qed.

Lemma block_loop_keeps_the_cache_file fuel n block compute_block name o :
  (forall ii, keeps_files (compute_block ii)) ->
  forall ii bs w bs' w',
    block_loop fuel n block compute_block
      (fun bs => safe_file_dump (mkCache o bs) name) ii bs w = (Ok bs', w') ->
    (bs' = bs /\ files w' = files w)
    \/ file_get (files w') name = Some (Pickled (mkCache o bs')).
Proof.
  intros Hc. induction fuel as [| fuel IH]; intros ii bs w bs' w' H;
    simpl in H; destruct (ii <? n)%nat; try discriminate H;
    try (inversion H; subst; now left).
  destruct (has_block ii bs); [now apply IH in H |].
  apply bind_ok_inv in H. destruct H as (rows & w1 & Hcomp & H).
  apply bind_ok_inv in H. destruct H as (u & w2 & Hdump & H).
  assert (Hfile : file_get (files w2) name
                  = Some (Pickled (mkCache o (set_block bs ii rows)))).
  { unfold safe_file_dump, bind, log_event in Hdump. inversion Hdump; subst.
    simpl. apply file_get_set_same. }
  apply IH in H. destruct H as [[-> Hf] | Hf]; right; [| exact Hf].
  now rewrite Hf.
Qed.

Lemma loaded_blocks_are_in_the_file l use_cache w o :
  loaded_blocks l use_cache w o = []
  \/ file_get (files w) (cache_name l)
     = Some (Pickled (mkCache o (loaded_blocks l use_cache w o))).
Proof.
  unfold loaded_blocks. destruct (caching l use_cache); [| now left].
  destruct (file_get (files w) (cache_name l)) as [[| c] |]; try now left.
  destruct (negb (clean w)); simpl; [| now left].
  destruct (object_equals_spec (cached_samples c) o) as [<- | _];
    [| now left].
  right. now destruct c.
Qed.

Lemma loaded_blocks_of_a_current_cache l w o bs name :
  cache_filename_of l = Some name ->
  file_get (files w) name = Some (Pickled (mkCache o bs)) ->
  clean w = false ->
  loaded_blocks l true w o = bs.
Proof.
  intros Hname Hfile Hclean.
  unfold loaded_blocks, caching, cache_name. rewrite Hname, Hfile, Hclean.
  simpl. now destruct (object_equals_spec o o).
Qed.

Lemma reconstruction_of_cached_blocks samples l npool block use_cache o bs :
  (forall j, (j * block < object_len o)%nat -> has_block (j * block) bs = true) ->
  draws (reconstruction_of_blocks samples l npool block use_cache o bs) [].
Proof.
  intros Hcov. unfold reconstruction_of_blocks. cbv zeta.
  apply draws_bind_nil.
  { destruct (1 <? npool)%nat; [apply draws_ret | now apply draws_quiet]. }
  intros _. apply draws_bind_nil.
  - intros w bs' w' H.
    match type of H with
    | block_loop ?f ?n ?b ?c ?k _ _ _ = _ =>
        destruct (block_loop_of_cached_blocks f n b c k bs 0%nat Hcov w)
          as [E | [e E]]
    end; rewrite E in H; inversion H; subst. now rewrite app_nil_r.
  - intros bs'. apply draws_bind_nil.
    { unfold concatenate. destruct bs'; [apply draws_raise | apply draws_ret]. }
    intros new_samples.
    apply draws_bind_nil; [apply draws_assign_columns |].
    intros _. apply draws_ret.
Qed.

Lemma reconstruction_leaves_a_complete_cache samples l npool block o bs0 w r
    w' name :
  (0 < block)%nat ->
  cache_filename_of l = Some name ->
  bs0 = [] \/ file_get (files w) name = Some (Pickled (mkCache o bs0)) ->
  reconstruction_of_blocks samples l npool block true o bs0 w = (Ok r, w') ->
  exists bs,
    file_get (files w') name = Some (Pickled (mkCache o bs))
    /\ forall j, (j * block < object_len o)%nat ->
                 has_block (j * block) bs = true.
Proof.
  intros Hblock Hname Hinv H.
  unfold reconstruction_of_blocks in H. cbv zeta in H.
  unfold caching, cache_name in H. rewrite Hname in H.
  apply bind_ok_inv in H. destruct H as (u & w0 & Hsetup & H).
  assert (Hw0 : files w0 = files w).
  { destruct (1 <? npool)%nat; inversion Hsetup; reflexivity. }
  apply bind_ok_inv in H. destruct H as (bs & w1 & Hloop & H).
  apply bind_ok_inv in H. destruct H as (rows & w2 & Hcat & H).
  apply bind_ok_inv in H. destruct H as (u' & w3 & Hassign & H).
  inversion H; subst r w3. clear H.
  assert (Hbs : bs <> []).
  { intros ->. discriminate Hcat. }
  assert (Hw2 : w2 = w1).
  { unfold concatenate in Hcat. destruct bs; [discriminate |].
    now inversion Hcat. }
  subst w2.
  pose proof (keeps_files_assign_columns samples
                (marginalized_parameters_of (Some l)) rows w1) as Hfa.
  rewrite Hassign in Hfa. simpl in Hfa.
  exists bs. split.
  - rewrite Hfa.
    apply block_loop_keeps_the_cache_file in Hloop;
      [| intros ii; apply keeps_files_compute_block].
    destruct Hloop as [[-> Hf] | Hf]; [| exact Hf].
    rewrite Hf, Hw0. destruct Hinv as [-> | Hfile];
      [now contradiction Hbs | exact Hfile].
  - apply block_loop_covers in Hloop; [| assumption].
    destruct Hloop as [_ Hcov]. exact (fun j => Hcov j).
Qed.

(** X12: a run with the cache on that returns leaves a cache file that
    holds the table of the call, and a later run on an equal table, with
    the same block size, that finds this file and no [clean] flag, asks
    the likelihood for no draw at all. *)
Theorem reconstruction_restarts_from_its_cache
    (samples : ref) (l : Likelihood) (npool block : nat) (w : world)
    (o : object) (n : nat) (r : ref) (w' : world) (name : string) :
  obj_at w samples = Some o ->
  shape o = FrameC n ->
  marginalized_parameters_of (Some l) <> [] ->
  (0 < block)%nat ->
  cache_filename_of l = Some name ->
  generate_posterior_samples_from_marginalized_likelihood samples (Some l)
    npool block true w = (Ok r, w') ->
  exists bs,
    file_get (files w') name = Some (Pickled (mkCache o bs))
    /\ forall samples2 npool2 w2 r2 w2',
         obj_at w2 samples2 = Some o ->
         file_get (files w2) name = file_get (files w') name ->
         clean w2 = false ->
         generate_posterior_samples_from_marginalized_likelihood samples2
           (Some l) npool2 block true w2 = (Ok r2, w2') ->
         posterior_draws (trace w2') = posterior_draws (trace w2).
Proof.
  intros Ho Hshape Hm Hblock Hname Hrun.
  rewrite (reconstruction_on_a_table _ _ _ _ _ _ _ _ Ho Hshape Hm) in Hrun.
  assert (Hinv : loaded_blocks l true w o = []
                 \/ file_get (files w) name
                    = Some (Pickled (mkCache o (loaded_blocks l true w o)))).
  { pose proof (loaded_blocks_are_in_the_file l true w o) as H.
    unfold cache_name in H. now rewrite Hname in H. }
  destruct (reconstruction_leaves_a_complete_cache _ _ _ _ _ _ _ _ _ _
              Hblock Hname Hinv Hrun) as (bs & Hfile & Hcov).
  exists bs. split; [exact Hfile |].
  intros samples2 npool2 w2 r2 w2' Ho2 Hsame Hclean Hrun2.
  rewrite (reconstruction_on_a_table _ _ _ _ _ _ _ _ Ho2 Hshape Hm) in Hrun2.
  rewrite Hfile in Hsame.
  rewrite (loaded_blocks_of_a_current_cache l w2 o bs name Hname Hsame Hclean)
    in Hrun2.
  rewrite (reconstruction_of_cached_blocks _ _ _ _ _ _ _ Hcov _ _ _ Hrun2).
  apply app_nil_r.
Qed.

(** X13: the blocks of the cache file are used only with [use_cache], a
    likelihood that has [outdir] and [label], no [clean] flag, and a file
    that exists and is not empty: in a run that returns without one of
    these, every row is drawn. *)
Theorem cache_is_read_only_when_enabled_and_not_clean
    (samples : ref) (l : Likelihood) (npool block : nat) (use_cache : bool)
    (w : world) (o : object) (n : nat) (r : ref) (w' : world) :
  obj_at w samples = Some o ->
  shape o = FrameC n ->
  marginalized_parameters_of (Some l) <> [] ->
  (0 < block)%nat ->
  generate_posterior_samples_from_marginalized_likelihood samples (Some l)
    npool block use_cache w = (Ok r, w') ->
  use_cache = false \/ clean w = true \/ cache_filename_of l = None
  \/ file_get (files w) (cache_name l) = None
  \/ file_get (files w) (cache_name l) = Some EmptyFile ->
  posterior_draws (trace w') = (posterior_draws (trace w) ++ seq 0 n)%list.
Proof.
  intros Ho Hshape Hm Hblock Hrun Hoff.
  rewrite (reconstruction_on_a_table _ _ _ _ _ _ _ _ Ho Hshape Hm) in Hrun.
  assert (E : loaded_blocks l use_cache w o = []).
  { unfold loaded_blocks, caching.
    destruct Hoff as [-> | [Hc | [Hn | [Hf | Hf]]]].
    - now destruct (cache_filename_of l).
    - rewrite Hc. simpl.
      destruct (match cache_filename_of l with Some _ => _ | None => _ end);
        [| reflexivity].
      now destruct (file_get _ _) as [[| c] |].
    - now rewrite Hn.
    - rewrite Hf. now destruct (match cache_filename_of l with
                                | Some _ => _ | None => _ end).
    - rewrite Hf. now destruct (match cache_filename_of l with
                                | Some _ => _ | None => _ end). }
  rewrite E in Hrun.
  assert (Hlen : object_len o = n) by (unfold object_len; now rewrite Hshape).
  rewrite <- Hlen.
  exact (draws_reconstruction_of_blocks _ _ _ _ _ _ Hblock _ _ _ Hrun).
Qed.

(** X14: with [use_cache] false, or with a likelihood without [outdir]
    and [label], the reconstruction writes no file, whatever the sample
    is and whether it returns or raises. *)
Theorem no_file_is_written_when_caching_is_off
    (samples : ref) (likelihood : option Likelihood) (npool block : nat)
    (use_cache : bool) (w : world) :
  use_cache = false
  \/ (forall l, likelihood = Some l -> cache_filename_of l = None) ->
  files (snd (generate_posterior_samples_from_marginalized_likelihood samples
                likelihood npool block use_cache w))
  = files w.
Proof.
  intros Hoff.
  destruct (list_eq_dec string_dec (marginalized_parameters_of likelihood) [])
    as [Em | Em].
  { unfold generate_posterior_samples_from_marginalized_likelihood.
    now rewrite Em. }
  destruct likelihood as [l |]; [| now contradiction Em].
  destruct (obj_at w samples) as [o |] eqn:Ho.
  - destruct (shape o) as [| n |] eqn:Hshape.
    + unfold generate_posterior_samples_from_marginalized_likelihood.
      destruct (marginalized_parameters_of (Some l)); [reflexivity |].
      cbn [List.length Nat.eqb]. unfold bind, deref. now rewrite Ho, Hshape.
    + rewrite (reconstruction_on_a_table _ _ _ _ _ _ _ _ Ho Hshape Em).
      apply keeps_files_reconstruction_of_blocks.
      unfold caching. destruct Hoff as [-> | Hn];
        [now destruct (cache_filename_of l) | now rewrite (Hn l eq_refl)].
    + unfold generate_posterior_samples_from_marginalized_likelihood.
      destruct (marginalized_parameters_of (Some l)); [reflexivity |].
      cbn [List.length Nat.eqb]. unfold bind, deref. now rewrite Ho, Hshape.
  - unfold generate_posterior_samples_from_marginalized_likelihood.
    destruct (marginalized_parameters_of (Some l)); [reflexivity |].
    cbn [List.length Nat.eqb]. unfold bind, deref. now rewrite Ho.
Qed.

Lemma terminates_from_ret {A : Type} P (a : A) : terminates_from P (ret a).
Proof. now intros w H. Qed.

Lemma terminates_from_raise {A : Type} P (e : exn) :
  exn_kind e <> Diverges -> terminates_from P (@raise A e).
Proof. now intros He w H. Qed.

Lemma terminates_from_bind {A B : Type} P (m : M A) (f : A -> M B) :
  terminates_from P m -> (forall a, terminates_from P (f a)) ->
  terminates_from P (bind m f).
Proof.
  intros Hm Hf w H. unfold bind. specialize (Hm w H).
  destruct (m w) as [[a | e] w1]; [now apply Hf | exact Hm].
Qed.

Lemma terminates_from_map_m {A B : Type} P (f : A -> M B) (xs : list A) :
  (forall x, terminates_from P (f x)) -> terminates_from P (map_m f xs).
Proof.
  intros Hf. induction xs as [| x xs IH]; simpl.
  - apply terminates_from_ret.
  - apply terminates_from_bind; [apply Hf | intros y].
    apply terminates_from_bind; [exact IH | intros ys].
    apply terminates_from_ret.
Qed.

Lemma terminates_from_for_each {A : Type} P (xs : list A) (body : A -> M unit) :
  (forall x, terminates_from P (body x)) -> terminates_from P (for_each xs body).
Proof.
  intros Hb. induction xs as [| x xs IH]; simpl.
  - apply terminates_from_ret.
  - apply terminates_from_bind; [apply Hb | intros _; exact IH].
Qed.

Lemma terminates_from_setitem npool l r k v :
  terminates_from (task_likelihood npool l) (setitem r k v).
Proof.
  intros w H. unfold setitem, bind, deref.
  destruct (obj_at w r) as [o |]; [| discriminate].
  destruct (shape o) as [| n |]; simpl; try discriminate; try exact H.
  destruct v as [x | c]; simpl; [exact H |].
  match goal with
  | |- context [if ?b then _ else _] => destruct b
  end; [exact H | discriminate].
Qed.

Lemma terminates_from_fill_sample l args :
  draws_terminate l ->
  terminates_from (fun w => convenience_likelihood w = Some l)
    (fill_sample args).
Proof.
  intros Hl w H. destruct args as [ii sample].
  unfold fill_sample, bind, get_convenience_likelihood. rewrite H.
  cbn [update_likelihood_parameters log_event get_likelihood_parameters].
  match goal with
  | |- context [generate_posterior_sample_from_marginalized_likelihood l ?p] =>
      pose proof (Hl p) as Hp;
      destruct (generate_posterior_sample_from_marginalized_likelihood l p)
        as [[d | e] parameters']
  end; cbn [lift fst] in *; [| now apply Hp].
  match goal with
  | |- context [map_m ?f ?keys0 ?w0] =>
      assert (Hm : forall names, terminates_from
                                   (fun w => convenience_likelihood w = Some l)
                                   (map_m f names))
  end.
  { intros names. apply terminates_from_map_m. intros key.
    destruct (dict_get d key);
      [apply terminates_from_ret | now apply terminates_from_raise]. }
  apply Hm. exact H.
Qed.

Lemma terminates_from_compute_block npool l (args : list (nat * dict)) :
  draws_terminate l ->
  terminates_from (task_likelihood npool l)
    (if (1 <? npool)%nat then pool_map l fill_sample args
     else map_m fill_sample args).
Proof.
  intros Hl w H. unfold task_likelihood in *.
  destruct (1 <? npool)%nat eqn:E.
  - unfold pool_map.
    pose proof (terminates_from_map_m _ fill_sample args
                  (fun x => terminates_from_fill_sample l x Hl)
                  (set_convenience_likelihood (Some l) w) eq_refl) as Hw.
    destruct (map_m fill_sample args (set_convenience_likelihood (Some l) w))
      as [[bs | e] worker']; [now left | exact Hw].
  - destruct H as [H | H]; [discriminate |].
    pose proof (terminates_from_map_m _ fill_sample args
                  (fun x => terminates_from_fill_sample l x Hl) w H) as Hw.
    destruct (map_m fill_sample args w) as [[bs | e] w']; [now right | exact Hw].
Qed.

Lemma block_loop_terminates_from P fuel n block compute_block checkpoint :
  (0 < block)%nat ->
  (forall ii, terminates_from P (compute_block ii)) ->
  (forall bs, terminates_from P (checkpoint bs)) ->
  forall ii bs,
    (n - ii <= fuel)%nat ->
    terminates_from P (block_loop fuel n block compute_block checkpoint ii bs).
Proof.
  intros Hblock Hc Hk. induction fuel as [| fuel IH]; intros ii bs Hfuel;
    simpl; destruct (Nat.ltb_spec ii n) as [Hlt | Hge];
    try apply terminates_from_ret; [lia |].
  assert (Hnext : (n - (ii + block) <= fuel)%nat) by lia.
  destruct (has_block ii bs); [now apply IH |].
  apply terminates_from_bind; [apply Hc | intros rows].
  apply terminates_from_bind; [apply Hk | intros _; now apply IH].
Qed.

Lemma terminates_from_reconstruction_of_blocks samples l npool block use_cache
    o bs0 :
  (0 < block)%nat -> draws_terminate l ->
  terminates_from (fun _ => True)
    (reconstruction_of_blocks samples l npool block use_cache o bs0).
Proof.
  intros Hblock Hl w _. unfold reconstruction_of_blocks. cbv zeta.
  rewrite run_bind.
  assert (Hsetup : exists w0,
             (if (1 <? npool)%nat then ret tt
              else put_convenience_likelihood l) w = (Ok tt, w0)
             /\ task_likelihood npool l w0).
  { unfold task_likelihood. destruct (1 <? npool)%nat; eexists; split;
      try reflexivity; [now left | now right]. }
  destruct Hsetup as (w0 & -> & H0).
  match goal with
  | |- match bind ?m ?f w0 with _ => _ end =>
      assert (Hrest : terminates_from (task_likelihood npool l) (bind m f))
  end.
  { apply terminates_from_bind.
    - apply block_loop_terminates_from; try assumption; try lia.
      + intros ii. now apply terminates_from_compute_block.
      + intros bs. destruct (caching l use_cache);
          [| apply terminates_from_ret].
        intros w1 H1. exact H1.
    - intros bs. apply terminates_from_bind.
      { unfold concatenate. destruct bs;
          [now apply terminates_from_raise | apply terminates_from_ret]. }
      intros rows. apply terminates_from_bind; [| intros _; apply terminates_from_ret].
      unfold assign_columns. apply terminates_from_for_each. intros [ii key].
      apply terminates_from_bind.
      + unfold column_of. destruct (all_some _);
          [apply terminates_from_ret | now apply terminates_from_raise].
      + intros col. apply terminates_from_setitem. }
  specialize (Hrest w0 H0).
  match goal with
  | |- match ?x with _ => _ end => destruct x as [[a | e] w1]
  end; [exact I | exact Hrest].
Qed.

(** With [block = 0] every turn finds [ii = 0]: no fuel is enough. *)
Lemma block_loop_never_ends_without_progress fuel n compute_block checkpoint :
  (0 < n)%nat ->
  (forall w, exists w', compute_block 0%nat w = (Ok [], w')) ->
  (forall bs w, exists w', checkpoint bs w = (Ok tt, w')) ->
  forall bs w,
    exists msg w',
      block_loop fuel n 0 compute_block checkpoint 0 bs w
      = (Err (Exn Diverges msg), w').
Proof.
  intros Hn Hc Hk. induction fuel as [| fuel IH]; intros bs w; simpl;
    destruct (Nat.ltb_spec 0 n) as [_ | Hge]; try lia.
  - eexists _, _. reflexivity.
  - destruct (has_block 0 bs); [apply IH |].
    destruct (Hc w) as (w1 & E1). rewrite run_bind, E1.
    destruct (Hk (set_block bs 0 []) w1) as (w2 & E2). rewrite run_bind, E2.
    apply IH.
Qed.

(** X15: on a table, with a positive [block] the reconstruction ends,
    when the draws of the likelihood do: the loop needs no more turns
    than the table has rows.  With [block = 0] and a table that has a
    row, the loop does not end. *)
Theorem reconstruction_ends_exactly_for_positive_blocks
    (samples : ref) (l : Likelihood) (npool block : nat) (use_cache : bool)
    (w : world) (o : object) (n : nat) :
  obj_at w samples = Some o ->
  shape o = FrameC n ->
  marginalized_parameters_of (Some l) <> [] ->
  let run :=
    generate_posterior_samples_from_marginalized_likelihood samples (Some l)
      npool block use_cache w in
  ((0 < block)%nat -> draws_terminate l ->
   forall e, fst run = Err e -> exn_kind e <> Diverges)
  /\ (block = 0%nat -> (0 < n)%nat ->
      exists msg, fst run = Err (Exn Diverges msg)).
Proof.
  intros Ho Hshape Hm run. subst run.
  rewrite (reconstruction_on_a_table _ _ _ _ _ _ _ _ Ho Hshape Hm).
  split.
  - intros Hblock Hl e He.
    pose proof (terminates_from_reconstruction_of_blocks samples l npool block
                  use_cache o (loaded_blocks l use_cache w o) Hblock Hl w I)
      as Ht.
    destruct (reconstruction_of_blocks _ _ _ _ _ _ _ w) as [[a | e'] w1];
      simpl in He; [discriminate |].
    now inversion He; subst.
  - intros -> Hn. unfold reconstruction_of_blocks. cbv zeta.
    rewrite run_bind.
    assert (Hsetup : exists w0,
               (if (1 <? npool)%nat then ret tt
                else put_convenience_likelihood l) w = (Ok tt, w0)).
    { destruct (1 <? npool)%nat; eexists; reflexivity. }
    destruct Hsetup as (w0 & ->).
    assert (Hlen : object_len o = n) by (unfold object_len; now rewrite Hshape).
    rewrite Hlen, run_bind.
    match goal with
    | |- context [block_loop n n 0 ?c ?k 0 ?bs0 w0] =>
        assert (Hloop : exists msg w1,
                   block_loop n n 0 c k 0 bs0 w0
                   = (Err (Exn Diverges msg), w1))
    end.
    { apply block_loop_never_ends_without_progress; [assumption | |].
      - intros w1. unfold slice. simpl.
        destruct (1 <? npool)%nat; eexists; reflexivity.
      - intros bs w1. destruct (caching l use_cache); eexists; reflexivity. }
    destruct Hloop as (msg & w1 & E). rewrite E. exists msg. reflexivity.
Qed.

(** ** What the completion of the masses adds *)

Lemma hoare_ret {A : Type} (P : world -> Prop) (a : A)
    (Q : A -> world -> Prop) :
  (forall w, P w -> Q a w) -> hoare P (ret a) Q.
Proof. intros H w Hw. now apply H. Qed.

Lemma hoare_raise {A : Type} P (e : exn) (Q : A -> world -> Prop) :
  hoare P (raise e) Q.
Proof. now intros w Hw. Qed.

Lemma hoare_bind {A B : Type} P (m : M A) (f : A -> M B) R Q :
  hoare P m R -> (forall a, hoare (R a) (f a) Q) -> hoare P (bind m f) Q.
Proof.
  intros Hm Hf w Hw. unfold bind. specialize (Hm w Hw).
  destruct (m w) as [[a | e] w1]; [now apply Hf | exact I].
Qed.

Lemma hoare_pure {A : Type} (P : world -> Prop) (phi : Prop) (m : M A) Q :
  (phi -> hoare P m Q) -> hoare (fun w => P w /\ phi) m Q.
Proof. intros H w [Hw Hphi]. now apply H. Qed.

Lemma hoare_weaken {A : Type} (P P' : world -> Prop) (m : M A)
    (Q Q' : A -> world -> Prop) :
  hoare P m Q -> (forall w, P' w -> P w) -> (forall a w, Q a w -> Q' a w) ->
  hoare P' m Q'.
Proof.
  intros H HP HQ w Hw. specialize (H w (HP w Hw)).
  destruct (m w) as [[a | e] w1]; [now apply HQ | exact I].
Qed.

(** An operation that only reads. *)
Lemma hoare_read {A : Type} (P : world -> Prop) (m : M A) :
  (forall w, snd (m w) = w) -> hoare P m (fun _ => P).
Proof.
  intros H w Hw. specialize (H w).
  destruct (m w) as [[a | e] w1]; [| exact I]. simpl in H. now subst.
Qed.

Lemma reads_getitem r k w : snd (getitem r k w) = w.
Proof.
  unfold getitem, bind, deref. destruct (obj_at w r) as [o |]; [| reflexivity].
  destruct (shape o); try reflexivity; now destruct (dict_get (items o) k).
Qed.

Lemma reads_lift {A : Type} (r : result A) w : snd (lift r w) = w.
Proof. reflexivity. Qed.

Lemma dict_keys_set d k v :
  dict_keys (dict_set d k v)
  = if dict_mem d k then dict_keys d else (dict_keys d ++ [k])%list.
Proof.
  unfold dict_keys, dict_mem. induction d as [| [k0 v0] d IH]; simpl;
    [reflexivity |].
  destruct (String.eqb_spec k0 k) as [-> | Hne]; simpl; [reflexivity |].
  rewrite IH. now destruct (dict_get d k).
Qed.

Lemma dict_mem_not_In d k : dict_mem d k = false -> ~ In k (dict_keys d).
Proof.
  intros Hk Hin. apply dict_mem_keys in Hin. congruence.
Qed.

Lemma grew_refl o : grew o o.
Proof.
  split; [reflexivity |]. split; [| auto]. exists []. now rewrite app_nil_r.
Qed.

Lemma grew_trans o1 o2 o3 : grew o1 o2 -> grew o2 o3 -> grew o1 o3.
Proof.
  intros (S1 & (g1 & K1) & N1) (S2 & (g2 & K2) & N2).
  split; [congruence |]. split; [| auto].
  exists (g1 ++ g2)%list. now rewrite K2, K1, app_assoc.
Qed.

Lemma grew_set o k v :
  grew o (mkObject (shape o) (dict_set (items o) k v)).
Proof.
  split; [reflexivity |]. simpl. rewrite dict_keys_set.
  destruct (dict_mem (items o) k) eqn:E.
  - split; [| auto]. exists []. now rewrite app_nil_r.
  - split; [now exists [k] |]. intros Hnd.
    apply NoDup_app; [assumption | repeat constructor; intros [] |].
    intros x Hx [<- | []]. now apply (dict_mem_not_In _ _ E).
Qed.

Lemma extends_refl o : extends o o.
Proof. split; [apply grew_refl | auto]. Qed.

Lemma extends_mem o o' k :
  extends o o' -> dict_mem (items o) k = true -> dict_mem (items o') k = true.
Proof.
  intros [_ H] Hk. unfold dict_mem in *.
  destruct (dict_get (items o) k) as [v |] eqn:E; [| discriminate].
  now rewrite (H k v E).
Qed.

Lemma extends_absent o o' k :
  extends o o' -> dict_mem (items o') k = false -> dict_mem (items o) k = false.
Proof.
  intros He Hk. destruct (dict_mem (items o) k) eqn:E; [| reflexivity].
  now rewrite (extends_mem o o' k He E) in Hk.
Qed.

Lemma extends_trans o1 o2 o3 : extends o1 o2 -> extends o2 o3 -> extends o1 o3.
Proof.
  intros [S1 H1] [S2 H2]. split; [now apply (grew_trans o1 o2) | auto].
Qed.

Section Completing.

Variables (sample : ref) (o : object) (out : ref).
Hypothesis distinct : sample <> out.

Lemma completing_contains_sample ks k :
  hoare (completing sample o out ks) (contains sample k)
    (fun b w => completing sample o out ks w /\ b = dict_mem (items o) k).
Proof.
  intros w H. pose proof H as (Ho & _). unfold contains, bind, deref.
  rewrite Ho. destruct (shape o); try exact I; split; auto.
Qed.

Lemma completing_contains_out ks k :
  hoare (completing sample o out ks) (contains out k)
    (fun b w => completing sample o out (if b then k :: ks else ks) w
                /\ (b = false -> dict_mem (items o) k = false)).
Proof.
  intros w H. pose proof H as (Ho & o' & Ho' & He & Hk).
  unfold contains, bind, deref. rewrite Ho'.
  assert (Hpost : completing sample o out
                    (if dict_mem (items o') k then k :: ks else ks) w
                  /\ (dict_mem (items o') k = false ->
                      dict_mem (items o) k = false)).
  { split; [| now apply extends_absent].
    destruct (dict_mem (items o') k) eqn:Hb; [| exact H].
    split; [exact Ho |]. exists o'.
    split; [exact Ho' |]. split; [exact He |]. now constructor. }
  destruct (shape o'); try exact I; exact Hpost.
Qed.

Lemma completing_read {A : Type} ks (m : M A) :
  (forall w, snd (m w) = w) ->
  hoare (completing sample o out ks) m (fun _ => completing sample o out ks).
Proof. apply hoare_read. Qed.

Lemma completing_setitem ks k v :
  dict_mem (items o) k = false ->
  hoare (completing sample o out ks) (setitem out k v)
    (fun _ => completing sample o out (k :: ks)).
Proof.
  intros Hk w (Ho & o' & Ho' & [Hs He] & Hks).
  unfold setitem, bind, deref. rewrite Ho'.
  assert (Hset : forall c v',
             c = shape o' ->
             completing sample o out (k :: ks)
               (set_heap
                  (list_update (heap w) out
                     (mkObject c (dict_set (items o') k v'))) w)).
  { intros c v' ->. split.
    - unfold obj_at in *. simpl. rewrite nth_error_list_update.
      destruct (Nat.eqb_spec out sample) as [E | _]; [| exact Ho].
      symmetry in E. contradiction.
    - eexists. split; [now apply obj_at_update with (o := o') |].
      split; [split |].
      + apply (grew_trans o o'); [exact Hs | apply grew_set].
      + intros k' v0 Hv0. simpl. rewrite dict_get_set_other; [now apply He |].
        intros <-. unfold dict_mem in Hk. now rewrite Hv0 in Hk.
      + constructor; simpl.
        * rewrite dict_mem_set, String.eqb_refl. reflexivity.
        * unfold has_keys in *. rewrite Forall_forall in *. intros k' Hk'.
          simpl. rewrite dict_mem_set, (Hks k' Hk'). apply orb_true_r. }
  destruct (shape o') eqn:Es; try exact I.
  - simpl. now apply Hset.
  - destruct (stored (FrameC nrows) v) as [v' |]; [| exact I].
    now apply Hset.
Qed.

Lemma completed_input require_add source ks w :
  require_add = false ->
  completing sample o out ks w ->
  completed sample o require_add source sample w.
Proof.
  intros Hr (Ho & _). split; [exact Ho |]. exists o.
  split; [exact Ho |]. split; [apply extends_refl | now left].
Qed.

Lemma completed_output require_add (source : bool) ks w :
  (forall k, In k [if source then "mass_1_source" else "mass_1";
                   if source then "mass_2_source" else "mass_2"] ->
             In k ks \/ dict_mem (items o) k = true) ->
  completing sample o out ks w ->
  completed sample o require_add source out w.
Proof.
  intros Hk (Ho & o' & Ho' & He & Hks). split; [exact Ho |]. exists o'.
  split; [exact Ho' |]. split; [exact He |]. right.
  apply Forall_forall. intros k Hin. destruct (Hk k Hin) as [H | H].
  - unfold has_keys in Hks. rewrite Forall_forall in Hks. now apply Hks.
  - now apply (extends_mem o o').
Qed.

End Completing.

Lemma hoare_assoc {A B C : Type} P (m : M A) (f : A -> M B) (g : B -> M C) Q :
  hoare P (bind m (fun a => bind (f a) g)) Q -> hoare P (bind (bind m f) g) Q.
Proof.
  intros H w Hw. specialize (H w Hw). unfold bind in *.
  now destruct (m w) as [[a | e] w1].
Qed.

Lemma reads_check_and_return_quietly require_add sample w :
  snd (check_and_return_quietly require_add sample w) = w.
Proof. now destruct require_add. Qed.

Ltac read_step :=
  eapply hoare_bind;
  [apply completing_read; intros;
   first [apply reads_getitem | apply reads_check_and_return_quietly
         | reflexivity]
  | intros ?].

Ltac write_step :=
  eapply hoare_bind; [apply completing_setitem; assumption | intros ?].

Ltac test_sample :=
  eapply hoare_bind;
  [apply completing_contains_sample
  | let b := fresh "b" in
    intros b; apply hoare_pure; intros ->;
    match goal with
    | |- context [if dict_mem ?d ?k then _ else _] =>
        let E := fresh "E" in destruct (dict_mem d k) eqn:E
    end].

Ltac test_out :=
  eapply hoare_bind;
  [apply completing_contains_out
  | let b := fresh "b" in
    let Hb := fresh "Hb" in
    intros b; apply hoare_pure; intros Hb; destruct b;
    [clear Hb | specialize (Hb eq_refl)]].

Ltac finish_step :=
  first
    [ apply hoare_raise
    | apply hoare_ret; intros; eapply completed_input;
      [reflexivity | eassumption]
    | apply hoare_ret; intros; eapply completed_output; [| eassumption];
      intros ? Hin; simpl in Hin;
      repeat (destruct Hin as [<- | Hin]; [simpl; auto 10 |]);
      contradiction ].

Ltac complete_step :=
  cbv beta; cbn [negb orb andb];
  first
    [ match goal with
      | |- hoare _ (bind (bind _ _) _) _ => apply hoare_assoc
      end
    | test_sample | test_out | write_step | read_step
    | match goal with
      | |- hoare _ (check_and_return_quietly ?b _) _ =>
          unfold check_and_return_quietly; destruct b
      end
    | finish_step ].

Lemma hoare_generate_component_masses sample o require_add source :
  hoare (fun w => obj_at w sample = Some o)
    (generate_component_masses sample require_add source)
    (completed sample o require_add source).
Proof.
  intros w Ho. unfold generate_component_masses.
  rewrite run_bind, (copy_run _ _ _ Ho).
  assert (Hne : sample <> List.length (heap w)).
  { apply obj_at_valid in Ho. lia. }
  assert (Hstart : completing sample o (List.length (heap w)) []
                     (set_heap (heap w ++ [o]) w)).
  { split; [now apply obj_at_after_alloc |]. exists o.
    split; [apply obj_at_alloc |]. split; [apply extends_refl | constructor]. }
  revert Hstart Hne. generalize (set_heap (heap w ++ [o]) w).
  generalize (List.length (heap w)). intros out w1 Hstart Hne.
  match goal with
  | |- match ?m w1 with _ => _ end =>
      assert (Hh : hoare (completing sample o out []) m
                     (completed sample o require_add source))
  end.
  { cbv zeta. clear Hstart Ho.
    destruct source; repeat complete_step. }
  exact (Hh w1 Hstart).
Qed.

(** X16: when the completion of the masses returns, the sample it was
    given is as it was, and the sample it returns has every key of the
    input with the value of the input: keys are added, none is changed.
    It returns the input itself, which only the lenient mode does, or a
    sample that has both component masses. *)
Theorem mass_completion_only_adds
    (sample : ref) (require_add source : bool) (w : world) (o : object)
    (r : ref) (w' : world) :
  obj_at w sample = Some o ->
  generate_component_masses sample require_add source w = (Ok r, w') ->
  obj_at w' sample = Some o
  /\ exists o',
       obj_at w' r = Some o' /\ extends o o'
       /\ ((r = sample /\ require_add = false)
           \/ has_keys [if source then "mass_1_source" else "mass_1";
                        if source then "mass_2_source" else "mass_2"] o').
Proof.
  intros Ho Hrun.
  pose proof (hoare_generate_component_masses sample o require_add source w Ho)
    as H.
  rewrite Hrun in H. exact H.
Qed.

(** X17: when the generation of the mass parameters returns, the sample
    it was given is as it was, and the sample it returns has every key of
    the input with the value of the input, as the docstring says ([We do
    not recompute keys already present]), and it has the chirp mass, the
    total mass, the symmetric mass ratio and the mass ratio. *)
Theorem mass_parameters_are_added_not_recomputed
    (sample : ref) (source : bool) (w : world) (o : object)
    (r : ref) (w' : world) :
  obj_at w sample = Some o ->
  generate_mass_parameters sample source w = (Ok r, w') ->
  obj_at w' sample = Some o
  /\ exists o',
       obj_at w' r = Some o' /\ extends o o'
       /\ has_keys [if source then "chirp_mass_source" else "chirp_mass";
                    if source then "total_mass_source" else "total_mass";
                    "symmetric_mass_ratio"; "mass_ratio"] o'.
Proof.
  intros Ho Hrun. unfold generate_mass_parameters in Hrun.
  apply bind_ok_inv in Hrun. destruct Hrun as (r1 & w1 & Hgcm & Hrun).
  pose proof (hoare_generate_component_masses sample o false source w Ho) as H1.
  rewrite Hgcm in H1. destruct H1 as (Ho1 & o1 & Hr1 & Hext & _).
  rewrite run_bind, (copy_run _ _ _ Hr1) in Hrun.
  assert (Hne : sample <> List.length (heap w1)).
  { apply obj_at_valid in Ho1. lia. }
  assert (Hstart : completing sample o (List.length (heap w1)) []
                     (set_heap (heap w1 ++ [o1]) w1)).
  { split; [now apply obj_at_after_alloc |]. exists o1.
    split; [apply obj_at_alloc |]. split; [exact Hext | constructor]. }
  revert Hrun Hstart Hne. generalize (set_heap (heap w1 ++ [o1]) w1).
  generalize (List.length (heap w1)). intros out w2 Hrun Hstart Hne.
  match type of Hrun with
  | ?m w2 = _ =>
      assert (Hh : hoare (completing sample o out []) m
                     (fun r w =>
                        obj_at w sample = Some o
                        /\ exists o',
                             obj_at w r = Some o' /\ extends o o'
                             /\ has_keys
                                  [if source then "chirp_mass_source"
                                   else "chirp_mass";
                                   if source then "total_mass_source"
                                   else "total_mass";
                                   "symmetric_mass_ratio"; "mass_ratio"] o'))
  end.
  { cbv zeta. clear Hrun Hstart.
    destruct source;
      repeat first
        [ progress (cbv beta; cbn [negb])
        | match goal with
          | |- hoare _ (bind (bind _ _) _) _ => apply hoare_assoc
          | |- hoare _ (bind (ret tt) _) _ =>
              eapply hoare_bind;
              [apply completing_read; reflexivity | intros ?]
          end
        | test_out | write_step | read_step ].
    all: apply hoare_ret; intros w0 (Ho0 & o' & Ho' & He & Hk);
      (split; [exact Ho0 |]); exists o';
      (split; [exact Ho' |]); (split; [exact He |]);
      unfold has_keys in Hk |- *; rewrite Forall_forall in Hk |- *;
      intros k Hin; apply Hk; simpl in Hin |- *;
      repeat (destruct Hin as [Hin | Hin]; [auto 10 |]); contradiction. }
  specialize (Hh w2 Hstart). rewrite Hrun in Hh. exact Hh.
Qed.

(** ** Samples without a sufficient set of mass parameters *)

(** X18: on a sample without a sufficient set of mass parameters the
    strict completion raises the documented [KeyError], after it has made
    its copy; the lenient completion returns the sample it was given,
    except in the branch for [mass_2] without [mass_1]. *)
Theorem insufficient_mass_parameters_are_reported
    (sample : ref) (source : bool) (w : world) (o : object) :
  obj_at w sample = Some o ->
  shape o <> OtherC ->
  sufficient_mass_parameters (items o) source = false ->
  generate_component_masses sample true source w
  = (Err (Exn KeyError "Insufficient mass parameters in input dictionary"),
     set_heap (heap w ++ [o]) w)
  /\ (dict_mem (items o) (if source then "mass_1_source" else "mass_1") = true
      \/ dict_mem (items o) (if source then "mass_2_source" else "mass_2")
         = false ->
      generate_component_masses sample false source w
      = (Ok sample, set_heap (heap w ++ [o]) w)).
Proof.
  intros Ho Hshape Hins.
  assert (Hin : forall k,
             contains sample k (set_heap (heap w ++ [o]) w)
             = (Ok (dict_mem (items o) k), set_heap (heap w ++ [o]) w)).
  { intros k. apply contains_run; [now apply obj_at_after_alloc | assumption]. }
  assert (Hout : forall k,
             contains (List.length (heap w)) k (set_heap (heap w ++ [o]) w)
             = (Ok (dict_mem (items o) k), set_heap (heap w ++ [o]) w)).
  { intros k. apply contains_run; [apply obj_at_alloc | assumption]. }
  unfold sufficient_mass_parameters in Hins. cbv zeta in Hins.
  unfold generate_component_masses.
  rewrite !run_bind, (copy_run _ _ _ Ho). cbv zeta.
  generalize dependent (set_heap (heap w ++ [o]) w).
  generalize (List.length (heap w)). intros out w1 Hin Hout.
  destruct source;
    repeat match type of Hins with
           | context [dict_mem (items o) ?k] =>
               let E := fresh "E" in
               destruct (dict_mem (items o) k) eqn:E
           end;
    try discriminate Hins; clear Hins;
    (split; [| intros [H | H]; try discriminate H]);
    repeat (rewrite run_bind, ?Hin, ?Hout, ?E, ?E0, ?E1, ?E2, ?E3, ?E4;
            cbn [negb orb andb]);
    reflexivity.
Qed.

(** ** The fall-backs of the spin generation *)

Lemma contains_all_run (w : world) (r : ref) (o : object) ks :
  obj_at w r = Some o -> shape o <> OtherC ->
  contains_all r ks w = (Ok (forallb (dict_mem (items o)) ks), w).
Proof.
  intros Ho Hs. induction ks as [| k ks IH]; simpl; [reflexivity |].
  rewrite run_bind, (contains_run w r o k Ho Hs).
  destruct (dict_mem (items o) k); [exact IH | reflexivity].
Qed.

Lemma getitem_run (w : world) (r : ref) (o : object) (k : string) v :
  obj_at w r = Some o -> shape o <> OtherC -> dict_get (items o) k = Some v ->
  getitem r k w = (Ok v, w).
Proof.
  intros Ho Hs Hk. unfold getitem, bind, deref. rewrite Ho, Hk.
  destruct (shape o); [reflexivity | reflexivity | contradiction].
Qed.

(** A point written at [r]: the point has the new value and the rest of
    the world is as it was. *)
Lemma setitem_point (w : world) (r : ref) (d : dict) k v :
  obj_at w r = Some (point d) ->
  exists w',
    setitem r k v w = (Ok tt, w')
    /\ obj_at w' r = Some (point (dict_set d k v))
    /\ trace w' = trace w
    /\ forall r', r' <> r -> obj_at w' r' = obj_at w r'.
Proof.
  intros Ho. eexists. split; [| split; [| split]].
  - now apply (setitem_run w r (point d) k v v).
  - now apply obj_at_update with (o := point d).
  - reflexivity.
  - intros r' Hne. unfold obj_at. simpl. rewrite nth_error_list_update.
    destruct (Nat.eqb_spec r r'); [congruence | reflexivity].
Qed.

(** X19: a point that lacks one of the eleven parameters of the spin
    conversion.  The generation of the component spins does not call the
    frame transform and leaves the point as it was.  With [chi_1] and
    [chi_2] it returns a copy whose in-plane components are 0 and whose
    [z] components are [chi_1] and [chi_2], every other key as in the
    input; without one of them it returns a plain copy. *)
Theorem component_spins_fall_back
    (sample : ref) (w : world) (d : dict) :
  obj_at w sample = Some (point d) ->
  forallb (dict_mem d) spin_conversion_parameters = false ->
  let run := generate_component_spins sample w in
  trace (snd run) = trace w
  /\ obj_at (snd run) sample = Some (point d)
  /\ (forall chi_1 chi_2,
         dict_get d "chi_1" = Some chi_1 -> dict_get d "chi_2" = Some chi_2 ->
         exists r d',
           fst run = Ok r /\ obj_at (snd run) r = Some (point d')
           /\ dict_get d' "spin_1x" = Some (vfloat 0)
           /\ dict_get d' "spin_1y" = Some (vfloat 0)
           /\ dict_get d' "spin_1z" = Some chi_1
           /\ dict_get d' "spin_2x" = Some (vfloat 0)
           /\ dict_get d' "spin_2y" = Some (vfloat 0)
           /\ dict_get d' "spin_2z" = Some chi_2
           /\ forall k, ~ In k ["spin_1x"; "spin_1y"; "spin_1z"; "spin_2x";
                                "spin_2y"; "spin_2z"] ->
                        dict_get d' k = dict_get d k)
  /\ (dict_mem d "chi_1" && dict_mem d "chi_2" = false ->
      exists r, fst run = Ok r /\ r <> sample
                /\ obj_at (snd run) r = Some (point d)).
Proof.
  intros Ho Hmiss run. subst run.
  assert (Hshape : shape (point d) <> OtherC) by discriminate.
  assert (Hvalid : sample <> List.length (heap w)).
  { apply obj_at_valid in Ho. lia. }
  unfold generate_component_spins.
  rewrite run_bind, (copy_run _ _ _ Ho).
  pose proof (obj_at_alloc w (point d)) as Hout.
  pose proof (obj_at_after_alloc w (point d) sample _ Ho) as Hin.
  assert (Htrace : trace (set_heap (heap w ++ [point d]) w) = trace w)
    by reflexivity.
  revert Hout Hin Htrace. generalize (set_heap (heap w ++ [point d]) w).
  revert Hvalid. generalize (List.length (heap w)).
  intros out Hvalid w1 Hout Hin Htrace.
  rewrite run_bind, (contains_all_run w1 out _ _ Hout Hshape).
  cbn [items point]. rewrite Hmiss.
  rewrite run_bind, (contains_run w1 out _ "chi_1" Hout Hshape).
  cbn [items point].
  assert (Hplain :
            trace (snd (@ret ref out w1)) = trace w
            /\ obj_at (snd (@ret ref out w1)) sample = Some (point d)
            /\ exists r, fst (@ret ref out w1) = Ok r /\ r <> sample
                         /\ obj_at (snd (@ret ref out w1)) r = Some (point d)).
  { cbn. repeat split; try assumption. exists out. repeat split; congruence. }
  destruct (dict_mem d "chi_1") eqn:M1; cbv iota.
  2:{ rewrite run_bind. cbn [ret andb]. destruct Hplain as (Ht & Hi & Hr).
      split; [exact Ht |]. split; [exact Hi |]. split; [| intros _; exact Hr].
      intros c1 c2 Hc1. unfold dict_mem in M1. now rewrite Hc1 in M1. }
  rewrite run_bind, (contains_run w1 out _ "chi_2" Hout Hshape).
  cbn [items point].
  destruct (dict_mem d "chi_2") eqn:M2; cbn [andb].
  2:{ destruct Hplain as (Ht & Hi & Hr).
      split; [exact Ht |]. split; [exact Hi |]. split; [| intros _; exact Hr].
      intros c1 c2 _ Hc2. unfold dict_mem in M2. now rewrite Hc2 in M2. }
  clear Hplain.
  destruct (dict_get d "chi_1") as [chi_1 |] eqn:E1;
    [| unfold dict_mem in M1; now rewrite E1 in M1].
  destruct (dict_get d "chi_2") as [chi_2 |] eqn:E2;
    [| unfold dict_mem in M2; now rewrite E2 in M2].
  destruct (setitem_point w1 out d "spin_1x" (vfloat 0) Hout)
    as (w2 & R2 & O2 & T2 & F2).
  rewrite run_bind, R2.
  destruct (setitem_point w2 out _ "spin_1y" (vfloat 0) O2)
    as (w3 & R3 & O3 & T3 & F3).
  rewrite run_bind, R3.
  rewrite run_bind, (getitem_run w3 out _ "chi_1" chi_1 O3 Hshape)
    by (cbn [items point]; rewrite !dict_get_set_other by discriminate;
        exact E1).
  destruct (setitem_point w3 out _ "spin_1z" chi_1 O3)
    as (w4 & R4 & O4 & T4 & F4).
  rewrite run_bind, R4.
  destruct (setitem_point w4 out _ "spin_2x" (vfloat 0) O4)
    as (w5 & R5 & O5 & T5 & F5).
  rewrite run_bind, R5.
  destruct (setitem_point w5 out _ "spin_2y" (vfloat 0) O5)
    as (w6 & R6 & O6 & T6 & F6).
  rewrite run_bind, R6.
  rewrite run_bind, (getitem_run w6 out _ "chi_2" chi_2 O6 Hshape)
    by (cbn [items point]; rewrite !dict_get_set_other by discriminate;
        exact E2).
  destruct (setitem_point w6 out _ "spin_2z" chi_2 O6)
    as (w7 & R7 & O7 & T7 & F7).
  rewrite run_bind, R7. cbn [ret fst snd].
  split; [congruence |].
  split.
  { rewrite F7, F6, F5, F4, F3, F2 by assumption. exact Hin. }
  split; [| discriminate].
  intros c1 c2 Hc1 Hc2. inversion Hc1; inversion Hc2; subst c1 c2.
  exists out. eexists. split; [reflexivity |]. split; [exact O7 |].
  repeat split;
    try (rewrite ?dict_get_set_same;
         repeat (rewrite dict_get_set_other by discriminate;
                 rewrite ?dict_get_set_same);
         reflexivity).
  intros k Hk. simpl in Hk.
  repeat rewrite dict_get_set_other by (intros <-; apply Hk; auto 10).
  reflexivity.
Qed.

(** X20: the three generators that the orchestrators call under
    [except KeyError] ([generate_all_bns_parameters] the tidal one) raise
    the [KeyError] of the first key they miss:
    [spin_1z] when no spin can be extracted, [lambda_1], and
    [luminosity_distance]; they have copied the sample by then, and no
    more. *)
Theorem generators_report_the_missing_key
    (sample : ref) (w : world) (o : object) :
  obj_at w sample = Some o ->
  shape o <> OtherC ->
  (forallb (dict_mem (items o)) spin_conversion_parameters = false ->
   dict_mem (items o) "chi_1" && dict_mem (items o) "chi_2" = false ->
   dict_mem (items o) "spin_1z" = false ->
   generate_spin_parameters sample w
   = (Err (Exn KeyError "spin_1z"), set_heap (heap w ++ [o; o]) w))
  /\ (dict_mem (items o) "lambda_1" = false ->
      generate_tidal_parameters sample w
      = (Err (Exn KeyError "lambda_1"), set_heap (heap w ++ [o]) w))
  /\ (dict_mem (items o) "luminosity_distance" = false ->
      generate_source_frame_parameters sample w
      = (Err (Exn KeyError "luminosity_distance"),
         set_heap (heap w ++ [o]) w)).
Proof.
  intros Ho Hshape.
  pose proof (obj_at_alloc w o) as Hout.
  split; [| split].
  - intros Hmiss Hchi Hz.
    unfold generate_spin_parameters.
    rewrite run_bind, (copy_run _ _ _ Ho).
    unfold generate_component_spins.
    rewrite !run_bind, (copy_run _ _ _ Hout).
    set (w1 := set_heap (heap w ++ [o]) w) in *.
    pose proof (obj_at_alloc w1 o) as Hout2.
    assert (Ew : set_heap (heap w1 ++ [o]) w1 = set_heap (heap w ++ [o; o]) w).
    { unfold w1, set_heap. simpl. now rewrite <- app_assoc. }
    rewrite Ew in *. clear Ew.
    revert Hout2. generalize (List.length (heap w1)).
    generalize (set_heap (heap w ++ [o; o]) w). intros w2 out Hout2.
    rewrite run_bind, (contains_all_run w2 out o _ Hout2 Hshape), Hmiss.
    rewrite run_bind, (contains_run w2 out o "chi_1" Hout2 Hshape).
    destruct (dict_mem (items o) "chi_1").
    + rewrite run_bind, (contains_run w2 out o "chi_2" Hout2 Hshape).
      simpl in Hchi. rewrite Hchi. cbn [andb ret]. rewrite run_bind.
      now rewrite (getitem_missing w2 out o "spin_1z" Hout2 Hshape Hz).
    + rewrite run_bind. cbn [andb ret]. rewrite run_bind.
      now rewrite (getitem_missing w2 out o "spin_1z" Hout2 Hshape Hz).
  - intros Hz. unfold generate_tidal_parameters.
    rewrite run_bind, (copy_run _ _ _ Ho), run_bind.
    now rewrite (getitem_missing _ _ o "lambda_1" Hout Hshape Hz).
  - intros Hz. unfold generate_source_frame_parameters.
    rewrite run_bind, (copy_run _ _ _ Ho), run_bind.
    now rewrite (getitem_missing _ _ o "luminosity_distance" Hout Hshape Hz).
Qed.

(** ** The guards of the per-detector stage *)

(** X21: the per-detector stage returns [None] without a likelihood and
    the samples as they are when the method of the likelihood is not
    callable; for a sample that is neither a point nor a table it raises
    [ValueError]; for a point it leaves the point as it was and returns
    the mapping of the likelihood as a new point. *)
Theorem per_detector_stage_guards
    (samples : ref) (likelihood : option Likelihood) (npool block : nat)
    (w : world) (o : object) :
  obj_at w samples = Some o ->
  let run :=
    compute_per_detector_log_likelihoods samples likelihood npool block w in
  (likelihood = None -> run = (Ok None, w))
  /\ (forall l, likelihood = Some l -> per_detector_callable l = false ->
                run = (Ok (Some samples), w))
  /\ (forall l, likelihood = Some l -> per_detector_callable l = true ->
                shape o = OtherC ->
                exists msg, run = (Err (Exn ValueError msg), w))
  /\ (forall l, likelihood = Some l -> per_detector_callable l = true ->
                shape o = DictC ->
                let parameters := dict_update (lik_parameters w) (items o) in
                fst run = Ok (Some (List.length (heap w)))
                /\ obj_at (snd run) samples = Some o
                /\ obj_at (snd run) (List.length (heap w))
                   = Some (point (fst (compute_per_detector_log_likelihood l
                                         parameters)))
                /\ lik_parameters (snd run)
                   = snd (compute_per_detector_log_likelihood l parameters)).
Proof.
  intros Ho run. subst run. unfold compute_per_detector_log_likelihoods.
  split; [now intros -> |].
  split; [intros l -> Hc; now rewrite Hc |].
  split.
  - intros l -> Hc Hs. rewrite Hc. cbn [negb].
    unfold bind, deref. rewrite Ho, Hs. eexists. reflexivity.
  - intros l -> Hc Hs. cbv zeta.
    destruct (compute_per_detector_log_likelihood l
                (dict_update (lik_parameters w) (items o)))
      as [new_sample parameters'] eqn:E.
    match goal with
    | |- context [fst ?r = _] =>
        assert (Erun :
                  r = (Ok (Some (List.length (heap w))),
                       set_heap (heap w ++ [point new_sample])
                         (set_lik_parameters parameters'
                            (set_trace (trace w ++ [PerDetectorCall None])
                               (set_lik_parameters
                                  (dict_update (lik_parameters w) (items o))
                                  w)))))
    end.
    { rewrite Hc. cbn [negb]. rewrite run_bind. unfold deref. rewrite Ho, Hs.
      unfold bind, update_likelihood_parameters, log_event,
        get_likelihood_parameters.
      cbn [lik_parameters set_trace set_lik_parameters]. rewrite E.
      reflexivity. }
    rewrite Erun. cbn [fst snd]. repeat split.
    + unfold obj_at in *. simpl. rewrite nth_error_app1; [assumption |].
      apply nth_error_Some. congruence.
    + unfold obj_at. simpl. rewrite nth_error_app2 by lia.
      now rewrite Nat.sub_diag.
Qed.

(** ** Fixed priors *)

Lemma fill_get_other priors : forall d name,
  (forall peak, ~ In (name, DeltaFunction peak) priors) ->
  dict_get (fill_point d priors) name = dict_get d name.
Proof.
  induction priors as [| [n p] priors IH]; intros d name Hno; [reflexivity |].
  simpl. rewrite IH by (intros peak Hin; apply (Hno peak); now right).
  destruct p as [peak | other]; [| reflexivity].
  apply dict_get_set_other. intros ->. apply (Hno peak). now left.
Qed.

Lemma fill_get_peak priors : forall d name peak,
  NoDup (map fst priors) -> In (name, DeltaFunction peak) priors ->
  dict_get (fill_point d priors) name = Some peak.
Proof.
  induction priors as [| [n p] priors IH]; intros d name peak Hnd Hin;
    [contradiction |].
  simpl in *. inversion Hnd as [| ? ? Hfresh Hnd']; subst.
  destruct Hin as [E | Hin].
  - inversion E; subst. rewrite fill_get_other.
    + apply dict_get_set_same.
    + intros peak' Hin'. apply Hfresh.
      change name with (fst (name, DeltaFunction peak')). now apply in_map.
  - now apply IH.
Qed.

Lemma fill_run (out : ref) priors : forall d w,
  obj_at w out = Some (point d) ->
  exists w',
    for_each priors
      (fun np => match snd np with
                 | DeltaFunction peak => setitem out (fst np) peak
                 | OtherPrior _ => ret tt
                 end) w
    = (Ok tt, w')
    /\ obj_at w' out = Some (point (fill_point d priors))
    /\ forall r, r <> out -> obj_at w' r = obj_at w r.
Proof.
  induction priors as [| [n p] priors IH]; intros d w Ho.
  - exists w. repeat split; assumption.
  - simpl. rewrite run_bind. destruct p as [peak | other]; simpl.
    + destruct (setitem_point w out d n peak Ho) as (w1 & R1 & O1 & _ & F1).
      rewrite R1. destruct (IH _ w1 O1) as (w2 & R2 & O2 & F2).
      exists w2. split; [exact R2 |]. split; [exact O2 |].
      intros r Hr. now rewrite F2, F1.
    + apply IH. exact Ho.
Qed.

(** X22: on a point, the fill from fixed priors returns a copy in which
    every [DeltaFunction] prior has put its peak under its name, also
    over a value of the sample, and every other key is as in the input;
    without priors the copy equals the input. *)
Theorem fixed_priors_fill_the_sample
    (sample : ref) (priors : option (list (string * prior))) (w : world)
    (d : dict) :
  obj_at w sample = Some (point d) ->
  exists d',
    fst (fill_from_fixed_priors sample priors w) = Ok (List.length (heap w))
    /\ obj_at (snd (fill_from_fixed_priors sample priors w)) sample
       = Some (point d)
    /\ obj_at (snd (fill_from_fixed_priors sample priors w))
         (List.length (heap w))
       = Some (point d')
    /\ (priors = None -> d' = d)
    /\ forall named, priors = Some named ->
         (forall name,
             (forall peak, ~ In (name, DeltaFunction peak) named) ->
             dict_get d' name = dict_get d name)
         /\ (NoDup (map fst named) ->
             forall name peak,
               In (name, DeltaFunction peak) named ->
               dict_get d' name = Some peak).
Proof.
  intros Ho. unfold fill_from_fixed_priors.
  assert (Hne : sample <> List.length (heap w)).
  { apply obj_at_valid in Ho. lia. }
  rewrite run_bind, (copy_run _ _ _ Ho).
  pose proof (obj_at_alloc w (point d)) as Hout.
  pose proof (obj_at_after_alloc w (point d) sample _ Ho) as Hin.
  destruct priors as [named |].
  - destruct (fill_run (List.length (heap w)) named d _ Hout)
      as (w' & R & O & F).
    exists (fill_point d named). rewrite run_bind, R. cbn [ret fst snd].
    split; [reflexivity |]. split; [now rewrite F |]. split; [exact O |].
    split; [discriminate |]. intros named' E. inversion E; subst named'.
    split; [apply fill_get_other |].
    intros Hnd name peak Hpeak. now apply fill_get_peak.
  - exists d. rewrite run_bind. cbn [ret fst snd]. repeat split; auto.
    discriminate.
Qed.

(** ** Samples only grow *)

Lemma grows_refl w : grows w w.
Proof. intros r o Ho. exists o. split; [exact Ho | apply grew_refl]. Qed.

Lemma grows_trans w1 w2 w3 : grows w1 w2 -> grows w2 w3 -> grows w1 w3.
Proof.
  intros H12 H23 r o Ho. destruct (H12 r o Ho) as (o2 & Ho2 & G2).
  destruct (H23 r o2 Ho2) as (o3 & Ho3 & G3).
  exists o3. split; [exact Ho3 | now apply (grew_trans o o2)].
Qed.

Lemma grows_same_heap w w' : heap w' = heap w -> grows w w'.
Proof.
  intros E r o Ho. exists o. unfold obj_at in *. rewrite E.
  split; [exact Ho | apply grew_refl].
Qed.

Lemma monotone_ret {A : Type} (a : A) : monotone (ret a).
Proof. intros w. apply grows_refl. Qed.

Lemma monotone_raise {A : Type} (e : exn) : monotone (@raise A e).
Proof. intros w. apply grows_refl. Qed.

Lemma monotone_lift {A : Type} (r : result A) : monotone (lift r).
Proof. intros w. apply grows_refl. Qed.

Lemma monotone_bind {A B : Type} (m : M A) (f : A -> M B) :
  monotone m -> (forall a, monotone (f a)) -> monotone (bind m f).
Proof.
  intros Hm Hf w. unfold bind. specialize (Hm w).
  destruct (m w) as [[a | e] w1]; simpl in *; [| exact Hm].
  eapply grows_trans; [exact Hm | apply Hf].
Qed.

Lemma monotone_try_except {A : Type} (m : M A) classes handler :
  monotone m -> (forall e, monotone (handler e)) ->
  monotone (try_except m classes handler).
Proof.
  intros Hm Hh w. unfold try_except. specialize (Hm w).
  destruct (m w) as [[a | e] w1]; simpl in *; [exact Hm |].
  destruct (existsb _ classes); [| exact Hm].
  eapply grows_trans; [exact Hm | apply Hh].
Qed.

Lemma monotone_for_each {A : Type} (xs : list A) (body : A -> M unit) :
  (forall x, monotone (body x)) -> monotone (for_each xs body).
Proof.
  intros Hb. induction xs as [| x xs IH]; simpl.
  - apply monotone_ret.
  - apply monotone_bind; [apply Hb | intros _; exact IH].
Qed.

Lemma monotone_map_m {A B : Type} (f : A -> M B) (xs : list A) :
  (forall x, monotone (f x)) -> monotone (map_m f xs).
Proof.
  intros Hf. induction xs as [| x xs IH]; simpl.
  - apply monotone_ret.
  - apply monotone_bind; [apply Hf | intros y].
    apply monotone_bind; [exact IH | intros ys; apply monotone_ret].
Qed.

(** An operation that leaves the store as it is. *)
Lemma monotone_same_heap {A : Type} (m : M A) :
  (forall w, heap (snd (m w)) = heap w) -> monotone m.
Proof. intros H w. apply grows_same_heap, H. Qed.

Lemma monotone_deref r : monotone (deref r).
Proof.
  apply monotone_same_heap. intros w. unfold deref.
  now destruct (obj_at w r).
Qed.

Lemma monotone_alloc o : monotone (alloc o).
Proof.
  intros w r o' Ho'. exists o'. split; [| apply grew_refl].
  now apply obj_at_after_alloc.
Qed.

Lemma monotone_copy r : monotone (copy r).
Proof.
  unfold copy. apply monotone_bind; [apply monotone_deref |].
  intros o. apply monotone_alloc.
Qed.

Lemma monotone_contains r k : monotone (contains r k).
Proof.
  apply monotone_same_heap. intros w. unfold contains, bind, deref.
  destruct (obj_at w r) as [o |]; [| reflexivity]. now destruct (shape o).
Qed.

Lemma monotone_keys r : monotone (keys r).
Proof.
  apply monotone_same_heap. intros w. unfold keys, bind, deref.
  destruct (obj_at w r) as [o |]; [| reflexivity]. now destruct (shape o).
Qed.

Lemma monotone_getitem r k : monotone (getitem r k).
Proof.
  apply monotone_same_heap. intros w. now rewrite reads_getitem.
Qed.

Lemma monotone_setitem r k v : monotone (setitem r k v).
Proof.
  intros w. unfold setitem, bind, deref.
  destruct (obj_at w r) as [o |] eqn:Ho; [| apply grows_refl].
  assert (Hset : forall v',
             grows w
               (set_heap
                  (list_update (heap w) r
                     (mkObject (shape o) (dict_set (items o) k v'))) w)).
  { intros v' r' o' Ho'. unfold obj_at in *. simpl.
    rewrite nth_error_list_update.
    destruct (Nat.eqb_spec r r') as [<- | Hne].
    - rewrite Ho in *. inversion Ho'; subst o'. eexists.
      split; [reflexivity | apply grew_set].
    - exists o'. split; [exact Ho' | apply grew_refl]. }
  destruct (shape o) eqn:Es; simpl; try apply grows_refl.
  - apply Hset.
  - destruct v as [x | c]; simpl; [apply Hset |].
    destruct (Nat.eqb _ _); [apply Hset | apply grows_refl].
Qed.

Lemma monotone_update_items r other : monotone (update_items r other).
Proof.
  unfold update_items. apply monotone_for_each. intros kv.
  apply monotone_setitem.
Qed.

Lemma monotone_log_event e : monotone (log_event e).
Proof. now apply monotone_same_heap. Qed.

Lemma monotone_check_and_return_quietly require_add s :
  monotone (check_and_return_quietly require_add s).
Proof.
  unfold check_and_return_quietly.
  destruct require_add; [apply monotone_raise | apply monotone_ret].
Qed.

Create HintDb growth.

#[local] Hint Resolve monotone_ret monotone_raise monotone_lift
  monotone_deref monotone_alloc monotone_copy monotone_contains monotone_keys
  monotone_getitem monotone_setitem monotone_update_items monotone_log_event
  monotone_check_and_return_quietly : growth.

#[local] Hint Extern 1 (monotone (vlift1 _ _)) => apply monotone_lift : growth.
#[local] Hint Extern 1 (monotone (vlift2 _ _ _)) => apply monotone_lift
  : growth.
#[local] Hint Extern 1 (monotone (vlift3 _ _ _ _)) => apply monotone_lift
  : growth.
#[local] Hint Extern 1 (monotone (vlift4 _ _ _ _ _)) => apply monotone_lift
  : growth.
#[local] Hint Extern 1 (monotone (vadd _ _)) => apply monotone_lift : growth.
#[local] Hint Extern 1 (monotone (vsub _ _)) => apply monotone_lift : growth.
#[local] Hint Extern 1 (monotone (vmul _ _)) => apply monotone_lift : growth.
#[local] Hint Extern 1 (monotone (vdiv _ _)) => apply monotone_lift : growth.
#[local] Hint Extern 5 (monotone _) =>
  (apply monotone_same_heap; intros; reflexivity) : growth.

Ltac grow_tac :=
  cbv beta zeta;
  lazymatch goal with
  | |- monotone (bind _ _) =>
      apply monotone_bind; [grow_tac | intros ?; grow_tac]
  | |- monotone (if ?b then _ else _) => destruct b; grow_tac
  | |- monotone (match ?x with _ => _ end) => destruct x; grow_tac
  | |- monotone (for_each _ _) => apply monotone_for_each; intros ?; grow_tac
  | |- monotone (map_m _ _) => apply monotone_map_m; intros ?; grow_tac
  | |- monotone (try_except _ _ _) =>
      apply monotone_try_except; [grow_tac | intros ?; grow_tac]
  | |- _ => first [solve [auto with growth] | idtac]
  end.

Lemma monotone_generate_component_masses s require_add source :
  monotone (generate_component_masses s require_add source).
Proof. unfold generate_component_masses. grow_tac. Qed.

#[local] Hint Resolve monotone_generate_component_masses : growth.

Lemma monotone_black_hole_conversion s :
  monotone (convert_to_lal_binary_black_hole_parameters s).
Proof. unfold convert_to_lal_binary_black_hole_parameters. grow_tac. Qed.

#[local] Hint Resolve monotone_black_hole_conversion : growth.

Lemma monotone_as_float v : monotone (as_float v).
Proof. unfold as_float. grow_tac. Qed.

Lemma monotone_contains_any r ks : monotone (contains_any r ks).
Proof. unfold contains_any. grow_tac. Qed.

#[local] Hint Resolve monotone_as_float monotone_contains_any : growth.

Lemma monotone_neutron_star_conversion s :
  monotone (convert_to_lal_binary_neutron_star_parameters s).
Proof. unfold convert_to_lal_binary_neutron_star_parameters. grow_tac. Qed.

#[local] Hint Resolve monotone_neutron_star_conversion : growth.

Lemma monotone_fill_from_fixed_priors s priors :
  monotone (fill_from_fixed_priors s priors).
Proof. unfold fill_from_fixed_priors. grow_tac. Qed.

Lemma monotone_generate_mass_parameters s source :
  monotone (generate_mass_parameters s source).
Proof. unfold generate_mass_parameters. grow_tac. Qed.

Lemma monotone_call_frame_transform a b c d e f g h i j k :
  monotone (call_frame_transform a b c d e f g h i j k).
Proof. unfold call_frame_transform. grow_tac. Qed.

#[local] Hint Resolve monotone_call_frame_transform : growth.

Lemma monotone_bilby_to_lalsimulation_spins_row args :
  monotone (bilby_to_lalsimulation_spins_row args).
Proof.
  unfold bilby_to_lalsimulation_spins_row, bilby_to_lalsimulation_spins.
  grow_tac.
Qed.

Lemma monotone_np_vectorize outputs f vs :
  (forall row, monotone (f row)) -> monotone (np_vectorize outputs f vs).
Proof. intros Hf. unfold np_vectorize. grow_tac; apply Hf. Qed.

Lemma monotone_contains_all r ks : monotone (contains_all r ks).
Proof.
  induction ks as [| k ks IH]; simpl; [apply monotone_ret |].
  apply monotone_bind; [apply monotone_contains |].
  intros b. destruct b; [exact IH | apply monotone_ret].
Qed.

#[local] Hint Resolve monotone_fill_from_fixed_priors
  monotone_generate_mass_parameters monotone_bilby_to_lalsimulation_spins_row
  monotone_np_vectorize monotone_contains_all : growth.

Lemma monotone_generate_component_spins s :
  monotone (generate_component_spins s).
Proof. unfold generate_component_spins. grow_tac. Qed.

#[local] Hint Resolve monotone_generate_component_spins : growth.

Lemma monotone_generate_spin_parameters s :
  monotone (generate_spin_parameters s).
Proof. unfold generate_spin_parameters. grow_tac. Qed.

Lemma monotone_generate_tidal_parameters s :
  monotone (generate_tidal_parameters s).
Proof. unfold generate_tidal_parameters. grow_tac. Qed.

Lemma monotone_generate_source_frame_parameters s :
  monotone (generate_source_frame_parameters s).
Proof. unfold generate_source_frame_parameters. grow_tac. Qed.

#[local] Hint Resolve monotone_generate_spin_parameters
  monotone_generate_tidal_parameters
  monotone_generate_source_frame_parameters : growth.

Lemma monotone_pool_map {A B : Type} l (task : A -> M B) args :
  monotone (pool_map l task args).
Proof.
  apply monotone_same_heap. intros w. unfold pool_map.
  now destruct (map_m task args (set_convenience_likelihood (Some l) w)).
Qed.

Lemma monotone_get_convenience_likelihood :
  monotone get_convenience_likelihood.
Proof.
  apply monotone_same_heap. intros w. unfold get_convenience_likelihood.
  now destruct (convenience_likelihood w).
Qed.

Lemma monotone_safe_file_dump c name : monotone (safe_file_dump c name).
Proof. now apply monotone_same_heap. Qed.

#[local] Hint Resolve monotone_pool_map monotone_get_convenience_likelihood
  monotone_safe_file_dump : growth.

Lemma monotone__compute_snrs args : monotone (_compute_snrs args).
Proof. unfold _compute_snrs. grow_tac. Qed.

#[local] Hint Resolve monotone__compute_snrs : growth.

Lemma monotone_compute_snrs s likelihood npool :
  monotone (compute_snrs s likelihood npool).
Proof. unfold compute_snrs. grow_tac. Qed.

Lemma monotone_block_loop fuel n block compute_block checkpoint :
  (forall ii, monotone (compute_block ii)) ->
  (forall bs, monotone (checkpoint bs)) ->
  forall ii bs,
    monotone (block_loop fuel n block compute_block checkpoint ii bs).
Proof.
  intros Hc Hk. induction fuel as [| fuel IH]; intros ii bs; simpl;
    destruct (ii <? n)%nat; try apply monotone_ret;
    [apply monotone_raise |].
  destruct (has_block ii bs); [apply IH |].
  apply monotone_bind; [apply Hc | intros rows].
  apply monotone_bind; [apply Hk | intros _; apply IH].
Qed.

Lemma monotone_concatenate bs : monotone (concatenate bs).
Proof. unfold concatenate. grow_tac. Qed.

Lemma monotone_column_of rows ii : monotone (column_of rows ii).
Proof. unfold column_of. grow_tac. Qed.

#[local] Hint Resolve monotone_concatenate monotone_column_of : growth.

Lemma monotone_assign_columns s names rows :
  monotone (assign_columns s names rows).
Proof. unfold assign_columns. grow_tac. Qed.

Lemma monotone__compute_per_detector_log_likelihoods args :
  monotone (_compute_per_detector_log_likelihoods args).
Proof. unfold _compute_per_detector_log_likelihoods. grow_tac. Qed.

Lemma monotone_fill_sample args : monotone (fill_sample args).
Proof. unfold fill_sample. grow_tac. Qed.

#[local] Hint Resolve monotone_assign_columns
  monotone__compute_per_detector_log_likelihoods monotone_fill_sample
  monotone_compute_snrs : growth.

Lemma monotone_compute_per_detector_log_likelihoods s likelihood npool block :
  monotone (compute_per_detector_log_likelihoods s likelihood npool block).
Proof.
  unfold compute_per_detector_log_likelihoods. grow_tac;
    apply monotone_block_loop; intros; grow_tac.
Qed.

Lemma monotone_generate_posterior_samples s likelihood npool block use_cache :
  monotone
    (generate_posterior_samples_from_marginalized_likelihood s likelihood
       npool block use_cache).
Proof.
  unfold generate_posterior_samples_from_marginalized_likelihood, read_file,
    get_clean.
  grow_tac; apply monotone_block_loop; intros; grow_tac.
Qed.

Lemma monotone_generate_sky_frame_parameters s likelihood :
  monotone (generate_sky_frame_parameters s likelihood).
Proof. unfold generate_sky_frame_parameters. grow_tac. Qed.

#[local] Hint Resolve monotone_compute_per_detector_log_likelihoods
  monotone_generate_posterior_samples monotone_generate_sky_frame_parameters
  : growth.

Lemma monotone__generate_all_cbc_parameters s defaults base_conversion
    likelihood priors npool :
  (forall r, monotone (base_conversion r)) ->
  monotone
    (_generate_all_cbc_parameters s defaults base_conversion likelihood priors
       npool).
Proof.
  intros Hbase. unfold _generate_all_cbc_parameters, write_prior.
  grow_tac; apply Hbase.
Qed.

(** *** The keys that a conversion adds *)

Lemma hoare_monotone {A : Type} o c (m : M A) :
  monotone m -> hoare (grown o c) m (fun _ => grown o c).
Proof.
  intros Hm w (o1 & H1 & G1). specialize (Hm w c o1 H1).
  destruct (m w) as [[a | e] w1]; [| exact I]. simpl in Hm.
  destruct Hm as (o2 & H2 & G2). exists o2.
  split; [exact H2 | now apply (grew_trans o o1)].
Qed.

Lemma hoare_grown_generate_component_masses o c require_add source :
  hoare (grown o c) (generate_component_masses c require_add source)
    (fun r => grown o r).
Proof.
  intros w (o1 & H1 & G1).
  pose proof (hoare_generate_component_masses c o1 require_add source w H1)
    as H.
  destruct (generate_component_masses c require_add source w)
    as [[r | e] w1]; [| exact I].
  destruct H as (_ & o2 & H2 & [G2 _] & _). exists o2.
  split; [exact H2 | now apply (grew_trans o o1)].
Qed.

Lemma filter_added_keys (ks gained : list string) :
  NoDup (ks ++ gained) ->
  filter (fun key => negb (key_in key ks)) (ks ++ gained) = gained.
Proof.
  intros Hnd. rewrite filter_app.
  assert (H1 : filter (fun key => negb (key_in key ks)) ks = []).
  { assert (Hall : forall l, incl l ks ->
               filter (fun key => negb (key_in key ks)) l = []).
    { induction l as [| k l IH]; intros Hl; [reflexivity |]. simpl.
      assert (Hk : key_in k ks = true).
      { unfold key_in. apply existsb_exists. exists k.
        split; [apply Hl; now left | apply String.eqb_refl]. }
      rewrite Hk. simpl. apply IH. intros x Hx. apply Hl. now right. }
    apply Hall, incl_refl. }
  rewrite H1. simpl.
  assert (H2 : forall l, (forall x, In x l -> ~ In x ks) ->
             filter (fun key => negb (key_in key ks)) l = l).
  { induction l as [| k l IH]; intros Hl; [reflexivity |]. simpl.
    destruct (key_in k ks) eqn:Hk.
    - apply key_in_In in Hk. exfalso. apply (Hl k); [now left | exact Hk].
    - simpl. f_equal. apply IH. intros x Hx. apply Hl. now right. }
  apply H2. intros x Hx Hin.
  apply NoDup_app_remove_l in Hnd as Hg.
  revert Hnd Hin Hx. clear. induction ks as [| k ks IH]; intros Hnd Hin Hx;
    [contradiction |].
  simpl in Hnd. inversion Hnd as [| ? ? Hk Hnd']; subst.
  destruct Hin as [-> | Hin]; [| now apply IH].
  apply Hk. apply in_or_app. now right.
Qed.

Lemma hoare_added_keys o c :
  NoDup (dict_keys (items o)) ->
  hoare (grown o c)
    (all_keys <- keys c ;;
     ret (c, filter (fun key => negb (key_in key (dict_keys (items o))))
               all_keys))
    (appended o).
Proof.
  intros Hnd w (o1 & H1 & Hs & (gained & Hk) & Hn).
  unfold keys, bind, deref. rewrite H1.
  destruct (shape o1) eqn:Es; try exact I; simpl;
    (exists o1; simpl; split; [exact H1 |]; split; [congruence |];
     split; [| now apply Hn]; rewrite Hk at 1; f_equal;
     rewrite Hk, filter_added_keys; [reflexivity |]; rewrite <- Hk;
     now apply Hn).
Qed.

Lemma hoare_copy_keys {A : Type} p o (k : ref -> list string -> M A) Q :
  (forall c, hoare (fun w => obj_at w c = Some o)
               (k c (dict_keys (items o))) Q) ->
  hoare (fun w => obj_at w p = Some o)
    (c <- copy p ;; original_keys <- keys c ;; k c original_keys) Q.
Proof.
  intros Hk w Ho. rewrite run_bind, (copy_run w p o Ho).
  pose proof (obj_at_alloc w o) as Hc.
  unfold keys. rewrite !run_bind. unfold deref at 1. rewrite Hc.
  destruct (shape o); try exact I; cbn [ret]; apply Hk; exact Hc.
Qed.

Lemma hoare_of_grown {A : Type} o c (m : M A) Q :
  hoare (grown o c) m Q -> hoare (fun w => obj_at w c = Some o) m Q.
Proof.
  intros H w Ho. apply H. exists o. split; [exact Ho | apply grew_refl].
Qed.

Ltac grown_step :=
  eapply hoare_bind;
  [first [apply hoare_grown_generate_component_masses
         | apply hoare_monotone; grow_tac]
  | cbv beta; intros ?].

Lemma hoare_black_hole_conversion parameters o :
  NoDup (dict_keys (items o)) ->
  hoare (fun w => obj_at w parameters = Some o)
    (convert_to_lal_binary_black_hole_parameters parameters)
    (appended o).
Proof.
  intros Hnd. unfold convert_to_lal_binary_black_hole_parameters.
  apply hoare_copy_keys. intros c. apply hoare_of_grown.
  do 7 grown_step.
  now apply hoare_added_keys.
Qed.

Lemma dict_mem_true_In d k : dict_mem d k = true -> In k (dict_keys d).
Proof.
  unfold dict_mem, dict_keys. induction d as [| [k0 v0] d IH]; simpl;
    [discriminate |].
  destruct (String.eqb_spec k0 k) as [-> | Hne]; [now left |].
  intros H. right. now apply IH.
Qed.

Lemma hoare_contains_any_appended o c added ks :
  hoare (appended o (c, added)) (contains_any c ks)
    (fun b w =>
       appended o (c, added) w
       /\ (b = false ->
           forall k, In k ks -> ~ In k (dict_keys (items o) ++ added)%list)).
Proof.
  intros w Ha. pose proof Ha as (o1 & H1 & Hs & Hk & Hn). simpl in H1, Hk.
  destruct (shape o1) eqn:Es.
  - rewrite (contains_any_run w c o1 ks H1) by congruence.
    split; [exact Ha |]. intros Hb k Hin Hmem. rewrite <- Hk in Hmem.
    apply dict_mem_keys in Hmem.
    assert (Ht : existsb (dict_mem (items o1)) ks = true)
      by (apply existsb_exists; now exists k).
    congruence.
  - rewrite (contains_any_run w c o1 ks H1) by congruence.
    split; [exact Ha |]. intros Hb k Hin Hmem. rewrite <- Hk in Hmem.
    apply dict_mem_keys in Hmem.
    assert (Ht : existsb (dict_mem (items o1)) ks = true)
      by (apply existsb_exists; now exists k).
    congruence.
  - destruct ks as [| k ks].
    + split; [exact Ha | intros _ k []].
    + unfold contains_any. cbn [map_m]. rewrite !run_bind.
      unfold contains at 1. rewrite run_bind. unfold deref. rewrite H1, Es.
      exact I.
Qed.

Lemma hoare_setitem_appended o c added k v :
  ~ In k (dict_keys (items o) ++ added)%list ->
  hoare (appended o (c, added)) (setitem c k v)
    (fun _ => appended o (c, (added ++ [k])%list)).
Proof.
  intros Hk w (o1 & H1 & Hs & Hks & Hn). simpl in H1, Hks.
  assert (Hmem : dict_mem (items o1) k = false).
  { destruct (dict_mem (items o1) k) eqn:E; [| reflexivity].
    apply dict_mem_true_In in E. rewrite Hks in E. contradiction. }
  assert (Hset : forall v',
             appended o (c, (added ++ [k])%list)
               (set_heap
                  (list_update (heap w) c
                     (mkObject (shape o1) (dict_set (items o1) k v'))) w)).
  { intros v'. eexists. simpl.
    split; [now apply obj_at_update with (o := o1) |].
    simpl. rewrite dict_keys_set, Hmem, Hks, app_assoc.
    split; [exact Hs |]. split; [reflexivity |].
    rewrite <- Hks.
    apply NoDup_app; [assumption | repeat constructor; intros [] |].
    intros x Hx [<- | []]. now apply (dict_mem_not_In _ _ Hmem). }
  unfold setitem, bind, deref. rewrite H1.
  destruct (shape o1) eqn:Es; try exact I.
  - simpl. apply Hset.
  - destruct (stored (FrameC nrows) v) as [v' |]; [| exact I]. apply Hset.
Qed.

Lemma appended_grown o c added w : appended o (c, added) w -> grown o c w.
Proof.
  intros (o1 & H1 & Hs & Hk & Hn). exists o1. split; [exact H1 |].
  split; [exact Hs |]. split; [now exists added | auto].
Qed.

Lemma hoare_neutron_star_conversion parameters o :
  NoDup (dict_keys (items o)) ->
  hoare (fun w => obj_at w parameters = Some o)
    (convert_to_lal_binary_neutron_star_parameters parameters)
    (appended o).
Proof.
  intros Hnd. unfold convert_to_lal_binary_neutron_star_parameters.
  apply hoare_copy_keys. intros c.
  eapply hoare_bind; [now apply hoare_black_hole_conversion |].
  intros [c1 added].
  eapply hoare_bind; [apply hoare_contains_any_appended |].
  intros any_tidal. destruct any_tidal; cbn [negb]; cbv beta zeta.
  - apply hoare_weaken with (P := grown o c1) (Q := appended o);
      [| intros w [H _]; now apply (appended_grown o c1 added) | auto].
    do 5 grown_step. now apply hoare_added_keys.
  - apply hoare_pure. intros Hno. specialize (Hno eq_refl).
    assert (H1 : ~ In "lambda_1" (dict_keys (items o) ++ added)%list)
      by (apply Hno; simpl; auto).
    assert (H2 : ~ In "lambda_2"
                   (dict_keys (items o) ++ added ++ ["lambda_1"])%list).
    { rewrite app_assoc. intros Hin. apply in_app_or in Hin.
      destruct Hin as [Hin | [Hin | []]]; [| discriminate Hin].
      revert Hin. apply Hno. simpl. auto. }
    eapply hoare_bind; [now apply hoare_setitem_appended | intros ?].
    eapply hoare_bind; [now apply hoare_setitem_appended | intros ?].
    apply hoare_ret. intros w Hw. now rewrite <- app_assoc in Hw.
Qed.

Lemma monotone_generate_all_bbh_parameters sample likelihood priors npool :
  monotone (generate_all_bbh_parameters sample likelihood priors npool).
Proof.
  apply monotone__generate_all_cbc_parameters. auto with growth.
Qed.

Lemma monotone_generate_all_bns_parameters sample likelihood priors npool :
  monotone (generate_all_bns_parameters sample likelihood priors npool).
Proof.
  unfold generate_all_bns_parameters. cbv zeta.
  apply monotone_bind;
    [apply monotone__generate_all_cbc_parameters; auto with growth |].
  intros r. apply monotone_try_except; auto with growth.
Qed.

#[local] Hint Resolve monotone_generate_all_bbh_parameters
  monotone_generate_all_bns_parameters : growth.

(** X23: samples only grow.  Whatever one of the fifteen functions below
    does to the store, and whether it returns or raises, every sample that
    was in the store is still there, with the same container; its keys
    are the keys it had, in the order they had, followed by the keys it
    has gained.  None of them deletes a key of a sample, moves one, or
    replaces a sample by an object of another kind.  The functions are
    the two conversions, [fill_from_fixed_priors],
    [generate_component_masses], [generate_mass_parameters],
    [generate_spin_parameters], [generate_component_spins],
    [generate_tidal_parameters], [generate_source_frame_parameters],
    [compute_snrs], [compute_per_detector_log_likelihoods], the
    reconstruction, [generate_sky_frame_parameters],
    [generate_all_bbh_parameters] and [generate_all_bns_parameters];
    [generate_specific_parameters] is not among them. *)
Theorem samples_only_grow :
  (forall parameters,
      monotone (convert_to_lal_binary_black_hole_parameters parameters))
  /\ (forall parameters,
         monotone (convert_to_lal_binary_neutron_star_parameters parameters))
  /\ (forall sample priors, monotone (fill_from_fixed_priors sample priors))
  /\ (forall sample require_add source,
         monotone (generate_component_masses sample require_add source))
  /\ (forall sample source,
         monotone (generate_mass_parameters sample source))
  /\ (forall sample, monotone (generate_spin_parameters sample))
  /\ (forall sample, monotone (generate_component_spins sample))
  /\ (forall sample, monotone (generate_tidal_parameters sample))
  /\ (forall sample, monotone (generate_source_frame_parameters sample))
  /\ (forall sample likelihood npool,
         monotone (compute_snrs sample likelihood npool))
  /\ (forall sample likelihood npool block,
         monotone
           (compute_per_detector_log_likelihoods sample likelihood npool
              block))
  /\ (forall samples likelihood npool block use_cache,
         monotone
           (generate_posterior_samples_from_marginalized_likelihood samples
              likelihood npool block use_cache))
  /\ (forall sample likelihood,
         monotone (generate_sky_frame_parameters sample likelihood))
  /\ (forall sample likelihood priors npool,
         monotone (generate_all_bbh_parameters sample likelihood priors npool))
  /\ (forall sample likelihood priors npool,
         monotone
           (generate_all_bns_parameters sample likelihood priors npool)).
Proof.
  repeat match goal with |- _ /\ _ => split end; auto with growth.
Qed.

(** X24: the sample that [convert_to_lal_binary_black_hole_parameters]
    returns has the container of its input and the keys of its input, in
    their order, followed by exactly the list [added_keys] that the
    function returns with it; no key occurs twice.  The keys of the input
    are distinct, as those of a [dict] or of the columns of a table are. *)
Theorem black_hole_conversion_appends_the_added_keys
    (parameters : ref) (w : world) (o : object) (r : ref)
    (added_keys : list string) (w' : world) :
  obj_at w parameters = Some o ->
  NoDup (dict_keys (items o)) ->
  convert_to_lal_binary_black_hole_parameters parameters w
  = (Ok (r, added_keys), w') ->
  exists o',
    obj_at w' r = Some o'
    /\ shape o' = shape o
    /\ dict_keys (items o') = (dict_keys (items o) ++ added_keys)%list
    /\ NoDup (dict_keys (items o')).
Proof.
  intros Ho Hnd Hrun.
  pose proof (hoare_black_hole_conversion parameters o Hnd w Ho) as H.
  rewrite Hrun in H. exact H.
Qed.

(** X25: the same for [convert_to_lal_binary_neutron_star_parameters]:
    the keys of the returned sample are the keys of the input, in their
    order, followed by exactly the returned [added_keys]; this covers the
    early return, where the list is the one of the black-hole conversion
    with [lambda_1] and [lambda_2] appended rather than the keys read off
    the sample. *)
Theorem neutron_star_conversion_appends_the_added_keys
    (parameters : ref) (w : world) (o : object) (r : ref)
    (added_keys : list string) (w' : world) :
  obj_at w parameters = Some o ->
  NoDup (dict_keys (items o)) ->
  convert_to_lal_binary_neutron_star_parameters parameters w
  = (Ok (r, added_keys), w') ->
  exists o',
    obj_at w' r = Some o'
    /\ shape o' = shape o
    /\ dict_keys (items o') = (dict_keys (items o) ++ added_keys)%list
    /\ NoDup (dict_keys (items o')).
Proof.
  intros Ho Hnd Hrun.
  pose proof (hoare_neutron_star_conversion parameters o Hnd w Ho) as H.
  rewrite Hrun in H. exact H.
Qed.

(** ** What the stages of the likelihood write *)

Lemma has_key_grows r k w w' : grows w w' -> has_key r k w -> has_key r k w'.
Proof.
  intros Hg (o & Ho & Hk). destruct (Hg r o Ho) as (o' & Ho' & _ & [g Hg'] & _).
  exists o'. split; [exact Ho' |]. apply dict_mem_keys. rewrite Hg'.
  apply in_or_app. left. now apply dict_mem_true_In.
Qed.

Lemma hoare_any {A : Type} (P : world -> Prop) (m : M A) :
  hoare P m (fun _ _ => True).
Proof. intros w _. now destruct (m w) as [[a | e] w']. Qed.

Lemma hoare_then {A B : Type} (m : M A) (f : A -> M B) Q :
  (forall a, hoare (fun _ => True) (f a) Q) ->
  hoare (fun _ => True) (bind m f) Q.
Proof.
  intros Hf. apply hoare_bind with (R := fun _ _ => True);
    [apply hoare_any | exact Hf].
Qed.

Lemma hoare_keeps_key {A : Type} r k (m : M A) :
  monotone m -> hoare (has_key r k) m (fun _ => has_key r k).
Proof.
  intros Hm w Hk. specialize (Hm w).
  destruct (m w) as [[a | e] w']; [| exact I]. simpl in Hm.
  now apply (has_key_grows r k w).
Qed.

Lemma hoare_setitem_has_key r k v :
  hoare (fun _ => True) (setitem r k v) (fun _ => has_key r k).
Proof.
  intros w _. unfold setitem, bind, deref.
  destruct (obj_at w r) as [o |] eqn:Ho; [| exact I].
  assert (Hset : forall c v',
             has_key r k
               (set_heap
                  (list_update (heap w) r
                     (mkObject c (dict_set (items o) k v'))) w)).
  { intros c v'. eexists. split; [now apply obj_at_update with (o := o) |].
    simpl. now rewrite dict_mem_set, String.eqb_refl. }
  destruct (shape o) eqn:Es; try exact I.
  - simpl. apply Hset.
  - destruct (stored (FrameC nrows) v) as [v' |]; [| exact I]. apply Hset.
Qed.

(** A loop whose turns store keys in [r]. *)
Lemma hoare_for_each_keys {A : Type} (xs : list A) (body : A -> M unit)
    (r : ref) (keys_of : A -> list string) :
  (forall x, monotone (body x)) ->
  (forall x k, In k (keys_of x) ->
               hoare (fun _ => True) (body x) (fun _ => has_key r k)) ->
  hoare (fun _ => True) (for_each xs body)
    (fun _ w => forall x k, In x xs -> In k (keys_of x) -> has_key r k w).
Proof.
  intros Hm Hb. induction xs as [| x xs IH]; intros w _; simpl.
  - intros x k [].
  - unfold bind. destruct (body x w) as [[[] | e] w1] eqn:E1; [| exact I].
    pose proof (monotone_for_each xs body Hm w1) as Hg.
    specialize (IH w1 I).
    destruct (for_each xs body w1) as [[[] | e] w2] eqn:E2; [| exact I].
    simpl in Hg. intros x' k [<- | Hin] Hk.
    + apply (has_key_grows r k w1); [exact Hg |].
      pose proof (Hb x k Hk w I) as H. now rewrite E1 in H.
    + now apply (IH x' k).
Qed.

Lemma In_enumerate {A : Type} (l : list A) (x : A) :
  In x l -> exists i, In (i, x) (enumerate l).
Proof.
  unfold enumerate. generalize 0%nat.
  induction l as [| y l IH]; intros s; [intros [] |].
  intros [-> | Hin]; simpl.
  - exists s. now left.
  - destruct (IH (S s) Hin) as (i & Hi). exists i. now right.
Qed.

Lemma hoare_assign_columns r names rows :
  hoare (fun _ => True) (assign_columns r names rows)
    (fun _ w => forall k, In k names -> has_key r k w).
Proof.
  unfold assign_columns.
  eapply hoare_weaken;
    [apply (hoare_for_each_keys (enumerate names) _ r
              (fun ii_key => [snd ii_key]))
    | auto | ].
  - intros [ii key]. grow_tac.
  - intros [ii key] k [<- | []]. simpl. apply hoare_then. intros col.
    apply hoare_setitem_has_key.
  - intros ? w H k Hk. destruct (In_enumerate names k Hk) as (i & Hi).
    apply (H (i, k) k Hi). now left.
Qed.

Lemma hoare_two_keys r k1 v1 k2 v2 k :
  In k [k1; k2] ->
  hoare (fun _ => True) (setitem r k1 v1 ;; setitem r k2 v2)
    (fun _ => has_key r k).
Proof.
  intros [<- | [<- | []]].
  - eapply hoare_bind; [apply hoare_setitem_has_key | intros ?].
    apply hoare_keeps_key, monotone_setitem.
  - apply hoare_then. intros ?. apply hoare_setitem_has_key.
Qed.

Lemma hoare_compute_snrs sample l npool :
  hoare (fun _ => True) (compute_snrs sample (Some l) npool)
    (fun _ w =>
       forall ifo, In ifo (interferometers l) ->
         has_key sample (ifo ++ "_matched_filter_snr") w
         /\ has_key sample (ifo ++ "_optimal_snr") w).
Proof.
  unfold compute_snrs. apply hoare_then. intros o.
  destruct (shape o); [| | apply hoare_raise].
  - apply hoare_then. intros ?. apply hoare_then. intros ?. cbv zeta.
    eapply hoare_weaken;
      [apply (hoare_for_each_keys (interferometers l) _ sample
                (fun ifo => [ifo ++ "_matched_filter_snr";
                             ifo ++ "_optimal_snr"]))
      | auto | ].
    + intros ifo. grow_tac.
    + intros ifo k Hk. apply hoare_then. intros parameters. cbv zeta.
      now apply hoare_two_keys.
    + intros ? w H ifo Hifo. split; apply (H ifo); simpl; auto.
  - cbv zeta. apply hoare_then. intros new_samples.
    eapply hoare_weaken;
      [apply (hoare_for_each_keys (enumerate (interferometers l)) _ sample
                (fun ii_ifo => [snd ii_ifo ++ "_matched_filter_snr";
                                snd ii_ifo ++ "_optimal_snr"]))
      | auto | ].
    + intros [ii ifo]. grow_tac.
    + intros [ii ifo] k Hk. cbv zeta. now apply hoare_two_keys.
    + intros ? w H ifo Hifo.
      destruct (In_enumerate _ ifo Hifo) as (i & Hi).
      split; apply (H (i, ifo)); simpl; auto.
Qed.

Lemma hoare_per_detector_on_a_table samples l npool block :
  per_detector_callable l = true ->
  hoare (fun w => exists o n, obj_at w samples = Some o
                              /\ shape o = FrameC n)
    (compute_per_detector_log_likelihoods samples (Some l) npool block)
    (fun r w =>
       r = Some samples
       /\ forall ifo, In ifo (interferometers l) ->
                      has_key samples (ifo ++ "_log_likelihood") w).
Proof.
  intros Hc w (o & n & Ho & Hs).
  unfold compute_per_detector_log_likelihoods. rewrite Hc. cbn [negb].
  rewrite run_bind. unfold deref. rewrite Ho, Hs. cbv zeta.
  revert w Ho.
  match goal with
  | |- forall w, _ -> match ?m w with _ => _ end =>
      assert (H : hoare (fun _ => True) m
                    (fun r w =>
                       r = Some samples
                       /\ forall ifo, In ifo (interferometers l) ->
                            has_key samples (ifo ++ "_log_likelihood") w))
  end.
  { apply hoare_then. intros ?. apply hoare_then. intros bs.
    apply hoare_then. intros new_samples.
    eapply hoare_bind; [apply hoare_assign_columns | intros ?].
    apply hoare_ret. intros w H. split; [reflexivity |].
    intros ifo Hifo. apply H.
    now apply (in_map (fun ifo => ifo ++ "_log_likelihood")). }
  intros w _. now apply H.
Qed.

Lemma per_detector_on_a_point samples l npool block w o :
  obj_at w samples = Some o -> shape o = DictC ->
  per_detector_callable l = true ->
  exists w',
    compute_per_detector_log_likelihoods samples (Some l) npool block w
    = (Ok (Some (List.length (heap w))), w')
    /\ obj_at w' samples = Some o
    /\ heap w'
       = (heap w
          ++ [point (fst (compute_per_detector_log_likelihood l
                            (dict_update (lik_parameters w) (items o))))])%list.
Proof.
  intros Ho Hs Hc. unfold compute_per_detector_log_likelihoods.
  rewrite Hc. cbn [negb]. rewrite run_bind. unfold deref. rewrite Ho, Hs.
  unfold bind, update_likelihood_parameters, log_event,
    get_likelihood_parameters.
  cbn [lik_parameters set_trace set_lik_parameters].
  destruct (compute_per_detector_log_likelihood l
              (dict_update (lik_parameters w) (items o)))
    as [new_sample parameters'].
  eexists. split; [reflexivity |]. split; [| reflexivity].
  unfold obj_at in *. simpl. rewrite nth_error_app1; [assumption |].
  apply nth_error_Some. congruence.
Qed.

Lemma hoare_reconstruction_of_blocks samples l npool block use_cache o bs0 :
  hoare (fun _ => True)
    (reconstruction_of_blocks samples l npool block use_cache o bs0)
    (fun r w =>
       r = samples
       /\ forall k, In k (marginalized_parameters_of (Some l)) ->
                    has_key samples k w).
Proof.
  unfold reconstruction_of_blocks. apply hoare_then. intros ?. cbv zeta.
  apply hoare_then. intros bs. apply hoare_then. intros new_samples.
  eapply hoare_bind; [apply hoare_assign_columns | intros ?].
  apply hoare_ret. intros w H. now split.
Qed.

Lemma sky_frame_on_a_point samples l w o w' :
  obj_at w samples = Some o -> shape o = DictC ->
  generate_sky_frame_parameters samples l w = (Ok tt, w') ->
  forall k,
    dict_mem
      (get_sky_frame_parameters l (dict_update (lik_parameters w) (items o)))
      k = true ->
    has_key samples k w'.
Proof.
  intros Ho Hs Hrun k Hk. unfold generate_sky_frame_parameters in Hrun.
  rewrite run_bind in Hrun. unfold deref in Hrun. rewrite Ho, Hs in Hrun.
  unfold bind at 1, update_likelihood_parameters in Hrun.
  unfold bind at 1, get_likelihood_parameters in Hrun.
  cbn [lik_parameters set_lik_parameters] in Hrun.
  unfold update_items in Hrun.
  apply dict_mem_true_In in Hk. unfold dict_keys in Hk.
  apply in_map_iff in Hk. destruct Hk as (kv & <- & Hkv).
  match type of Hrun with
  | for_each ?d ?body ?w1 = _ =>
      pose proof (hoare_for_each_keys d body samples (fun kv => [fst kv]))
        as H;
      specialize (H (fun kv => monotone_setitem samples (fst kv) (snd kv)));
      assert (Hb : forall (x : string * value) k,
                 In k [fst x] ->
                 hoare (fun _ => True) (body x)
                   (fun _ => has_key samples k))
        by (intros x k [<- | []]; apply hoare_setitem_has_key);
      specialize (H Hb w1 I)
  end.
  rewrite Hrun in H. apply (H kv); [exact Hkv | now left].
Qed.


End Pipeline.

(** ** The mass algebra *)

(** *** Powers and roots *)

Lemma float_pow_pos x y : 0 < x -> x ** y = Rpower x y.
Proof. intros H. unfold float_pow. destruct (Rlt_dec 0 x); [reflexivity | contradiction]. Qed.

Lemma float_pow_zero y : y <> 0 -> 0 ** y = 0.
Proof.
  intros H. unfold float_pow.
  destruct (Rlt_dec 0 0) as [L | _]; [lra |].
  destruct (Req_dec_T 0 0) as [_ | N]; [| contradiction].
  destruct (Req_dec_T y 0); [contradiction | reflexivity].
Qed.

Lemma float_pow_half x : 0 <= x -> x ** 0.5 = sqrt x.
Proof.
  intros [H | <-].
  - rewrite float_pow_pos by assumption.
    replace 0.5 with (/ 2) by lra. now apply Rpower_sqrt.
  - rewrite float_pow_zero by lra. now rewrite sqrt_0.
Qed.

Lemma cbrt_pos x : 0 < x -> cbrt x = Rpower x (1 / 3).
Proof. intros H. unfold cbrt. destruct (Rlt_dec 0 x); [reflexivity | contradiction]. Qed.

Lemma Rpower_pos x y : 0 < Rpower x y.
Proof. unfold Rpower. apply exp_pos. Qed.

Lemma Rpower_div_distr x y z :
  0 < x -> 0 < y -> Rpower x z / Rpower y z = Rpower (x / y) z.
Proof.
  intros Hx Hy. unfold Rdiv.
  rewrite <- Rpower_mult_distr by (try apply Rinv_0_lt_compat; assumption).
  f_equal. unfold Rpower. rewrite ln_Rinv by assumption.
  rewrite <- exp_Ropp. f_equal. ring.
Qed.

Lemma total_mass_roundtrip m1 m2 : 0 < m1 -> 0 < m2 ->
  total_mass_and_mass_ratio_to_component_masses
    (component_masses_to_mass_ratio m1 m2) (component_masses_to_total_mass m1 m2)
  = (m1, m2).
Proof.
  intros H1 H2.
  unfold total_mass_and_mass_ratio_to_component_masses,
    component_masses_to_mass_ratio, component_masses_to_total_mass.
  assert (E : (m1 + m2) / (1 + m2 / m1) = m1) by (field; lra).
  rewrite E. f_equal. field; lra.
Qed.

Lemma chirp_total_roundtrip m1 m2 : 0 < m1 -> 0 < m2 ->
  chirp_mass_and_mass_ratio_to_total_mass
    (component_masses_to_chirp_mass m1 m2) (component_masses_to_mass_ratio m1 m2)
  = m1 + m2.
Proof.
  intros H1 H2.
  unfold chirp_mass_and_mass_ratio_to_total_mass, component_masses_to_chirp_mass,
    component_masses_to_mass_ratio.
  assert (Hq : 0 < m2 / m1) by (apply Rdiv_lt_0_compat; assumption).
  assert (Hp : 0 < m1 * m2) by (apply Rmult_lt_0_compat; assumption).
  rewrite !float_pow_pos by lra.
  replace (1 + m2 / m1) with ((m1 + m2) / m1) by (field; lra).
  replace (m2 / m1) with ((m1 * m2) / (m1 * m1)) by (field; lra).
  rewrite <- !Rpower_div_distr by nra.
  rewrite <- (Rpower_mult_distr m1 m1) by lra.
  replace 1.2 with (0.2 + 1) by lra.
  rewrite !Rpower_plus, !Rpower_1 by lra.
  replace 0.6 with (0.2 + 0.2 + 0.2) by lra.
  rewrite !Rpower_plus.
  assert (E5 : m1 = Rpower m1 0.2 ^ 5).
  { rewrite <- Rpower_pow by apply Rpower_pos. rewrite Rpower_mult.
    replace (0.2 * INR 5) with 1 by (simpl; lra). now rewrite Rpower_1. }
  pose proof (Rpower_pos m1 0.2) as Ha.
  pose proof (Rpower_pos (m1 + m2) 0.2) as Hb.
  pose proof (Rpower_pos (m1 * m2) 0.2) as Hc.
  set (s := m1 + m2) in *. assert (Hs : 0 < s) by (unfold s; lra).
  set (a := Rpower m1 0.2) in *. set (b := Rpower s 0.2) in *.
  set (c := Rpower (m1 * m2) 0.2) in *.
  rewrite E5. field. repeat split; lra.
Qed.

(** C4: for [mass_1 > mass_2 > 0], the total mass and the mass ratio give
    the two masses back, and so do the chirp mass and the mass ratio. *)
Theorem mass_roundtrip m1 m2 : 0 < m2 -> m2 < m1 ->
  total_mass_and_mass_ratio_to_component_masses
    (component_masses_to_mass_ratio m1 m2) (component_masses_to_total_mass m1 m2)
  = (m1, m2)
  /\ chirp_mass_and_mass_ratio_to_component_masses
       (component_masses_to_chirp_mass m1 m2) (component_masses_to_mass_ratio m1 m2)
     = (m1, m2).
Proof.
  intros H2 H12. assert (H1 : 0 < m1) by lra.
  split; [now apply total_mass_roundtrip |].
  unfold chirp_mass_and_mass_ratio_to_component_masses.
  rewrite chirp_total_roundtrip by assumption.
  now apply total_mass_roundtrip.
Qed.

Lemma symmetric_temp_ge_1 eta : 0 < eta <= 0.25 -> 1 <= 1 / eta / 2 - 1.
Proof.
  intros [H0 H1].
  assert (4 <= / eta).
  { replace 4 with (/ 0.25) by lra. apply Rinv_le_contravar; lra. }
  unfold Rdiv. lra.
Qed.

(** C5, as amended: in exact real arithmetic, for a symmetric mass ratio
    in (0, 0.25] the conversion computes [t - sqrt(t^2 - 1)] with
    [t = 1/(2 eta) - 1]; the result [q] is in (0, 1] and it is the physical
    root: [eta * (1 + q)^2 = q]. *)
Theorem symmetric_mass_ratio_root eta : 0 < eta <= 0.25 ->
  let t := 1 / (2 * eta) - 1 in
  let q := symmetric_mass_ratio_to_mass_ratio eta in
  q = t - sqrt (t ^ 2 - 1)
  /\ 0 < q <= 1
  /\ eta * (1 + q) ^ 2 = q.
Proof.
  intros Heta t q. subst q.
  assert (Et : 1 / eta / 2 - 1 = t) by (unfold t; field; lra).
  pose proof (symmetric_temp_ge_1 eta Heta) as Ht. rewrite Et in Ht.
  unfold symmetric_mass_ratio_to_mass_ratio. rewrite Et.
  assert (Hd : 0 <= t ^ 2 - 1) by nra.
  rewrite float_pow_half by assumption.
  split; [reflexivity |].
  pose proof (sqrt_pos (t ^ 2 - 1)) as Hs.
  pose proof (sqrt_sqrt (t ^ 2 - 1) Hd) as Hss.
  split; [split; nra |].
  assert (Eeta : eta = 1 / (2 * (t + 1))) by (unfold t; field; lra).
  rewrite Eeta. set (s := sqrt (t ^ 2 - 1)) in *.
  assert (Hq : (t - s) ^ 2 - 2 * t * (t - s) + 1 = 0) by nra.
  field_simplify_eq; [nra | lra].
Qed.

Section Cardano.

Variable a : R.
Hypothesis a_pos : 0 < a.
Hypothesis a_dom : a <= 27 / 4.

Lemma cardano_radicand_nonneg : 0 <= 27 * a ^ 2 - 4 * a ^ 3.
Proof using a_dom.
  replace (27 * a ^ 2 - 4 * a ^ 3) with (a ^ 2 * (27 - 4 * a)) by ring.
  nra.
Qed.

Lemma cardano_sum_pos : 0 < 9 * a + sqrt 3 * sqrt (27 * a ^ 2 - 4 * a ^ 3).
Proof using a_pos a_dom.
  pose proof (sqrt_pos 3). pose proof (sqrt_pos (27 * a ^ 2 - 4 * a ^ 3)).
  nra.
Qed.

Lemma cardano_first_term :
  cbrt (2 / 3) * a / cbrt (9 * a + sqrt 3 * sqrt (27 * a ^ 2 - 4 * a ^ 3))
  = Rpower (2 / 3 / (9 * a + sqrt 3 * sqrt (27 * a ^ 2 - 4 * a ^ 3)))
      (1 / 3) * a.
Proof using a_pos a_dom.
  pose proof cardano_sum_pos as Hs.
  rewrite !cbrt_pos by lra.
  rewrite <- (Rpower_div_distr (2 / 3) _) by lra.
  unfold Rdiv. ring.
Qed.

Lemma cardano_second_term :
  cbrt (9 * a + sqrt 3 * sqrt (27 * a ^ 2 - 4 * a ^ 3))
  / (cbrt 2 * 3 ** (2 / 3))
  = Rpower ((9 * a + sqrt 3 * sqrt (27 * a ^ 2 - 4 * a ^ 3)) / (2 * 3 ^ 2))
      (1 / 3).
Proof using a_pos a_dom.
  pose proof cardano_sum_pos as Hs.
  rewrite !cbrt_pos by lra. rewrite float_pow_pos by lra.
  replace (2 / 3) with (2 * (1 / 3)) at 1 by lra.
  rewrite <- Rpower_mult.
  replace (Rpower 3 2) with (3 ^ 2)
    by (rewrite <- Rpower_pow by lra; f_equal; simpl; lra).
  rewrite Rpower_mult_distr by lra.
  rewrite Rpower_div_distr by lra. reflexivity.
Qed.

End Cardano.

(** C10: for positive [chirp_mass] and [mass_1] with
    [(chirp_mass / mass_1)^5 <= 27/4], the two solvers of the mass ratio
    return the same number. *)
Theorem mass_ratio_solvers_agree chirp_mass mass_1 :
  0 < chirp_mass -> 0 < mass_1 -> (chirp_mass / mass_1) ^ 5 <= 27 / 4 ->
  chirp_mass_and_primary_mass_to_mass_ratio chirp_mass mass_1
  = mass_1_and_chirp_mass_to_mass_ratio mass_1 chirp_mass.
Proof.
  intros Hc Hm Hd.
  assert (Ha : 0 < (chirp_mass / mass_1) ^ 5)
    by (apply pow_lt, Rdiv_lt_0_compat; assumption).
  pose proof (cardano_radicand_nonneg _ Hd) as Hr.
  pose proof (cardano_sum_pos _ Ha Hd) as Hs.
  unfold chirp_mass_and_primary_mass_to_mass_ratio, mass_1_and_chirp_mass_to_mass_ratio.
  cbv zeta.
  rewrite (cardano_first_term _ Ha Hd), (cardano_second_term _ Ha Hd).
  rewrite !float_pow_half by (assumption || lra).
  set (a := (chirp_mass / mass_1) ^ 5) in *.
  set (r := sqrt (27 * a ^ 2 - 4 * a ^ 3)) in *.
  replace (sqrt 3 * r + 9 * a) with (9 * a + sqrt 3 * r) by ring.
  assert (Hs' : 0 < 9 * a + sqrt 3 * r) by exact Hs.
  assert (Hq : 0 < 2 / 3 / (9 * a + sqrt 3 * r))
    by (apply Rdiv_lt_0_compat; lra).
  assert (Hp : 0 < (9 * a + sqrt 3 * r) / (2 * 3 ^ 2))
    by (apply Rdiv_lt_0_compat; lra).
  rewrite !float_pow_pos by assumption.
  reflexivity.
Qed.

(** Inside its domain the primary-mass solver returns a positive number. *)
Lemma primary_solver_pos mass_1 chirp_mass :
  0 < mass_1 -> 0 < chirp_mass -> (chirp_mass / mass_1) ^ 5 <= 27 / 4 ->
  0 < mass_1_and_chirp_mass_to_mass_ratio mass_1 chirp_mass.
Proof.
  intros Hm Hc Hd.
  assert (Ha : 0 < (chirp_mass / mass_1) ^ 5)
    by (apply pow_lt, Rdiv_lt_0_compat; assumption).
  pose proof (cardano_radicand_nonneg _ Hd) as Hr.
  pose proof (cardano_sum_pos _ Ha Hd) as Hs.
  unfold mass_1_and_chirp_mass_to_mass_ratio. cbv zeta.
  rewrite !float_pow_half by (assumption || lra).
  set (a := (chirp_mass / mass_1) ^ 5) in *.
  set (r := sqrt (27 * a ^ 2 - 4 * a ^ 3)) in *.
  assert (Hs' : 0 < sqrt 3 * r + 9 * a) by lra.
  assert (Hq : 0 < 2 / 3 / (sqrt 3 * r + 9 * a))
    by (apply Rdiv_lt_0_compat; lra).
  assert (Hp : 0 < (sqrt 3 * r + 9 * a) / (2 * 3 ^ 2))
    by (apply Rdiv_lt_0_compat; lra).
  rewrite !float_pow_pos by assumption.
  pose proof (Rpower_pos (2 / 3 / (sqrt 3 * r + 9 * a)) (1 / 3)).
  pose proof (Rpower_pos ((sqrt 3 * r + 9 * a) / (2 * 3 ^ 2)) (1 / 3)).
  nra.
Qed.

(** C3: for positive [mass_2] and [chirp_mass] the ratio computed from the
    secondary mass is the reciprocal of what the primary-mass solver
    returns on the same two arguments.  Inside the domain of the solver
    the divisor is positive, so the quotient is a division by a number
    other than zero and the two results multiply to 1. *)
Theorem mass_2_ratio_is_reciprocal mass_2 chirp_mass :
  0 < mass_2 -> 0 < chirp_mass ->
  mass_2_and_chirp_mass_to_mass_ratio mass_2 chirp_mass
  = 1 / mass_1_and_chirp_mass_to_mass_ratio mass_2 chirp_mass
  /\ ((chirp_mass / mass_2) ^ 5 <= 27 / 4 ->
      0 < mass_1_and_chirp_mass_to_mass_ratio mass_2 chirp_mass
      /\ mass_2_and_chirp_mass_to_mass_ratio mass_2 chirp_mass
         * mass_1_and_chirp_mass_to_mass_ratio mass_2 chirp_mass = 1).
Proof.
  intros H2 Hc. split; [reflexivity |]. intros Hd.
  pose proof (primary_solver_pos mass_2 chirp_mass H2 Hc Hd) as Hpos.
  split; [exact Hpos |].
  unfold mass_2_and_chirp_mass_to_mass_ratio. field. lra.
Qed.


(** ** More of the mass algebra *)

Lemma product_le_quarter_square m1 m2 :
  0 < m1 -> 0 < m2 -> m1 * m2 / (m1 + m2) ^ 2 <= 1 / 4.
Proof.
  intros H1 H2.
  assert (Hs : 0 < (m1 + m2) ^ 2) by nra.
  apply Rmult_le_reg_r with ((m1 + m2) ^ 2); [assumption |].
  unfold Rdiv. rewrite Rmult_assoc, Rinv_l by lra.
  pose proof (pow2_ge_0 (m1 - m2)). nra.
Qed.

(** X1: for positive masses the symmetric mass ratio is the plain quotient
    [m1 m2 / (m1 + m2)^2]: the cap at 1/4 never changes it.  It lies in
    (0, 1/4], and it is 1/4 for equal masses only. *)
Theorem symmetric_mass_ratio_cap_is_inactive m1 m2 :
  0 < m1 -> 0 < m2 ->
  component_masses_to_symmetric_mass_ratio m1 m2 = m1 * m2 / (m1 + m2) ^ 2
  /\ 0 < component_masses_to_symmetric_mass_ratio m1 m2 <= 1 / 4
  /\ (component_masses_to_symmetric_mass_ratio m1 m2 = 1 / 4 <-> m1 = m2).
Proof.
  intros H1 H2.
  pose proof (product_le_quarter_square m1 m2 H1 H2) as Hle.
  assert (E : component_masses_to_symmetric_mass_ratio m1 m2
              = m1 * m2 / (m1 + m2) ^ 2).
  { unfold component_masses_to_symmetric_mass_ratio. now apply Rmin_left. }
  rewrite E. split; [reflexivity |].
  assert (Hs : 0 < (m1 + m2) ^ 2) by nra.
  split.
  - split; [| assumption]. apply Rdiv_lt_0_compat; nra.
  - split.
    + intros Hq.
      assert (Hm : m1 * m2 = 1 / 4 * (m1 + m2) ^ 2).
      { rewrite <- Hq. field. lra. }
      assert (Hz : (m1 - m2) * (m1 - m2) = 0) by nra.
      destruct (Rmult_integral _ _ Hz); lra.
    + intros ->. field. lra.
Qed.

Lemma symmetric_ratio_roundtrip_aux m1 m2 :
  0 < m2 -> m2 <= m1 ->
  symmetric_mass_ratio_to_mass_ratio (m1 * m2 / (m1 + m2) ^ 2) = m2 / m1.
Proof.
  intros H2 H12. assert (H1 : 0 < m1) by lra.
  unfold symmetric_mass_ratio_to_mass_ratio. cbv zeta.
  assert (Et : 1 / (m1 * m2 / (m1 + m2) ^ 2) / 2 - 1
               = (m1 ^ 2 + m2 ^ 2) / (2 * m1 * m2)).
  { field. repeat split; lra. }
  rewrite Et.
  assert (Hp : 0 < 2 * m1 * m2) by nra.
  assert (Er : ((m1 ^ 2 + m2 ^ 2) / (2 * m1 * m2)) ^ 2 - 1
               = ((m1 ^ 2 - m2 ^ 2) / (2 * m1 * m2))
                 * ((m1 ^ 2 - m2 ^ 2) / (2 * m1 * m2))).
  { field. repeat split; lra. }
  assert (Hn : 0 <= (m1 ^ 2 - m2 ^ 2) / (2 * m1 * m2)).
  { apply Rmult_le_pos; [nra |]. left. now apply Rinv_0_lt_compat. }
  rewrite float_pow_half by (rewrite Er; nra).
  rewrite Er, sqrt_square by assumption.
  field. repeat split; lra.
Qed.

Lemma chirp_total_symmetric_aux m1 m2 :
  0 < m1 -> 0 < m2 ->
  chirp_mass_and_total_mass_to_symmetric_mass_ratio
    (component_masses_to_chirp_mass m1 m2) (component_masses_to_total_mass m1 m2)
  = m1 * m2 / (m1 + m2) ^ 2.
Proof.
  intros H1 H2.
  unfold chirp_mass_and_total_mass_to_symmetric_mass_ratio,
    component_masses_to_chirp_mass, component_masses_to_total_mass.
  assert (Hp : 0 < m1 * m2) by nra. assert (Hs : 0 < m1 + m2) by lra.
  rewrite (float_pow_pos (m1 * m2)), (float_pow_pos (m1 + m2)) by assumption.
  assert (E : Rpower (m1 * m2) 0.6 / Rpower (m1 + m2) 0.2 / (m1 + m2)
              = Rpower (m1 * m2) 0.6 / Rpower (m1 + m2) 1.2).
  { replace 1.2 with (0.2 + 1) by lra. rewrite Rpower_plus, Rpower_1 by assumption.
    field. split; [lra | apply Rgt_not_eq, Rpower_pos]. }
  rewrite E.
  rewrite float_pow_pos
    by (apply Rdiv_lt_0_compat; apply Rpower_pos).
  rewrite <- Rpower_div_distr by apply Rpower_pos.
  rewrite !Rpower_mult.
  replace (0.6 * (5 / 3)) with 1 by lra.
  replace (1.2 * (5 / 3)) with (INR 2) by (simpl; lra).
  rewrite Rpower_1, Rpower_pow by assumption. reflexivity.
Qed.

Lemma Rpower_third_cube x : 0 < x -> Rpower x (1 / 3) ^ 3 = x.
Proof.
  intros H. rewrite <- Rpower_pow by apply Rpower_pos.
  rewrite Rpower_mult. replace (1 / 3 * INR 3) with 1 by (simpl; lra).
  now apply Rpower_1.
Qed.

Lemma cardano_root_solves a :
  0 < a -> a <= 27 / 4 ->
  0 < cardano_root a /\ cardano_root a ^ 3 = a * (1 + cardano_root a).
Proof.
  intros Ha Hd.
  pose proof (cardano_radicand_nonneg a Hd) as Hr.
  pose proof (cardano_sum_pos a Ha Hd) as Hs.
  unfold cardano_root.
  pose proof (sqrt_sqrt 3 ltac:(lra)) as Ht.
  pose proof (sqrt_sqrt _ Hr) as Hrr.
  set (r := sqrt (27 * a ^ 2 - 4 * a ^ 3)) in *.
  set (t := sqrt 3) in *.
  set (S := t * r + 9 * a).
  assert (HS : 0 < S) by (unfold S; lra).
  assert (Hq : 0 < 2 / 3 / S) by (apply Rdiv_lt_0_compat; lra).
  assert (Hp : 0 < S / (2 * 3 ^ 2)) by (apply Rdiv_lt_0_compat; lra).
  pose proof (Rpower_third_cube _ Hq) as Hp3.
  pose proof (Rpower_third_cube _ Hp) as Hv3.
  assert (Hpv : Rpower (2 / 3 / S) (1 / 3) * Rpower (S / (2 * 3 ^ 2)) (1 / 3)
                = 1 / 3).
  { rewrite Rpower_mult_distr by assumption.
    replace (2 / 3 / S * (S / (2 * 3 ^ 2))) with ((1 / 3) ^ 3) by (field; lra).
    rewrite <- Rpower_pow by lra. rewrite Rpower_mult.
    replace (INR 3 * (1 / 3)) with 1 by (simpl; lra).
    apply Rpower_1. lra. }
  pose proof (Rpower_pos (2 / 3 / S) (1 / 3)) as Hppos.
  pose proof (Rpower_pos (S / (2 * 3 ^ 2)) (1 / 3)) as Hvpos.
  set (p := Rpower (2 / 3 / S) (1 / 3)) in *.
  set (v := Rpower (S / (2 * 3 ^ 2)) (1 / 3)) in *.
  split; [nra |].
  assert (K : 12 * a ^ 3 + S * S = 18 * a * S).
  { unfold S.
    transitivity (12 * a ^ 3 + (t * t) * (r * r) + 18 * a * t * r + 81 * a ^ 2);
      [ring |].
    rewrite Ht, Hrr. ring. }
  assert (E : 2 / 3 / S * a ^ 3 + S / (2 * 3 ^ 2) = a).
  { transitivity ((12 * a ^ 3 + S * S) / (18 * S)); [field; lra |].
    rewrite K. field. lra. }
  transitivity (p ^ 3 * a ^ 3 + 3 * (p * v) * p * a ^ 2 + 3 * (p * v) * a * v
                + v ^ 3); [ring |].
  rewrite Hpv, Hp3, Hv3.
  transitivity (2 / 3 / S * a ^ 3 + S / (2 * 3 ^ 2) + a * (p * a + v));
    [field; lra |].
  rewrite E. ring.
Qed.

Lemma cubic_root_unique a q q0 :
  0 < q -> 0 < q0 -> q ^ 3 = a * (1 + q) -> q0 ^ 3 = a * (1 + q0) -> q = q0.
Proof.
  intros Hq Hq0 E E0.
  assert (H : (q - q0) * (q ^ 2 + q * q0 + q0 ^ 2 + q * q0 * (q + q0)) = 0).
  { transitivity (q ^ 3 * (1 + q0) - q0 ^ 3 * (1 + q)); [ring |].
    rewrite E, E0. ring. }
  destruct (Rmult_integral _ _ H) as [H1 | H1]; [lra |].
  assert (0 < q * q0) by nra. nra.
Qed.

Lemma primary_solver_normal_form mass_1 chirp_mass :
  0 < mass_1 -> 0 < chirp_mass -> (chirp_mass / mass_1) ^ 5 <= 27 / 4 ->
  mass_1_and_chirp_mass_to_mass_ratio mass_1 chirp_mass
  = cardano_root ((chirp_mass / mass_1) ^ 5).
Proof.
  intros Hm Hc Hd.
  assert (Ha : 0 < (chirp_mass / mass_1) ^ 5)
    by (apply pow_lt, Rdiv_lt_0_compat; assumption).
  pose proof (cardano_radicand_nonneg _ Hd) as Hr.
  pose proof (cardano_sum_pos _ Ha Hd) as Hs.
  unfold mass_1_and_chirp_mass_to_mass_ratio, cardano_root. cbv zeta.
  rewrite !float_pow_half by (assumption || lra).
  set (a := (chirp_mass / mass_1) ^ 5) in *.
  set (r := sqrt (27 * a ^ 2 - 4 * a ^ 3)) in *.
  assert (Hs' : 0 < sqrt 3 * r + 9 * a) by lra.
  assert (Hq : 0 < 2 / 3 / (sqrt 3 * r + 9 * a))
    by (apply Rdiv_lt_0_compat; lra).
  assert (Hp : 0 < (sqrt 3 * r + 9 * a) / (2 * 3 ^ 2))
    by (apply Rdiv_lt_0_compat; lra).
  rewrite !float_pow_pos by assumption.
  reflexivity.
Qed.

Lemma chirp_primary_normal_form chirp_mass mass_1 :
  0 < mass_1 -> 0 < chirp_mass -> (chirp_mass / mass_1) ^ 5 <= 27 / 4 ->
  chirp_mass_and_primary_mass_to_mass_ratio chirp_mass mass_1
  = cardano_root ((chirp_mass / mass_1) ^ 5).
Proof.
  intros Hm Hc Hd.
  assert (Ha : 0 < (chirp_mass / mass_1) ^ 5)
    by (apply pow_lt, Rdiv_lt_0_compat; assumption).
  unfold chirp_mass_and_primary_mass_to_mass_ratio, cardano_root. cbv zeta.
  rewrite (cardano_first_term _ Ha Hd), (cardano_second_term _ Ha Hd).
  set (a := (chirp_mass / mass_1) ^ 5) in *.
  replace (sqrt 3 * sqrt (27 * a ^ 2 - 4 * a ^ 3) + 9 * a)
    with (9 * a + sqrt 3 * sqrt (27 * a ^ 2 - 4 * a ^ 3)) by ring.
  reflexivity.
Qed.

Lemma chirp_over_primary m1 m2 :
  0 < m1 -> 0 < m2 ->
  (component_masses_to_chirp_mass m1 m2 / m1) ^ 5
  = (m2 / m1) ^ 3 / (1 + m2 / m1).
Proof.
  intros H1 H2.
  unfold component_masses_to_chirp_mass.
  assert (Hp : 0 < m1 * m2) by nra. assert (Hs : 0 < m1 + m2) by lra.
  rewrite !float_pow_pos by assumption.
  assert (E6 : Rpower (m1 * m2) 0.6 ^ 5 = (m1 * m2) ^ 3).
  { rewrite <- !Rpower_pow by (apply Rpower_pos || assumption).
    rewrite Rpower_mult. f_equal. simpl. lra. }
  assert (E2 : Rpower (m1 + m2) 0.2 ^ 5 = m1 + m2).
  { rewrite <- Rpower_pow by apply Rpower_pos.
    rewrite Rpower_mult. replace (0.2 * INR 5) with 1 by (simpl; lra).
    now apply Rpower_1. }
  pose proof (Rpower_pos (m1 + m2) 0.2) as Hb.
  transitivity (Rpower (m1 * m2) 0.6 ^ 5 / Rpower (m1 + m2) 0.2 ^ 5 / m1 ^ 5).
  { field. split; lra. }
  rewrite E6, E2. field. repeat split; lra.
Qed.

Lemma ratio_in_domain q : 0 < q -> q <= 3 -> q ^ 3 / (1 + q) <= 27 / 4.
Proof.
  intros H0 H3.
  apply Rmult_le_reg_r with (1 + q); [lra |].
  unfold Rdiv. rewrite Rmult_assoc, Rinv_l, Rmult_1_r by lra.
  assert (H : 27 / 4 * (1 + q) - q ^ 3 = (3 - q) * (2 * q + 3) ^ 2 / 4)
    by field.
  assert (0 <= (3 - q) * (2 * q + 3) ^ 2 / 4).
  { apply Rmult_le_pos; [| lra]. apply Rmult_le_pos; [lra |]. apply pow2_ge_0. }
  lra.
Qed.

Lemma primary_solver_inverts m1 m2 :
  0 < m1 -> 0 < m2 -> m2 <= 3 * m1 ->
  (component_masses_to_chirp_mass m1 m2 / m1) ^ 5 <= 27 / 4
  /\ cardano_root ((component_masses_to_chirp_mass m1 m2 / m1) ^ 5) = m2 / m1.
Proof.
  intros H1 H2 H3.
  assert (Hq : 0 < m2 / m1) by now apply Rdiv_lt_0_compat.
  assert (Hq3 : m2 / m1 <= 3).
  { apply Rmult_le_reg_r with m1; [assumption |].
    unfold Rdiv. rewrite Rmult_assoc, Rinv_l, Rmult_1_r by lra. lra. }
  rewrite (chirp_over_primary m1 m2 H1 H2).
  pose proof (ratio_in_domain _ Hq Hq3) as Hd.
  split; [assumption |].
  assert (Ha : 0 < (m2 / m1) ^ 3 / (1 + m2 / m1)).
  { apply Rdiv_lt_0_compat; [apply pow_lt; assumption | lra]. }
  destruct (cardano_root_solves _ Ha Hd) as [Hpos Hroot].
  apply (cubic_root_unique ((m2 / m1) ^ 3 / (1 + m2 / m1))); try assumption.
  field. split; lra.
Qed.

(** X2: for [mass_1 >= mass_2 > 0] the mass ratio computed from the
    symmetric mass ratio of the two masses is [mass_2 / mass_1]. *)
Theorem symmetric_mass_ratio_roundtrip m1 m2 :
  0 < m2 -> m2 <= m1 ->
  symmetric_mass_ratio_to_mass_ratio
    (component_masses_to_symmetric_mass_ratio m1 m2)
  = component_masses_to_mass_ratio m1 m2.
Proof.
  intros H2 H12. assert (H1 : 0 < m1) by lra.
  unfold component_masses_to_symmetric_mass_ratio.
  rewrite Rmin_left by now apply product_le_quarter_square.
  now apply symmetric_ratio_roundtrip_aux.
Qed.

(** X3: for positive masses the symmetric mass ratio computed from the
    chirp mass and the total mass is the symmetric mass ratio of the
    masses. *)
Theorem chirp_and_total_mass_give_the_symmetric_ratio m1 m2 :
  0 < m1 -> 0 < m2 ->
  chirp_mass_and_total_mass_to_symmetric_mass_ratio
    (component_masses_to_chirp_mass m1 m2)
    (component_masses_to_total_mass m1 m2)
  = component_masses_to_symmetric_mass_ratio m1 m2.
Proof.
  intros H1 H2. rewrite chirp_total_symmetric_aux by assumption.
  unfold component_masses_to_symmetric_mass_ratio.
  symmetry. now apply Rmin_left, product_le_quarter_square.
Qed.

(** X4: inside its domain [(chirp_mass / mass_1)^5 <= 27/4] the solver
    returns a positive root of the relation of its docstring,
    [(chirp_mass / mass_1)^5 = q^3 / (1 + q)]. *)
Theorem primary_solver_solves_the_cubic mass_1 chirp_mass :
  0 < mass_1 -> 0 < chirp_mass -> (chirp_mass / mass_1) ^ 5 <= 27 / 4 ->
  let q := mass_1_and_chirp_mass_to_mass_ratio mass_1 chirp_mass in
  0 < q /\ q ^ 3 / (1 + q) = (chirp_mass / mass_1) ^ 5.
Proof.
  intros Hm Hc Hd q. subst q.
  rewrite primary_solver_normal_form by assumption.
  assert (Ha : 0 < (chirp_mass / mass_1) ^ 5)
    by (apply pow_lt, Rdiv_lt_0_compat; assumption).
  destruct (cardano_root_solves _ Ha Hd) as [Hpos Hroot].
  split; [assumption |]. rewrite Hroot. field. lra.
Qed.

(** X5: both solvers for the primary mass invert the chirp mass: for
    positive masses with [mass_2 <= 3 mass_1], and so for every
    [mass_2 <= mass_1], they return [mass_2 / mass_1] from [mass_1] and the
    chirp mass of the pair. *)
Theorem primary_solvers_recover_the_mass_ratio m1 m2 :
  0 < m1 -> 0 < m2 -> m2 <= 3 * m1 ->
  mass_1_and_chirp_mass_to_mass_ratio m1 (component_masses_to_chirp_mass m1 m2)
  = component_masses_to_mass_ratio m1 m2
  /\ chirp_mass_and_primary_mass_to_mass_ratio
       (component_masses_to_chirp_mass m1 m2) m1
     = component_masses_to_mass_ratio m1 m2.
Proof.
  intros H1 H2 H3.
  destruct (primary_solver_inverts m1 m2 H1 H2 H3) as [Hd Hroot].
  assert (Hc : 0 < component_masses_to_chirp_mass m1 m2).
  { unfold component_masses_to_chirp_mass.
    rewrite !float_pow_pos by nra.
    apply Rdiv_lt_0_compat; apply Rpower_pos. }
  unfold component_masses_to_mass_ratio. split.
  - now rewrite primary_solver_normal_form.
  - now rewrite chirp_primary_normal_form.
Qed.

(** X6: the solver for the secondary mass inverts the chirp mass for
    positive masses with [mass_1 <= 3 mass_2], that is for mass ratios of
    1/3 and more: there it returns [mass_2 / mass_1]. *)
Theorem secondary_solver_recovers_the_mass_ratio m1 m2 :
  0 < m1 -> 0 < m2 -> m1 <= 3 * m2 ->
  mass_2_and_chirp_mass_to_mass_ratio m2 (component_masses_to_chirp_mass m1 m2)
  = component_masses_to_mass_ratio m1 m2.
Proof.
  intros H1 H2 H3.
  assert (Es : component_masses_to_chirp_mass m1 m2
               = component_masses_to_chirp_mass m2 m1).
  { unfold component_masses_to_chirp_mass.
    now rewrite (Rmult_comm m1 m2), (Rplus_comm m1 m2). }
  destruct (primary_solver_inverts m2 m1 H2 H1 H3) as [Hd Hroot].
  assert (Hc : 0 < component_masses_to_chirp_mass m2 m1).
  { unfold component_masses_to_chirp_mass.
    rewrite !float_pow_pos by nra.
    apply Rdiv_lt_0_compat; apply Rpower_pos. }
  unfold mass_2_and_chirp_mass_to_mass_ratio, component_masses_to_mass_ratio.
  rewrite Es, primary_solver_normal_form, Hroot by assumption.
  field. split; lra.
Qed.

(** X7: for a positive chirp mass and a positive mass ratio the component
    masses computed from them are positive and have that mass ratio and
    that chirp mass. *)
Theorem chirp_mass_and_mass_ratio_give_consistent_masses chirp_mass mass_ratio :
  0 < chirp_mass -> 0 < mass_ratio ->
  let masses :=
    chirp_mass_and_mass_ratio_to_component_masses chirp_mass mass_ratio in
  0 < fst masses /\ 0 < snd masses
  /\ component_masses_to_mass_ratio (fst masses) (snd masses) = mass_ratio
  /\ component_masses_to_chirp_mass (fst masses) (snd masses) = chirp_mass.
Proof.
  intros Hc Hq masses. subst masses.
  unfold chirp_mass_and_mass_ratio_to_component_masses,
    total_mass_and_mass_ratio_to_component_masses. cbv zeta. cbn [fst snd].
  assert (HK : 0 < (1 + mass_ratio) ** 1.2 / mass_ratio ** 0.6).
  { rewrite !float_pow_pos by lra. apply Rdiv_lt_0_compat; apply Rpower_pos. }
  assert (HT : 0 < chirp_mass_and_mass_ratio_to_total_mass chirp_mass mass_ratio).
  { unfold chirp_mass_and_mass_ratio_to_total_mass.
    replace (chirp_mass * (1 + mass_ratio) ** 1.2 / mass_ratio ** 0.6)
      with (chirp_mass * ((1 + mass_ratio) ** 1.2 / mass_ratio ** 0.6))
      by (unfold Rdiv; ring).
    now apply Rmult_lt_0_compat. }
  set (T := chirp_mass_and_mass_ratio_to_total_mass chirp_mass mass_ratio) in *.
  assert (H1 : 0 < T / (1 + mass_ratio)) by (apply Rdiv_lt_0_compat; lra).
  assert (H2 : 0 < T / (1 + mass_ratio) * mass_ratio)
    by now apply Rmult_lt_0_compat.
  assert (Eq : component_masses_to_mass_ratio (T / (1 + mass_ratio))
                 (T / (1 + mass_ratio) * mass_ratio) = mass_ratio).
  { unfold component_masses_to_mass_ratio. field. split; lra. }
  repeat split; try assumption.
  pose proof (chirp_total_roundtrip _ _ H1 H2) as Hrt.
  rewrite Eq in Hrt.
  assert (Esum : T / (1 + mass_ratio) + T / (1 + mass_ratio) * mass_ratio = T)
    by (field; lra).
  rewrite Esum in Hrt. unfold T in Hrt at 2.
  unfold chirp_mass_and_mass_ratio_to_total_mass in Hrt.
  set (c := component_masses_to_chirp_mass _ _) in *.
  assert (Ec : c * ((1 + mass_ratio) ** 1.2 / mass_ratio ** 0.6)
               = chirp_mass * ((1 + mass_ratio) ** 1.2 / mass_ratio ** 0.6)).
  { unfold Rdiv in *. rewrite <- !Rmult_assoc. exact Hrt. }
  apply Rmult_eq_reg_r in Ec; [assumption | lra].
Qed.

(** ** The tidal algebra *)

Lemma tidal_determinant eta s :
  s * s = 1 - 4 * eta ->
  let c1 := 1 + 7 * eta - 31 * eta ^ 2 in
  let c2 := s * (1 + 9 * eta - 11 * eta ^ 2) in
  let c3 := s * (1 - 13272 / 1319 * eta + 8944 / 1319 * eta ^ 2) in
  let c4 := 1 - 15910 / 1319 * eta + 32850 / 1319 * eta ^ 2
            + 3380 / 1319 * eta ^ 3 in
  (c1 + c2) * (c3 - c4) - (c1 - c2) * (c3 + c4)
  = 4 * eta ^ 4 * (249158 * eta - 4823) / 1319.
Proof.
  intros Hs c1 c2 c3 c4. subst c1 c2 c3 c4.
  transitivity
    (2 * (s * s) * (1 + 9 * eta - 11 * eta ^ 2)
       * (1 - 13272 / 1319 * eta + 8944 / 1319 * eta ^ 2)
     - 2 * (1 + 7 * eta - 31 * eta ^ 2)
       * (1 - 15910 / 1319 * eta + 32850 / 1319 * eta ^ 2
          + 3380 / 1319 * eta ^ 3)); [ring |].
  rewrite Hs. field.
Qed.

(** X8: for positive masses whose symmetric mass ratio is not
    4823/249158, where the denominators of the inverse vanish,
    [lambda_tilde] and [delta_lambda_tilde] determine the two tidal
    deformabilities: converting a pair and converting back returns the
    pair. *)
Theorem tidal_roundtrip lambda_1 lambda_2 mass_1 mass_2 :
  0 < mass_1 -> 0 < mass_2 ->
  component_masses_to_symmetric_mass_ratio mass_1 mass_2 <> 4823 / 249158 ->
  lambda_tilde_delta_lambda_tilde_to_lambda_1_lambda_2
    (lambda_1_lambda_2_to_lambda_tilde lambda_1 lambda_2 mass_1 mass_2)
    (lambda_1_lambda_2_to_delta_lambda_tilde lambda_1 lambda_2 mass_1 mass_2)
    mass_1 mass_2
  = (lambda_1, lambda_2).
Proof.
  intros H1 H2 Hne.
  unfold lambda_tilde_delta_lambda_tilde_to_lambda_1_lambda_2,
    lambda_1_lambda_2_to_lambda_tilde, lambda_1_lambda_2_to_delta_lambda_tilde.
  cbv zeta.
  assert (Heta : 0 < component_masses_to_symmetric_mass_ratio mass_1 mass_2
                 <= 1 / 4).
  { unfold component_masses_to_symmetric_mass_ratio. split.
    - apply Rmin_glb_lt; [| lra]. apply Rdiv_lt_0_compat; nra.
    - apply Rmin_r. }
  set (eta := component_masses_to_symmetric_mass_ratio mass_1 mass_2) in *.
  rewrite !float_pow_half by lra.
  pose proof (sqrt_sqrt (1 - 4 * eta) ltac:(lra)) as Hs.
  pose proof (tidal_determinant eta _ Hs) as Hdet. cbv zeta in Hdet.
  set (s := sqrt (1 - 4 * eta)) in *.
  assert (Hnz : 4 * eta ^ 4 * (249158 * eta - 4823) / 1319 <> 0).
  { intros Hz.
    assert (Hz' : eta ^ 4 * (249158 * eta - 4823) = 0) by lra.
    destruct (Rmult_integral _ _ Hz') as [Hz1 | Hz1].
    - assert (0 < eta ^ 4) by (apply pow_lt; lra). lra.
    - apply Hne. lra. }
  rewrite <- Hdet in Hnz.
  set (c1 := 1 + 7 * eta - 31 * eta ^ 2) in *.
  set (c2 := s * (1 + 9 * eta - 11 * eta ^ 2)) in *.
  set (c3 := s * (1 - 13272 / 1319 * eta + 8944 / 1319 * eta ^ 2)) in *.
  set (c4 := 1 - 15910 / 1319 * eta + 32850 / 1319 * eta ^ 2
             + 3380 / 1319 * eta ^ 3) in *.
  f_equal; field.
  - exact Hnz.
  - intros Hz. apply Hnz. lra.
Qed.

Lemma tidal_coefficients_ordered eta s :
  0 < eta <= 1 / 4 -> 0 <= s -> s * s = 1 - 4 * eta ->
  s * (1 + 9 * eta - 11 * eta ^ 2) < 1 + 7 * eta - 31 * eta ^ 2.
Proof.
  intros [H0 H1] Hs Hss.
  assert (Hc1 : 0 < 1 + 7 * eta - 31 * eta ^ 2) by nra.
  assert (HA : 0 < 1 + 9 * eta - 11 * eta ^ 2) by nra.
  assert (Hd : (1 + 7 * eta - 31 * eta ^ 2) ^ 2
               - (s * (1 + 9 * eta - 11 * eta ^ 2)) ^ 2
               = eta ^ 4 * (48 + 484 * eta)).
  { transitivity ((1 + 7 * eta - 31 * eta ^ 2) ^ 2
                  - (s * s) * (1 + 9 * eta - 11 * eta ^ 2) ^ 2); [ring |].
    rewrite Hss. ring. }
  assert (Hpos : 0 < eta ^ 4 * (48 + 484 * eta)).
  { apply Rmult_lt_0_compat; [apply pow_lt; lra | lra]. }
  set (c1 := 1 + 7 * eta - 31 * eta ^ 2) in *.
  set (c2 := s * (1 + 9 * eta - 11 * eta ^ 2)) in *.
  assert (Hc2 : 0 <= c2) by (unfold c2; apply Rmult_le_pos; lra).
  destruct (Rlt_dec c2 c1) as [L | N]; [exact L |].
  exfalso. assert (c1 <= c2) by lra. nra.
Qed.

(** X9: for positive masses the pair computed from [lambda_tilde] alone
    has that [lambda_tilde], and satisfies the relation of the docstring,
    [lambda_1 * mass_1^5 = lambda_2 * mass_2^5]; no denominator vanishes. *)
Theorem lambda_tilde_roundtrip lambda_tilde mass_1 mass_2 :
  0 < mass_1 -> 0 < mass_2 ->
  let lambdas := lambda_tilde_to_lambda_1_lambda_2 lambda_tilde mass_1 mass_2 in
  lambda_1_lambda_2_to_lambda_tilde (fst lambdas) (snd lambdas) mass_1 mass_2
  = lambda_tilde
  /\ fst lambdas * mass_1 ^ 5 = snd lambdas * mass_2 ^ 5.
Proof.
  intros H1 H2 lambdas. subst lambdas.
  unfold lambda_tilde_to_lambda_1_lambda_2, lambda_1_lambda_2_to_lambda_tilde.
  cbv zeta. cbn [fst snd].
  assert (Heta : 0 < component_masses_to_symmetric_mass_ratio mass_1 mass_2
                 <= 1 / 4).
  { unfold component_masses_to_symmetric_mass_ratio. split.
    - apply Rmin_glb_lt; [| lra]. apply Rdiv_lt_0_compat; nra.
    - apply Rmin_r. }
  set (eta := component_masses_to_symmetric_mass_ratio mass_1 mass_2) in *.
  rewrite !float_pow_half by lra.
  pose proof (sqrt_sqrt (1 - 4 * eta) ltac:(lra)) as Hss.
  pose proof (sqrt_pos (1 - 4 * eta)) as Hs.
  pose proof (tidal_coefficients_ordered eta _ Heta Hs Hss) as Hord.
  set (s := sqrt (1 - 4 * eta)) in *.
  assert (HA : 0 < 1 + 9 * eta - 11 * eta ^ 2) by nra.
  set (c1 := 1 + 7 * eta - 31 * eta ^ 2) in *.
  set (c2 := s * (1 + 9 * eta - 11 * eta ^ 2)) in *.
  assert (Hc2 : 0 <= c2) by (unfold c2; apply Rmult_le_pos; lra).
  assert (Hq : 0 < mass_2 / mass_1) by now apply Rdiv_lt_0_compat.
  set (q := mass_2 / mass_1) in *.
  assert (Hq5 : 0 < q ^ 5) by now apply pow_lt.
  assert (Ei : powerRZ q (-5) = / q ^ 5) by reflexivity.
  rewrite Ei.
  assert (Hi : 0 < / q ^ 5) by now apply Rinv_0_lt_compat.
  assert (Hden : 0 < c1 * (1 + / q ^ 5) + c2 * (1 - / q ^ 5)).
  { replace (c1 * (1 + / q ^ 5) + c2 * (1 - / q ^ 5))
      with ((c1 + c2) + / q ^ 5 * (c1 - c2)) by ring.
    assert (0 < / q ^ 5 * (c1 - c2)) by (apply Rmult_lt_0_compat; lra).
    lra. }
  assert (Hden2 : 0 < c1 * (q ^ 5 + 1) + c2 * (q ^ 5 - 1)).
  { replace (c1 * (q ^ 5 + 1) + c2 * (q ^ 5 - 1))
      with ((c1 + c2) * q ^ 5 + (c1 - c2)) by ring.
    assert (0 <= (c1 + c2) * q ^ 5) by (apply Rmult_le_pos; lra).
    lra. }
  split.
  - field. split; lra.
  - match goal with |- ?l * _ = _ => generalize l end.
    intros l1. unfold q. field. split; lra.
Qed.

(** ** Instances *)

Lemma mass_2_ratio_is_reciprocal_witness :
  0 < 2 /\ 0 < 1 /\ (1 / 2) ^ 5 <= 27 / 4
  /\ mass_2_and_chirp_mass_to_mass_ratio 2 1
     = 1 / mass_1_and_chirp_mass_to_mass_ratio 2 1
  /\ 0 < mass_1_and_chirp_mass_to_mass_ratio 2 1
  /\ mass_2_and_chirp_mass_to_mass_ratio 2 1
     * mass_1_and_chirp_mass_to_mass_ratio 2 1 = 1.
Proof.
  assert (H2 : 0 < 2) by lra. assert (H1 : 0 < 1) by lra.
  assert (Hd : (1 / 2) ^ 5 <= 27 / 4) by lra.
  destruct (mass_2_ratio_is_reciprocal 2 1 H2 H1) as [E P].
  destruct (P Hd) as [Hpos Hprod].
  repeat split; assumption.
Defined.

Lemma mass_roundtrip_witness :
  0 < 1 /\ 1 < 2
  /\ total_mass_and_mass_ratio_to_component_masses
       (component_masses_to_mass_ratio 2 1) (component_masses_to_total_mass 2 1)
     = (2, 1)
  /\ chirp_mass_and_mass_ratio_to_component_masses
       (component_masses_to_chirp_mass 2 1) (component_masses_to_mass_ratio 2 1)
     = (2, 1).
Proof.
  split; [lra |]. split; [lra |]. apply (mass_roundtrip 2 1); lra.
Defined.

Lemma symmetric_mass_ratio_root_witness :
  0 < 2 / 9 <= 0.25
  /\ let t := 1 / (2 * (2 / 9)) - 1 in
     let q := symmetric_mass_ratio_to_mass_ratio (2 / 9) in
     q = t - sqrt (t ^ 2 - 1)
     /\ 0 < q <= 1
     /\ 2 / 9 * (1 + q) ^ 2 = q.
Proof.
  split; [lra |]. apply (symmetric_mass_ratio_root (2 / 9)). lra.
Defined.

(** At [eta = 2/9] the root is [1/2]. *)
Example symmetric_mass_ratio_two_ninths :
  symmetric_mass_ratio_to_mass_ratio (2 / 9) = 1 / 2.
Proof.
  destruct (symmetric_mass_ratio_root (2 / 9)) as (_ & [Hq0 Hq1] & Hroot);
    [lra |].
  nra.
Qed.

(** C5, as stated, fails for the value that the program returns.  In
    binary64, at [eta = 2^-60], [1 / eta / 2] is [2^59] and [2^59 - 1]
    rounds to [2^59]; its square [2^118] absorbs the 1, the root is
    [2^59] again, and the difference is 0: the returned value is not
    above 0. *)
Lemma symmetric_mass_ratio_cancels_in_binary64 :
  let eta := 0x1p-60%float in
  let temp := (1 / eta / 2 - 1)%float in
  PrimFloat.ltb 0 eta = true
  /\ PrimFloat.leb eta 0.25 = true
  /\ temp = 0x1p59%float
  /\ (temp * temp - 1)%float = 0x1p118%float
  /\ PrimFloat.sqrt (temp * temp - 1) = 0x1p59%float
  /\ symmetric_mass_ratio_to_mass_ratio_binary64 eta = 0%float
  /\ PrimFloat.ltb 0 (symmetric_mass_ratio_to_mass_ratio_binary64 eta)
     = false.
Proof. repeat split. Qed.

Lemma mass_ratio_solvers_agree_witness :
  0 < 1 /\ 0 < 1 /\ (1 / 1) ^ 5 <= 27 / 4
  /\ chirp_mass_and_primary_mass_to_mass_ratio 1 1
     = mass_1_and_chirp_mass_to_mass_ratio 1 1.
Proof.
  assert (H : (1 / 1) ^ 5 <= 27 / 4) by (simpl; lra).
  split; [lra |]. split; [lra |]. split; [exact H |].
  apply (mass_ratio_solvers_agree 1 1); [lra | lra | exact H].
Defined.

Lemma aligned_spins_skip_the_transform_witness :
  (0 = 0 \/ 1 = 0 \/ 1 = PI) /\ (0 = 0 \/ 2 = 0 \/ 2 = PI)
  /\ let run :=
       bilby_to_lalsimulation_spins example_frame_transform true 0.3 0 1 2 0
         0 0 30 20 50 0 (world_of []) in
     run = (Ok (0.3, 0, 0, 0 * cos 1, 0, 0, 0 * cos 2), world_of [])
     /\ trace (snd run) = trace (world_of [])
     /\ (0 = 0 -> 0 = 0 -> fst run = Ok (0.3, 0, 0, 0, 0, 0, 0)).
Proof.
  split; [left; reflexivity |]. split; [left; reflexivity |].
  apply (aligned_spins_skip_the_transform example_frame_transform true);
    left; reflexivity.
Defined.

Lemma reconstruction_guards_witness :
  obj_at (world_of [mkObject OtherC []]) 0 = Some (mkObject OtherC [])
  /\ let run :=
       generate_posterior_samples_from_marginalized_likelihood 0
         (Some example_likelihood) 1 10 true (world_of [mkObject OtherC []]) in
     (marginalized_parameters_of (Some example_likelihood) = [] ->
      run = (Ok 0%nat, world_of [mkObject OtherC []]))
     /\ (shape (mkObject OtherC []) = DictC ->
         run = (Ok 0%nat, world_of [mkObject OtherC []]))
     /\ (shape (mkObject OtherC []) = OtherC ->
         marginalized_parameters_of (Some example_likelihood) <> [] ->
         exists msg,
           run = (Err (Exn ValueError msg), world_of [mkObject OtherC []])).
Proof.
  split; [reflexivity |].
  apply (reconstruction_guards 0 (Some example_likelihood) 1 10 true
           (world_of [mkObject OtherC []]) (mkObject OtherC [])).
  reflexivity.
Defined.


(** C7, as stated, fails: without marginalised parameters an input that is
    neither a point nor a table is returned, and no error is raised. *)
Lemma unsupported_samples_pass_without_marginalized_parameters :
  shape (mkObject OtherC []) = OtherC
  /\ generate_posterior_samples_from_marginalized_likelihood 0
       (Some plain_likelihood) 1 10 true (world_of [mkObject OtherC []])
     = (Ok 0%nat, world_of [mkObject OtherC []])
  /\ forall e,
       fst (generate_posterior_samples_from_marginalized_likelihood 0
              (Some plain_likelihood) 1 10 true
              (world_of [mkObject OtherC []])) <> Err e.
Proof. repeat split. intros e H. discriminate H. Qed.


(** *** The cache *)

Lemma stale_table_differs : cached_samples stale_cache <> example_table.
Proof. intros H. inversion H. lra. Qed.

Lemma stale_run_returns :
  fst (generate_posterior_samples_from_marginalized_likelihood 0
         (Some example_likelihood) 1 2 true (world_with_cache stale_cache))
  = Ok 0%nat.
Proof.
  unfold generate_posterior_samples_from_marginalized_likelihood.
  cbn -[object_equals].
  destruct (object_equals_spec stale_table example_table) as [E | _].
  - exfalso. inversion E. lra.
  - reflexivity.
Qed.

Lemma stale_cache_is_discarded_witness :
  let w := world_with_cache stale_cache in
  let run :=
    generate_posterior_samples_from_marginalized_likelihood 0
      (Some example_likelihood) 1 2 true w in
  obj_at w 0 = Some example_table
  /\ shape example_table = FrameC 3
  /\ marginalized_parameters_of (Some example_likelihood) <> []
  /\ (0 < 2)%nat
  /\ run = (Ok 0%nat, snd run)
  /\ (forall name c,
         cache_filename_of example_likelihood = Some name ->
         file_get (files w) name = Some (Pickled c) ->
         cached_samples c <> example_table ->
         posterior_draws (trace (snd run))
         = (posterior_draws (trace w) ++ seq 0 3)%list)
  /\ (posterior_draws (trace (snd run))
      <> (posterior_draws (trace w) ++ seq 0 3)%list ->
      exists name c,
        cache_filename_of example_likelihood = Some name
        /\ file_get (files w) name = Some (Pickled c)
        /\ cached_samples c = example_table).
Proof.
  intros w run.
  assert (Hrun : run = (Ok 0%nat, snd run)).
  { pose proof stale_run_returns as H. fold w in H. fold run in H.
    destruct run as [r w']. simpl in *. now subst. }
  split; [reflexivity |]. split; [reflexivity |].
  split; [discriminate |]. split; [lia |]. split; [exact Hrun |].
  apply (stale_cache_is_discarded 0 example_likelihood 1 2 true w
           example_table 3 0 (snd run));
    [reflexivity | reflexivity | discriminate | lia | exact Hrun].
Defined.

(** With the stale cache of the example every row is drawn again, although
    the file holds a block for the rows 0 and 1. *)
Example stale_cache_draws_every_row :
  posterior_draws
    (trace (snd (generate_posterior_samples_from_marginalized_likelihood 0
                   (Some example_likelihood) 1 2 true
                   (world_with_cache stale_cache))))
  = [0; 1; 2]%nat.
Proof.
  unfold generate_posterior_samples_from_marginalized_likelihood.
  cbn -[object_equals].
  destruct (object_equals_spec stale_table example_table) as [E | _].
  - exfalso. inversion E. lra.
  - reflexivity.
Qed.

(** With a cache of the same table the block of the file is used, and only
    the last row is drawn. *)
Example current_cache_is_reused :
  posterior_draws
    (trace (snd (generate_posterior_samples_from_marginalized_likelihood 0
                   (Some example_likelihood) 1 2 true
                   (world_with_cache current_cache))))
  = [2%nat].
Proof.
  unfold generate_posterior_samples_from_marginalized_likelihood.
  cbn -[object_equals].
  destruct (object_equals_spec example_table example_table) as [_ | E].
  - reflexivity.
  - now contradiction E.
Qed.

(** *** The default tides *)

Lemma neutron_star_default_tides_witness :
  let o := point [("mass_1", vfloat 1.4); ("mass_2", vfloat 1.3)] in
  let w := world_of [o] in
  let black_hole_run :=
    convert_to_lal_binary_black_hole_parameters example_distance
      example_redshift example_redshift (List.length (heap w))
      (set_heap (heap w ++ [o]) w) in
  obj_at w 0 = Some o
  /\ shape o <> OtherC
  /\ no_tidal_key o
  /\ no_tidal_source_key o
  /\ black_hole_run = (Ok (3%nat, ["phi_jl"; "phi_12"]), snd black_hole_run)
  /\ exists w2 o2,
       convert_to_lal_binary_neutron_star_parameters example_distance
         example_redshift example_redshift unit no_star (fun _ => false)
         (fun _ i => INR i) (fun _ => 2) (fun _ m => m) 0 w
       = (Ok (3%nat, ["phi_jl"; "phi_12"; "lambda_1"; "lambda_2"]), w2)
       /\ obj_at w2 3 = Some o2
       /\ dict_get (items o2) "lambda_1" = stored (shape o2) (vfloat 0)
       /\ dict_get (items o2) "lambda_2" = stored (shape o2) (vfloat 0).
Proof.
  intros o w black_hole_run.
  assert (H1 : no_tidal_key o).
  { intros k Hk. unfold tidal_keys in Hk. simpl in Hk.
    repeat (destruct Hk as [<- | Hk]; [reflexivity |]). contradiction. }
  assert (H2 : no_tidal_source_key o).
  { intros k Hk. unfold tidal_keys in Hk. simpl in Hk.
    repeat (destruct Hk as [<- | Hk]; [reflexivity |]). contradiction. }
  assert (H3 : black_hole_run
               = (Ok (3%nat, ["phi_jl"; "phi_12"]), snd black_hole_run))
    by reflexivity.
  split; [reflexivity |]. split; [discriminate |].
  split; [exact H1 |]. split; [exact H2 |]. split; [exact H3 |].
  apply (neutron_star_default_tides example_distance example_redshift
           example_redshift unit no_star (fun _ => false) (fun _ i => INR i)
           (fun _ => 2) (fun _ m => m) 0 w o 3 ["phi_jl"; "phi_12"]
           (snd black_hole_run));
    [reflexivity | discriminate | exact H1 | exact H2 | exact H3].
Defined.

(** C9, as stated, fails: a sample with none of the five keys, but with
    [lambda_1_source] and [lambda_2_source], comes back with the
    detector-frame values that the black-hole conversion derived from
    them. *)
Lemma source_frame_tides_replace_the_default :
  let o := point [("lambda_1_source", vfloat 400);
                  ("lambda_2_source", vfloat 500); ("redshift", vfloat 0)] in
  let run :=
    convert_to_lal_binary_neutron_star_parameters example_distance
      example_redshift example_redshift unit no_star (fun _ => false)
      (fun _ i => INR i) (fun _ => 2) (fun _ m => m) 0 (world_of [o]) in
  (forall k, In k tidal_keys -> dict_mem (items o) k = false)
  /\ fst run
     = Ok (2%nat,
           ["luminosity_distance"; "lambda_1"; "lambda_2"; "phi_jl";
            "phi_12"])
  /\ exists o2,
       obj_at (snd run) 2 = Some o2
       /\ dict_get (items o2) "lambda_1" = Some (vfloat (400 * (1 + 0)))
       /\ dict_get (items o2) "lambda_1" <> Some (vfloat 0)
       /\ dict_get (items o2) "lambda_2" <> Some (vfloat 0).
Proof.
  intros o run. split.
  { intros k Hk. unfold tidal_keys in Hk. simpl in Hk.
    repeat (destruct Hk as [<- | Hk]; [reflexivity |]). contradiction. }
  split; [reflexivity |].
  eexists. split; [reflexivity |]. split; [reflexivity |].
  split; intros H; inversion H; lra.
Qed.

(** *** The mass and tidal algebra *)

Lemma symmetric_mass_ratio_cap_is_inactive_witness :
  0 < 2 /\ 0 < 1
  /\ component_masses_to_symmetric_mass_ratio 2 1 = 2 * 1 / (2 + 1) ^ 2
  /\ 0 < component_masses_to_symmetric_mass_ratio 2 1 <= 1 / 4
  /\ (component_masses_to_symmetric_mass_ratio 2 1 = 1 / 4 <-> 2 = 1).
Proof.
  split; [lra |]. split; [lra |].
  apply (symmetric_mass_ratio_cap_is_inactive 2 1); lra.
Defined.

Lemma symmetric_mass_ratio_roundtrip_witness :
  0 < 1 /\ 1 <= 2
  /\ symmetric_mass_ratio_to_mass_ratio
       (component_masses_to_symmetric_mass_ratio 2 1)
     = component_masses_to_mass_ratio 2 1.
Proof.
  split; [lra |]. split; [lra |].
  apply (symmetric_mass_ratio_roundtrip 2 1); lra.
Defined.

Lemma chirp_and_total_mass_give_the_symmetric_ratio_witness :
  0 < 2 /\ 0 < 1
  /\ chirp_mass_and_total_mass_to_symmetric_mass_ratio
       (component_masses_to_chirp_mass 2 1) (component_masses_to_total_mass 2 1)
     = component_masses_to_symmetric_mass_ratio 2 1.
Proof.
  split; [lra |]. split; [lra |].
  apply (chirp_and_total_mass_give_the_symmetric_ratio 2 1); lra.
Defined.

Lemma primary_solver_solves_the_cubic_witness :
  0 < 2 /\ 0 < 1 /\ (1 / 2) ^ 5 <= 27 / 4
  /\ 0 < mass_1_and_chirp_mass_to_mass_ratio 2 1
  /\ mass_1_and_chirp_mass_to_mass_ratio 2 1 ^ 3
     / (1 + mass_1_and_chirp_mass_to_mass_ratio 2 1)
     = (1 / 2) ^ 5.
Proof.
  split; [lra |]. split; [lra |]. split; [lra |].
  apply (primary_solver_solves_the_cubic 2 1); lra.
Defined.

Lemma primary_solvers_recover_the_mass_ratio_witness :
  0 < 2 /\ 0 < 1 /\ 1 <= 3 * 2
  /\ mass_1_and_chirp_mass_to_mass_ratio 2 (component_masses_to_chirp_mass 2 1)
     = component_masses_to_mass_ratio 2 1
  /\ chirp_mass_and_primary_mass_to_mass_ratio
       (component_masses_to_chirp_mass 2 1) 2
     = component_masses_to_mass_ratio 2 1.
Proof.
  split; [lra |]. split; [lra |]. split; [lra |].
  apply (primary_solvers_recover_the_mass_ratio 2 1); lra.
Defined.

Lemma secondary_solver_recovers_the_mass_ratio_witness :
  0 < 2 /\ 0 < 1 /\ 2 <= 3 * 1
  /\ mass_2_and_chirp_mass_to_mass_ratio 1 (component_masses_to_chirp_mass 2 1)
     = component_masses_to_mass_ratio 2 1.
Proof.
  split; [lra |]. split; [lra |]. split; [lra |].
  apply (secondary_solver_recovers_the_mass_ratio 2 1); lra.
Defined.

Lemma chirp_mass_and_mass_ratio_give_consistent_masses_witness :
  0 < 30 /\ 0 < 0.5
  /\ let masses := chirp_mass_and_mass_ratio_to_component_masses 30 0.5 in
     0 < fst masses /\ 0 < snd masses
     /\ component_masses_to_mass_ratio (fst masses) (snd masses) = 0.5
     /\ component_masses_to_chirp_mass (fst masses) (snd masses) = 30.
Proof.
  split; [lra |]. split; [lra |].
  apply (chirp_mass_and_mass_ratio_give_consistent_masses 30 0.5); lra.
Defined.

Lemma equal_masses_are_regular :
  component_masses_to_symmetric_mass_ratio 1 1 <> 4823 / 249158.
Proof.
  unfold component_masses_to_symmetric_mass_ratio, Rmin.
  destruct (Rle_dec _ _); lra.
Defined.

Lemma tidal_roundtrip_witness :
  0 < 1 /\ 0 < 1
  /\ component_masses_to_symmetric_mass_ratio 1 1 <> 4823 / 249158
  /\ lambda_tilde_delta_lambda_tilde_to_lambda_1_lambda_2
       (lambda_1_lambda_2_to_lambda_tilde 400 300 1 1)
       (lambda_1_lambda_2_to_delta_lambda_tilde 400 300 1 1) 1 1
     = (400, 300).
Proof.
  split; [lra |]. split; [lra |]. split; [exact equal_masses_are_regular |].
  apply (tidal_roundtrip 400 300 1 1); [lra | lra |].
  exact equal_masses_are_regular.
Defined.

Lemma lambda_tilde_roundtrip_witness :
  0 < 2 /\ 0 < 1
  /\ let lambdas := lambda_tilde_to_lambda_1_lambda_2 400 2 1 in
     lambda_1_lambda_2_to_lambda_tilde (fst lambdas) (snd lambdas) 2 1 = 400
     /\ fst lambdas * 2 ^ 5 = snd lambdas * 1 ^ 5.
Proof.
  split; [lra |]. split; [lra |].
  apply (lambda_tilde_roundtrip 400 2 1); lra.
Defined.

(** *** Calls, errors and fall-backs of the pipeline *)

Lemma general_spins_call_the_transform_witness :
  ((1 <> 0 /\ 1 <> 0 /\ 1 <> PI) \/ (0 <> 0 /\ 2 <> 0 /\ 2 <> PI))
  /\ let run :=
       bilby_to_lalsimulation_spins example_frame_transform false 0.3 0 1 2
         0 1 0 30 20 50 0 (world_of []) in
     let call := FrameTransform [0.3; 0; 1; 2; 0; 1; 0; 30; 20; 50; 0] in
     fst run = Ok (example_frame_transform 0.3 0 1 2 0 1 0 30 20 50 0)
     /\ trace (snd run)
        = (trace (world_of []) ++ (if false then [call] else [call; call]))%list.
Proof.
  assert (H : (1 <> 0 /\ 1 <> 0 /\ 1 <> PI)
              \/ (0 <> 0 /\ 2 <> 0 /\ 2 <> PI)).
  { left. pose proof PI2_1. repeat split; lra. }
  split; [exact H |].
  apply (general_spins_call_the_transform example_frame_transform false 0.3
           0 1 2 0 1 0 30 20 50 0 (world_of []) H).
Defined.

Lemma reconstruction_restarts_from_its_cache_witness :
  let w := world_of [example_table] in
  let run :=
    generate_posterior_samples_from_marginalized_likelihood 0
      (Some example_likelihood) 1 2 true w in
  obj_at w 0 = Some example_table
  /\ shape example_table = FrameC 3
  /\ marginalized_parameters_of (Some example_likelihood) <> []
  /\ (0 < 2)%nat
  /\ cache_filename_of example_likelihood = Some example_cache_file
  /\ run = (Ok 0%nat, snd run)
  /\ exists bs,
       file_get (files (snd run)) example_cache_file
       = Some (Pickled (mkCache example_table bs))
       /\ forall samples2 npool2 w2 r2 w2',
            obj_at w2 samples2 = Some example_table ->
            file_get (files w2) example_cache_file
            = file_get (files (snd run)) example_cache_file ->
            clean w2 = false ->
            generate_posterior_samples_from_marginalized_likelihood samples2
              (Some example_likelihood) npool2 2 true w2 = (Ok r2, w2') ->
            posterior_draws (trace w2') = posterior_draws (trace w2).
Proof.
  intros w run.
  assert (Hfst : fst run = Ok 0%nat) by (unfold run, w; cbn; reflexivity).
  assert (Hrun : run = (Ok 0%nat, snd run))
    by (rewrite <- Hfst; apply surjective_pairing).
  split; [reflexivity |]. split; [reflexivity |].
  split; [discriminate |]. split; [lia |]. split; [reflexivity |].
  split; [exact Hrun |].
  apply (reconstruction_restarts_from_its_cache 0 example_likelihood 1 2 w
           example_table 3 0 (snd run) example_cache_file);
    [reflexivity | reflexivity | discriminate | lia | reflexivity
    | exact Hrun].
Defined.

Lemma cache_is_read_only_when_enabled_and_not_clean_witness :
  let w := world_with_cache current_cache in
  let run :=
    generate_posterior_samples_from_marginalized_likelihood 0
      (Some example_likelihood) 1 2 false w in
  obj_at w 0 = Some example_table
  /\ shape example_table = FrameC 3
  /\ marginalized_parameters_of (Some example_likelihood) <> []
  /\ (0 < 2)%nat
  /\ run = (Ok 0%nat, snd run)
  /\ (false = false \/ clean w = true
      \/ cache_filename_of example_likelihood = None
      \/ file_get (files w) (cache_name example_likelihood) = None
      \/ file_get (files w) (cache_name example_likelihood)
         = Some EmptyFile)
  /\ posterior_draws (trace (snd run))
     = (posterior_draws (trace w) ++ seq 0 3)%list.
Proof.
  intros w run.
  assert (Hfst : fst run = Ok 0%nat) by (unfold run, w; cbn; reflexivity).
  assert (Hrun : run = (Ok 0%nat, snd run))
    by (rewrite <- Hfst; apply surjective_pairing).
  split; [reflexivity |]. split; [reflexivity |].
  split; [discriminate |]. split; [lia |]. split; [exact Hrun |].
  split; [left; reflexivity |].
  apply (cache_is_read_only_when_enabled_and_not_clean 0 example_likelihood
           1 2 false w example_table 3 0 (snd run));
    [reflexivity | reflexivity | discriminate | lia | exact Hrun
    | left; reflexivity].
Defined.

Lemma no_file_is_written_when_caching_is_off_witness :
  let w := world_with_cache stale_cache in
  (false = false
   \/ (forall l, Some example_likelihood = Some l ->
                 cache_filename_of l = None))
  /\ files (snd (generate_posterior_samples_from_marginalized_likelihood 0
                   (Some example_likelihood) 1 2 false w))
     = files w.
Proof.
  intros w. split; [left; reflexivity |].
  apply (no_file_is_written_when_caching_is_off 0 (Some example_likelihood)
           1 2 false w).
  left. reflexivity.
Defined.

Lemma reconstruction_ends_exactly_for_positive_blocks_witness :
  let w := world_of [example_table] in
  obj_at w 0 = Some example_table
  /\ shape example_table = FrameC 3
  /\ marginalized_parameters_of (Some example_likelihood) <> []
  /\ let run :=
       generate_posterior_samples_from_marginalized_likelihood 0
         (Some example_likelihood) 1 0 true w in
     ((0 < 0)%nat -> draws_terminate example_likelihood ->
      forall e, fst run = Err e -> exn_kind e <> Diverges)
     /\ (0%nat = 0%nat -> (0 < 3)%nat ->
         exists msg, fst run = Err (Exn Diverges msg)).
Proof.
  intros w.
  split; [reflexivity |]. split; [reflexivity |]. split; [discriminate |].
  apply (reconstruction_ends_exactly_for_positive_blocks 0 example_likelihood
           1 0 true w example_table 3);
    [reflexivity | reflexivity | discriminate].
Defined.

(** *** The completion of the masses *)

Lemma mass_completion_only_adds_witness :
  let o := point [("chirp_mass", vfloat 1.2); ("mass_ratio", vfloat 0.9)] in
  let w := world_of [o] in
  let run := generate_component_masses 0 true false w in
  obj_at w 0 = Some o
  /\ run = (Ok 1%nat, snd run)
  /\ obj_at (snd run) 0 = Some o
  /\ exists o',
       obj_at (snd run) 1 = Some o' /\ extends o o'
       /\ ((1%nat = 0%nat /\ true = false)
           \/ has_keys ["mass_1"; "mass_2"] o').
Proof.
  intros o w run.
  split; [reflexivity |]. split; [reflexivity |].
  apply (mass_completion_only_adds 0 true false w o 1 (snd run));
    reflexivity.
Defined.

Lemma mass_parameters_are_added_not_recomputed_witness :
  let o := point [("mass_1", vfloat 1.4); ("mass_2", vfloat 1.3)] in
  let w := world_of [o] in
  let run := generate_mass_parameters 0 false w in
  obj_at w 0 = Some o
  /\ run = (Ok 2%nat, snd run)
  /\ obj_at (snd run) 0 = Some o
  /\ exists o',
       obj_at (snd run) 2 = Some o' /\ extends o o'
       /\ has_keys ["chirp_mass"; "total_mass"; "symmetric_mass_ratio";
                    "mass_ratio"] o'.
Proof.
  intros o w run.
  split; [reflexivity |]. split; [reflexivity |].
  apply (mass_parameters_are_added_not_recomputed 0 false w o 2 (snd run));
    reflexivity.
Defined.

Lemma insufficient_mass_parameters_are_reported_witness :
  let o := point [("chirp_mass", vfloat 1.2)] in
  let w := world_of [o] in
  obj_at w 0 = Some o
  /\ shape o <> OtherC
  /\ sufficient_mass_parameters (items o) false = false
  /\ generate_component_masses 0 true false w
     = (Err (Exn KeyError "Insufficient mass parameters in input dictionary"),
        set_heap (heap w ++ [o]) w)
  /\ (dict_mem (items o) "mass_1" = true
      \/ dict_mem (items o) "mass_2" = false ->
      generate_component_masses 0 false false w
      = (Ok 0%nat, set_heap (heap w ++ [o]) w)).
Proof.
  intros o w.
  split; [reflexivity |]. split; [discriminate |]. split; [reflexivity |].
  apply (insufficient_mass_parameters_are_reported 0 false w o);
    [reflexivity | discriminate | reflexivity].
Defined.

(** *** Spins, missing keys, the stage of the detectors, fixed priors *)

Lemma component_spins_fall_back_witness :
  let d := [("chi_1", vfloat 0.1); ("chi_2", vfloat 0.2)] in
  let w := world_of [point d] in
  obj_at w 0 = Some (point d)
  /\ forallb (dict_mem d) spin_conversion_parameters = false
  /\ let run := generate_component_spins example_frame_transform 1 0 w in
     trace (snd run) = trace w
     /\ obj_at (snd run) 0 = Some (point d)
     /\ (forall chi_1 chi_2,
            dict_get d "chi_1" = Some chi_1 ->
            dict_get d "chi_2" = Some chi_2 ->
            exists r d',
              fst run = Ok r /\ obj_at (snd run) r = Some (point d')
              /\ dict_get d' "spin_1x" = Some (vfloat 0)
              /\ dict_get d' "spin_1y" = Some (vfloat 0)
              /\ dict_get d' "spin_1z" = Some chi_1
              /\ dict_get d' "spin_2x" = Some (vfloat 0)
              /\ dict_get d' "spin_2y" = Some (vfloat 0)
              /\ dict_get d' "spin_2z" = Some chi_2
              /\ forall k,
                   ~ In k ["spin_1x"; "spin_1y"; "spin_1z"; "spin_2x";
                           "spin_2y"; "spin_2z"] ->
                   dict_get d' k = dict_get d k)
     /\ (dict_mem d "chi_1" && dict_mem d "chi_2" = false ->
         exists r, fst run = Ok r /\ r <> 0%nat
                   /\ obj_at (snd run) r = Some (point d)).
Proof.
  intros d w.
  split; [reflexivity |]. split; [reflexivity |].
  apply (component_spins_fall_back example_frame_transform 1 0 w d);
    reflexivity.
Defined.

Lemma generators_report_the_missing_key_witness :
  let o := point [("mass_1", vfloat 1.4)] in
  let w := world_of [o] in
  obj_at w 0 = Some o
  /\ shape o <> OtherC
  /\ (forallb (dict_mem (items o)) spin_conversion_parameters = false ->
      dict_mem (items o) "chi_1" && dict_mem (items o) "chi_2" = false ->
      dict_mem (items o) "spin_1z" = false ->
      generate_spin_parameters example_frame_transform 1 0 w
      = (Err (Exn KeyError "spin_1z"), set_heap (heap w ++ [o; o]) w))
  /\ (dict_mem (items o) "lambda_1" = false ->
      generate_tidal_parameters 0 w
      = (Err (Exn KeyError "lambda_1"), set_heap (heap w ++ [o]) w))
  /\ (dict_mem (items o) "luminosity_distance" = false ->
      generate_source_frame_parameters example_distance example_redshift 0 w
      = (Err (Exn KeyError "luminosity_distance"),
         set_heap (heap w ++ [o]) w)).
Proof.
  intros o w.
  split; [reflexivity |]. split; [discriminate |].
  apply (generators_report_the_missing_key example_frame_transform 1
           example_distance example_redshift 0 w o);
    [reflexivity | discriminate].
Defined.

Lemma per_detector_stage_guards_witness :
  let o := point [("mass_1", vfloat 1.4)] in
  let w := world_of [o] in
  obj_at w 0 = Some o
  /\ let run :=
       compute_per_detector_log_likelihoods 0 (Some example_likelihood) 1
         10 w in
     (Some example_likelihood = None -> run = (Ok None, w))
     /\ (forall l, Some example_likelihood = Some l ->
                   per_detector_callable l = false ->
                   run = (Ok (Some 0%nat), w))
     /\ (forall l, Some example_likelihood = Some l ->
                   per_detector_callable l = true ->
                   shape o = OtherC ->
                   exists msg, run = (Err (Exn ValueError msg), w))
     /\ (forall l, Some example_likelihood = Some l ->
                   per_detector_callable l = true ->
                   shape o = DictC ->
                   let parameters :=
                     dict_update (lik_parameters w) (items o) in
                   fst run = Ok (Some (List.length (heap w)))
                   /\ obj_at (snd run) 0 = Some o
                   /\ obj_at (snd run) (List.length (heap w))
                      = Some (point
                                (fst (compute_per_detector_log_likelihood l
                                        parameters)))
                   /\ lik_parameters (snd run)
                      = snd (compute_per_detector_log_likelihood l
                               parameters)).
Proof.
  intros o w. split; [reflexivity |].
  apply (per_detector_stage_guards 0 (Some example_likelihood) 1 10 w o).
  reflexivity.
Defined.

Lemma fixed_priors_fill_the_sample_witness :
  let d := [("mass_1", vfloat 1.4)] in
  let priors := Some [("mass_2", DeltaFunction (vfloat 1.3))] in
  let w := world_of [point d] in
  obj_at w 0 = Some (point d)
  /\ exists d',
       fst (fill_from_fixed_priors 0 priors w) = Ok (List.length (heap w))
       /\ obj_at (snd (fill_from_fixed_priors 0 priors w)) 0
          = Some (point d)
       /\ obj_at (snd (fill_from_fixed_priors 0 priors w))
            (List.length (heap w))
          = Some (point d')
       /\ (priors = None -> d' = d)
       /\ forall named, priors = Some named ->
            (forall name,
                (forall peak, ~ In (name, DeltaFunction peak) named) ->
                dict_get d' name = dict_get d name)
            /\ (NoDup (map fst named) ->
                forall name peak,
                  In (name, DeltaFunction peak) named ->
                  dict_get d' name = Some peak).
Proof.
  intros d priors w. split; [reflexivity |].
  apply (fixed_priors_fill_the_sample 0 priors w d). reflexivity.
Defined.

(** *** The keys that the conversions add *)

Lemma two_masses_are_distinct_keys :
  NoDup (dict_keys [("mass_1", vfloat 1.4); ("mass_2", vfloat 1.3)]).
Proof.
  simpl. constructor; [intros [H | []]; discriminate H |].
  constructor; [intros [] | constructor].
Qed.

Lemma black_hole_conversion_appends_the_added_keys_witness :
  let o := point [("mass_1", vfloat 1.4); ("mass_2", vfloat 1.3)] in
  let w := world_of [o] in
  let run :=
    convert_to_lal_binary_black_hole_parameters example_distance
      example_redshift example_redshift 0 w in
  obj_at w 0 = Some o
  /\ NoDup (dict_keys (items o))
  /\ run = (Ok (2%nat, ["phi_jl"; "phi_12"]), snd run)
  /\ exists o',
       obj_at (snd run) 2 = Some o'
       /\ shape o' = shape o
       /\ dict_keys (items o')
          = (dict_keys (items o) ++ ["phi_jl"; "phi_12"])%list
       /\ NoDup (dict_keys (items o')).
Proof.
  intros o w run.
  split; [reflexivity |]. split; [exact two_masses_are_distinct_keys |].
  split; [reflexivity |].
  apply (black_hole_conversion_appends_the_added_keys example_distance
           example_redshift example_redshift 0 w o 2 ["phi_jl"; "phi_12"]
           (snd run));
    [reflexivity | exact two_masses_are_distinct_keys | reflexivity].
Defined.

Lemma neutron_star_conversion_appends_the_added_keys_witness :
  let o := point [("mass_1", vfloat 1.4); ("mass_2", vfloat 1.3)] in
  let w := world_of [o] in
  let run :=
    convert_to_lal_binary_neutron_star_parameters example_distance
      example_redshift example_redshift unit no_star (fun _ => false)
      (fun _ i => INR i) (fun _ => 2) (fun _ m => m) 0 w in
  obj_at w 0 = Some o
  /\ NoDup (dict_keys (items o))
  /\ run
     = (Ok (3%nat, ["phi_jl"; "phi_12"; "lambda_1"; "lambda_2"]), snd run)
  /\ exists o',
       obj_at (snd run) 3 = Some o'
       /\ shape o' = shape o
       /\ dict_keys (items o')
          = (dict_keys (items o)
             ++ ["phi_jl"; "phi_12"; "lambda_1"; "lambda_2"])%list
       /\ NoDup (dict_keys (items o')).
Proof.
  intros o w run.
  split; [reflexivity |]. split; [exact two_masses_are_distinct_keys |].
  split; [reflexivity |].
  apply (neutron_star_conversion_appends_the_added_keys example_distance
           example_redshift example_redshift unit no_star (fun _ => false)
           (fun _ i => INR i) (fun _ => 2) (fun _ m => m) 0 w o 3
           ["phi_jl"; "phi_12"; "lambda_1"; "lambda_2"] (snd run));
    [reflexivity | exact two_masses_are_distinct_keys | reflexivity].
Defined.

(** *** Samples only grow *)

Lemma samples_only_grow_witness :
  let o := point [("mass_1", vfloat 1.4)] in
  let w := world_of [o] in
  obj_at w 0 = Some o
  /\ exists o',
       obj_at (snd (compute_snrs 0 (Some example_likelihood) 1 w)) 0
       = Some o'
       /\ grew o o'.
Proof.
  intros o w. split; [reflexivity |].
  destruct
    (samples_only_grow example_frame_transform 1 example_distance
       example_distance example_redshift example_redshift unit no_star
       (fun _ => false) (fun _ i => INR i) (fun _ => 2) (fun _ m => m))
    as (_ & _ & _ & _ & _ & _ & _ & _ & _ & Hsnrs & _).
  apply (Hsnrs 0%nat (Some example_likelihood) 1%nat w 0%nat o).
  reflexivity.
Defined.
